(** * Virtual-Memory-Manager: the paging core, embedded and checked

    A shallow embedding of [backend/src/vmm/PageTable.cpp],
    [backend/src/vmm/Replacement.cpp] and [backend/src/vmm/VMM.cpp]
    (with their headers), of the workload generator
    ([backend/src/workload/WorkloadGen.cpp]), of the URL coding of
    [backend/src/api/Server.cpp] and of the control flow of
    [backend/src/main.cpp]; followed by the properties of the
    specification that concern them and by further properties of the
    code.

    Conventions of the embedding.
    - [int] and [size_t] values are integers of [Z]; every arithmetic
      operation of the source is followed by the wrap-around of its C++
      type ([Int.to_int], [Int.to_size_t]).  Signed overflow, which the
      C++ standard leaves undefined, is modelled as two's complement wrap:
      [Int.add], [Int.sub] and [Int.mul] return the exact result where it
      fits an [int] ([representable]), and the wrapped one elsewhere.
      That an operation overflows no [int] is stated separately
      ([signed_arithmetic_defined], [always_defined]), by the properties
      that promise defined behaviour.
    - [std::vector] is a [list].  [operator[]] with a computed index is
      [vec_at] / [vec_store], which are [None] outside the vector, where
      the source has undefined behaviour; so is a remainder by zero.  A
      function that can reach either returns an [option], and [None]
      stands for "no defined result".
    - [std::unordered_map<int, PageEntry>] is a [gmap Z PageEntry];
      [pages_[p]] default-constructs a missing entry ([PT.entry]).
    - Every public method of [VMM] runs under [mutex_], so a method is one
      atomic state transformer.
    - [emitEvent] hands the event to [event_callback_] when one is
      installed; the model keeps the sequence of delivered events in
      [event_log].  Time stamps and the [std::cout] diagnostics are left
      out. *)

From Stdlib Require Import ZArith Lia Bool Floats.
From stdpp Require Import base decidable option list gmap strings pretty.

#[local] Open Scope Z_scope.
#[local] Set Warnings "-inexact-float".

(** ** Machine integers *)

Module Int.

Definition size_t_modulus : Z := 2 ^ 64.
Definition int_modulus : Z := 2 ^ 32.
Definition int_half : Z := 2 ^ 31.
Definition ULLONG_MAX : Z := size_t_modulus - 1.

(** Conversion to [size_t]: reduction modulo 2^64. *)
Definition to_size_t (z : Z) : Z := z mod size_t_modulus.

(** Conversion to [int]: the representative in [-2^31, 2^31). *)
Definition to_int (z : Z) : Z := (z + int_half) mod int_modulus - int_half.

(** [x++] on a [size_t] or [std::atomic<size_t>]. *)
Definition incr (x : Z) : Z := to_size_t (x + 1).

(** [a + b], [a - b], [a * b], [a / b] and [a % b] on [int]: the exact
    result where it fits an [int]; where it does not, the source has no
    defined behaviour and the model the wrapped value. *)
Definition add (a b : Z) : Z := to_int (a + b).
Definition sub (a b : Z) : Z := to_int (a - b).
Definition mul (a b : Z) : Z := to_int (a * b).
Definition div (a b : Z) : Z := to_int (Z.quot a b).
Definition rem (a b : Z) : Z := Z.rem a b.

(** [i % n] with [i : int] and [n : size_t], stored back into an [int]:
    the left operand is converted to [size_t] first. *)
Definition mod_size_t (i n : Z) : Z := to_int (to_size_t i mod n).

End Int.

(** ** Vectors *)

(** [v[i] = x] behind a range check of the source. *)
Definition vec_set {A} (i : Z) (x : A) (l : list A) : list A :=
  if decide (0 <= i) then <[Z.to_nat i := x]> l else l.

(** [v.size()] *)
Definition vec_size {A} (l : list A) : Z := Z.of_nat (length l).

(** [std::count(v.begin(), v.end(), b)] on a [std::vector<bool>]. *)
Definition count_bool (b : bool) (l : list bool) : Z :=
  Z.of_nat (length (filter (λ x, x = b) l)).

(** ** PageTable.h / PageTable.cpp *)

Record PageEntry := mkPageEntry {
  valid : bool;
  referenced : bool;
  modified : bool;
  frame_number : Z;
  access_count : Z;
  last_access_time : Z;
}.

(** [PageEntry() = default] *)
Definition PageEntry_default : PageEntry :=
  {| valid := false; referenced := false; modified := false;
     frame_number := -1; access_count := 0; last_access_time := 0 |}.

Record PageTable := mkPageTable {
  pages_ : gmap Z PageEntry;
  page_size_ : Z;
  total_pages_ : Z;
}.

Module PT.

Definition new (page_size total_pages : Z) : PageTable :=
  {| pages_ := ∅; page_size_ := page_size; total_pages_ := total_pages |}.

(** The entry [pages_[p]] refers to: the stored one, or a fresh default
    entry that [operator[]] inserts. *)
Definition entry (pt : PageTable) (p : Z) : PageEntry :=
  default PageEntry_default (pages_ pt !! p).

Definition store (p : Z) (e : PageEntry) (pt : PageTable) : PageTable :=
  {| pages_ := <[p := e]> (pages_ pt);
     page_size_ := page_size_ pt; total_pages_ := total_pages_ pt |}.

Definition isPageValid (pt : PageTable) (p : Z) : bool :=
  match pages_ pt !! p with Some e => valid e | None => false end.

Definition isPageReferenced (pt : PageTable) (p : Z) : bool :=
  match pages_ pt !! p with Some e => referenced e | None => false end.

Definition isPageModified (pt : PageTable) (p : Z) : bool :=
  match pages_ pt !! p with Some e => modified e | None => false end.

Definition getFrameNumber (pt : PageTable) (p : Z) : Z :=
  match pages_ pt !! p with
  | Some e => if valid e then frame_number e else -1
  | None => -1
  end.

Definition setPageValid (p : Z) (v : bool) (pt : PageTable) : PageTable :=
  let e := entry pt p in
  store p {| valid := v; referenced := referenced e; modified := modified e;
             frame_number := frame_number e; access_count := access_count e;
             last_access_time := last_access_time e |} pt.

Definition setPageReferenced (p : Z) (r : bool) (pt : PageTable) : PageTable :=
  let e := entry pt p in
  store p {| valid := valid e; referenced := r; modified := modified e;
             frame_number := frame_number e; access_count := access_count e;
             last_access_time := last_access_time e |} pt.

Definition setPageModified (p : Z) (m : bool) (pt : PageTable) : PageTable :=
  let e := entry pt p in
  store p {| valid := valid e; referenced := referenced e; modified := m;
             frame_number := frame_number e; access_count := access_count e;
             last_access_time := last_access_time e |} pt.

Definition setFrameNumber (p : Z) (f : Z) (pt : PageTable) : PageTable :=
  let e := entry pt p in
  store p {| valid := valid e; referenced := referenced e; modified := modified e;
             frame_number := f; access_count := access_count e;
             last_access_time := last_access_time e |} pt.

Definition recordPageAccess (p : Z) (current_time : Z) (pt : PageTable) : PageTable :=
  let e := entry pt p in
  store p {| valid := valid e; referenced := true; modified := modified e;
             frame_number := frame_number e;
             access_count := Int.add (access_count e) 1;
             last_access_time := current_time |} pt.

Definition getAccessCount (pt : PageTable) (p : Z) : Z :=
  match pages_ pt !! p with Some e => access_count e | None => 0 end.

Definition getLastAccessTime (pt : PageTable) (p : Z) : Z :=
  match pages_ pt !! p with Some e => last_access_time e | None => 0 end.

(** The pages whose entry is valid.  The source walks the unordered map,
    so the order of the result is unspecified; here it is the order of
    [map_to_list]. *)
Definition getValidPages (pt : PageTable) : list Z :=
  (map_to_list (filter (λ kv, valid kv.2 = true) (pages_ pt))).*1.

Definition getValidPageCount (pt : PageTable) : Z :=
  Z.of_nat (length (getValidPages pt)).

Definition clear (pt : PageTable) : PageTable :=
  {| pages_ := ∅; page_size_ := page_size_ pt; total_pages_ := total_pages_ pt |}.

End PT.

(** Checked access to [v[i]]: [None] where the index lies outside the
    vector (undefined behaviour in the source). *)
Definition vec_at {A} (l : list A) (i : Z) : option A :=
  if decide (0 <= i) then l !! Z.to_nat i else None.

Definition vec_store {A} (i : Z) (x : A) (l : list A) : option (list A) :=
  if decide (0 <= i < vec_size l) then Some (<[Z.to_nat i := x]> l) else None.

(** ** Replacement.h / Replacement.cpp *)

Inductive ReplacementPolicy := FIFO | LRU | CLOCK.

(** The abstract class [ReplacementAlgorithm].  [selectVictimFrame] is
    [None] where the source has no defined result. *)
Class ReplacementAlgorithm (S : Type) := {
  selectVictimFrame : list bool → PageTable → S → option (Z * S);
  recordFrameAccess : Z → S → S;
  recordFrameEviction : Z → S → S;
  getPolicyName : S → string;
}.

Module FIFOReplacement.

Record t := mk {
  fifo_queue_ : list Z;     (* front of the queue first *)
  in_queue_ : gset Z;
}.

Definition new : t := {| fifo_queue_ := []; in_queue_ := ∅ |}.

(** [while (!fifo_queue_.empty())]: one iteration per queue element. *)
Fixpoint select_loop (frame_validity : list bool) (queue : list Z)
    (in_queue : gset Z) : option (Z * t) :=
  match queue with
  | [] => Some (-1, mk [] in_queue)
  | frame :: rest =>
      occupied ← vec_at frame_validity frame;
      if occupied : bool then Some (frame, mk queue in_queue)
      else select_loop frame_validity rest (in_queue ∖ {[frame]})
  end.

Definition select (frame_validity : list bool) (_ : PageTable) (s : t) :
    option (Z * t) :=
  select_loop frame_validity (fifo_queue_ s) (in_queue_ s).

Definition access (frame_number : Z) (s : t) : t :=
  if decide (frame_number ∈ in_queue_ s) then s
  else {| fifo_queue_ := fifo_queue_ s ++ [frame_number];
          in_queue_ := {[frame_number]} ∪ in_queue_ s |}.

Definition eviction (_ : Z) (s : t) : t := s.

End FIFOReplacement.

#[export] Instance FIFO_algorithm : ReplacementAlgorithm FIFOReplacement.t := {
  selectVictimFrame := FIFOReplacement.select;
  recordFrameAccess := FIFOReplacement.access;
  recordFrameEviction := FIFOReplacement.eviction;
  getPolicyName _ := "FIFO";
}.

Module LRUReplacement.

Record t := mk {
  last_access_times_ : list Z;
  current_time_ : Z;
}.

Definition new (num_frames : Z) : t :=
  {| last_access_times_ := replicate (Z.to_nat num_frames) 0;
     current_time_ := 0 |}.

(** [for (size_t i = 0; i < frame_validity.size(); ++i)], entered at
    index [i] with the frames from [i] on still to visit. *)
Fixpoint scan (rest : list bool) (i : Z) (times : list Z)
    (oldest_time victim_frame : Z) : option Z :=
  match rest with
  | [] => Some victim_frame
  | occupied :: rest =>
      if occupied then
        time ← vec_at times i;
        if decide (time < oldest_time)
        then scan rest (i + 1) times time (Int.to_int i)
        else scan rest (i + 1) times oldest_time victim_frame
      else scan rest (i + 1) times oldest_time victim_frame
  end.

Definition select (frame_validity : list bool) (_ : PageTable) (s : t) :
    option (Z * t) :=
  victim_frame ← scan frame_validity 0 (last_access_times_ s) Int.ULLONG_MAX (-1);
  Some (victim_frame, s).

Definition access (frame_number : Z) (s : t) : t :=
  if decide (0 <= frame_number
             ∧ frame_number < Int.to_int (vec_size (last_access_times_ s)))
  then {| last_access_times_ :=
            vec_set frame_number (current_time_ s) (last_access_times_ s);
          current_time_ := Int.incr (current_time_ s) |}
  else s.

Definition eviction (_ : Z) (s : t) : t := s.

End LRUReplacement.

#[export] Instance LRU_algorithm : ReplacementAlgorithm LRUReplacement.t := {
  selectVictimFrame := LRUReplacement.select;
  recordFrameAccess := LRUReplacement.access;
  recordFrameEviction := LRUReplacement.eviction;
  getPolicyName _ := "LRU";
}.

Module CLOCKReplacement.

Record t := mk {
  reference_bits_ : list bool;
  clock_hand_ : Z;
}.

Definition new (num_frames : Z) : t :=
  {| reference_bits_ := replicate (Z.to_nat num_frames) false;
     clock_hand_ := 0 |}.

(** [clock_hand_ = (clock_hand_ + 1) % frame_validity.size()];
    a remainder by zero has no result. *)
Definition advance (frame_validity : list bool) (s : t) : option t :=
  if decide (vec_size frame_validity = 0) then None
  else Some {| reference_bits_ := reference_bits_ s;
               clock_hand_ := Int.mod_size_t (Int.add (clock_hand_ s) 1)
                                             (vec_size frame_validity) |}.

(** How a [do ... while] loop is left: by [return victim] from its body
    or because its condition became false. *)
Inductive sweep :=
  | Return (victim : Z) (s : t)
  | Exit (s : t).

(** First pass: look for an unreferenced frame.  [fuel] bounds the
    number of iterations of the [do ... while (clock_hand_ != start_hand)]
    loop. *)
Fixpoint first_pass (fuel : nat) (frame_validity : list bool)
    (start_hand : Z) (s : t) : option sweep :=
  match fuel with
  | O => None
  | S fuel =>
      occupied ← vec_at frame_validity (clock_hand_ s);
      bit ← (if occupied : bool then vec_at (reference_bits_ s) (clock_hand_ s)
             else Some false);
      if occupied && negb bit then
        s' ← advance frame_validity s;
        Some (Return (clock_hand_ s) s')
      else
        s' ← advance frame_validity s;
        if decide (clock_hand_ s' ≠ start_hand)
        then first_pass fuel frame_validity start_hand s'
        else Some (Exit s')
  end.

(** Second pass: clear reference bits and find victim. *)
Fixpoint second_pass (fuel : nat) (frame_validity : list bool)
    (start_hand : Z) (s : t) : option sweep :=
  match fuel with
  | O => None
  | S fuel =>
      occupied ← vec_at frame_validity (clock_hand_ s);
      if occupied : bool then
        bit ← vec_at (reference_bits_ s) (clock_hand_ s);
        if negb bit then
          s' ← advance frame_validity s;
          Some (Return (clock_hand_ s) s')
        else
          bits ← vec_store (clock_hand_ s) false (reference_bits_ s);
          s' ← advance frame_validity
                 {| reference_bits_ := bits; clock_hand_ := clock_hand_ s |};
          if decide (clock_hand_ s' ≠ start_hand)
          then second_pass fuel frame_validity start_hand s'
          else Some (Exit s')
      else
        s' ← advance frame_validity s;
        if decide (clock_hand_ s' ≠ start_hand)
        then second_pass fuel frame_validity start_hand s'
        else Some (Exit s')
  end.

(** Each loop is run for at most [frame_validity.size()] iterations: a
    hand inside the vector is back at [start_hand] by then, and a hand
    outside it reads past the vector in the first iteration. *)
Definition select (frame_validity : list bool) (_ : PageTable) (s : t) :
    option (Z * t) :=
  let start_hand := clock_hand_ s in
  r ← first_pass (length frame_validity) frame_validity start_hand s;
  match r with
  | Return victim s => Some (victim, s)
  | Exit s =>
      r ← second_pass (length frame_validity) frame_validity start_hand s;
      match r with
      | Return victim s => Some (victim, s)
      | Exit s => Some (-1, s)
      end
  end.

Definition set_bit (frame_number : Z) (b : bool) (s : t) : t :=
  if decide (0 <= frame_number
             ∧ frame_number < Int.to_int (vec_size (reference_bits_ s)))
  then {| reference_bits_ := vec_set frame_number b (reference_bits_ s);
          clock_hand_ := clock_hand_ s |}
  else s.

Definition access (frame_number : Z) (s : t) : t := set_bit frame_number true s.

Definition eviction (frame_number : Z) (s : t) : t := set_bit frame_number false s.

End CLOCKReplacement.

#[export] Instance CLOCK_algorithm : ReplacementAlgorithm CLOCKReplacement.t := {
  selectVictimFrame := CLOCKReplacement.select;
  recordFrameAccess := CLOCKReplacement.access;
  recordFrameEviction := CLOCKReplacement.eviction;
  getPolicyName _ := "CLOCK";
}.

(** [std::unique_ptr<ReplacementAlgorithm>]: one of the three concrete
    classes. *)
Inductive Algorithm :=
  | AlgFIFO (s : FIFOReplacement.t)
  | AlgLRU (s : LRUReplacement.t)
  | AlgCLOCK (s : CLOCKReplacement.t).

Record ReplacementManager := mkReplacementManager {
  algorithm_ : Algorithm;
  num_frames_ : Z;
}.

Module RM.

Definition setPolicy (policy : ReplacementPolicy) (num_frames : Z) : Algorithm :=
  match policy with
  | FIFO => AlgFIFO FIFOReplacement.new
  | LRU => AlgLRU (LRUReplacement.new num_frames)
  | CLOCK => AlgCLOCK (CLOCKReplacement.new num_frames)
  end.

Definition new (policy : ReplacementPolicy) (num_frames : Z) : ReplacementManager :=
  {| algorithm_ := setPolicy policy num_frames; num_frames_ := num_frames |}.

Definition select (frame_validity : list bool) (pt : PageTable)
    (rm : ReplacementManager) : option (Z * ReplacementManager) :=
  match algorithm_ rm with
  | AlgFIFO s =>
      '(f, s) ← selectVictimFrame frame_validity pt s;
      Some (f, mkReplacementManager (AlgFIFO s) (num_frames_ rm))
  | AlgLRU s =>
      '(f, s) ← selectVictimFrame frame_validity pt s;
      Some (f, mkReplacementManager (AlgLRU s) (num_frames_ rm))
  | AlgCLOCK s =>
      '(f, s) ← selectVictimFrame frame_validity pt s;
      Some (f, mkReplacementManager (AlgCLOCK s) (num_frames_ rm))
  end.

Definition access (frame_number : Z) (rm : ReplacementManager) : ReplacementManager :=
  {| algorithm_ :=
       match algorithm_ rm with
       | AlgFIFO s => AlgFIFO (recordFrameAccess frame_number s)
       | AlgLRU s => AlgLRU (recordFrameAccess frame_number s)
       | AlgCLOCK s => AlgCLOCK (recordFrameAccess frame_number s)
       end;
     num_frames_ := num_frames_ rm |}.

Definition eviction (frame_number : Z) (rm : ReplacementManager) : ReplacementManager :=
  {| algorithm_ :=
       match algorithm_ rm with
       | AlgFIFO s => AlgFIFO (recordFrameEviction frame_number s)
       | AlgLRU s => AlgLRU (recordFrameEviction frame_number s)
       | AlgCLOCK s => AlgCLOCK (recordFrameEviction frame_number s)
       end;
     num_frames_ := num_frames_ rm |}.

Definition policyName (rm : ReplacementManager) : string :=
  match algorithm_ rm with
  | AlgFIFO s => getPolicyName s
  | AlgLRU s => getPolicyName s
  | AlgCLOCK s => getPolicyName s
  end.

End RM.

(** ** VMM.h: configuration, metrics, events *)

Record VMMConfig := mkVMMConfig {
  total_frames : Z;
  page_size : Z;
  total_pages : Z;
  replacement_policy : ReplacementPolicy;
  enable_ai_predictions : bool;
  ai_predictor_url : string;
}.

Record VMMMetrics := mkVMMMetrics {
  total_accesses : Z;
  page_faults : Z;
  swap_ins : Z;
  swap_outs : Z;
  ai_predictions : Z;
  ai_hits : Z;
}.

(** [static_cast<double>(n)] for a [size_t]: round to nearest, ties to
    even. *)
Definition double_of_size_t (n : Z) : float :=
  SF2Prim (binary_normalize prec emax n 0 false).

Module Metrics.

Definition zero : VMMMetrics :=
  {| total_accesses := 0; page_faults := 0; swap_ins := 0; swap_outs := 0;
     ai_predictions := 0; ai_hits := 0 |}.

(** [VMMMetrics::getPageFaultRate] *)
Definition getPageFaultRate (m : VMMMetrics) : float :=
  if decide (total_accesses m > 0)
  then PrimFloat.div (double_of_size_t (page_faults m))
                     (double_of_size_t (total_accesses m))
  else 0%float.

(** [VMMMetrics::getAIHitRate] *)
Definition getAIHitRate (m : VMMMetrics) : float :=
  if decide (ai_predictions m > 0)
  then PrimFloat.div (double_of_size_t (ai_hits m))
                     (double_of_size_t (ai_predictions m))
  else 0%float.

Definition inc_total_accesses (m : VMMMetrics) : VMMMetrics :=
  {| total_accesses := Int.incr (total_accesses m); page_faults := page_faults m;
     swap_ins := swap_ins m; swap_outs := swap_outs m;
     ai_predictions := ai_predictions m; ai_hits := ai_hits m |}.

Definition inc_page_faults (m : VMMMetrics) : VMMMetrics :=
  {| total_accesses := total_accesses m; page_faults := Int.incr (page_faults m);
     swap_ins := swap_ins m; swap_outs := swap_outs m;
     ai_predictions := ai_predictions m; ai_hits := ai_hits m |}.

Definition inc_swap_ins (m : VMMMetrics) : VMMMetrics :=
  {| total_accesses := total_accesses m; page_faults := page_faults m;
     swap_ins := Int.incr (swap_ins m); swap_outs := swap_outs m;
     ai_predictions := ai_predictions m; ai_hits := ai_hits m |}.

Definition inc_swap_outs (m : VMMMetrics) : VMMMetrics :=
  {| total_accesses := total_accesses m; page_faults := page_faults m;
     swap_ins := swap_ins m; swap_outs := Int.incr (swap_outs m);
     ai_predictions := ai_predictions m; ai_hits := ai_hits m |}.

Definition inc_ai_predictions (m : VMMMetrics) : VMMMetrics :=
  {| total_accesses := total_accesses m; page_faults := page_faults m;
     swap_ins := swap_ins m; swap_outs := swap_outs m;
     ai_predictions := Int.incr (ai_predictions m); ai_hits := ai_hits m |}.

Definition inc_ai_hits (m : VMMMetrics) : VMMMetrics :=
  {| total_accesses := total_accesses m; page_faults := page_faults m;
     swap_ins := swap_ins m; swap_outs := swap_outs m;
     ai_predictions := ai_predictions m; ai_hits := Int.incr (ai_hits m) |}.

End Metrics.

(** [VMMEvent], without its time stamp. *)
Record VMMEvent := mkVMMEvent {
  type : string;
  message : string;
  data : string;
}.

(** ** Text of the event messages *)

(** [std::to_string] on an [int] or a [size_t]. *)
Definition to_string (z : Z) : string := pretty z.

Definition pad6 (z : Z) : string :=
  let s := pretty z in
  String.concat "" (replicate (6 - String.length s) "0") +:+ s.

(** [std::to_string] on a [double]: the ["%f"] format, six decimals, the
    exact binary value rounded to nearest, ties to even. *)
Definition to_string_double (f : float) : string :=
  match Prim2SF f with
  | S754_nan => "nan"    (* the sign of a NaN is not kept *)
  | S754_infinity s => if s then "-inf" else "inf"
  | S754_zero s => if s then "-0.000000" else "0.000000"
  | S754_finite s m e =>
      let num := Z.pos m * 10 ^ 6 * 2 ^ Z.max e 0 in
      let den := 2 ^ Z.max (- e) 0 in
      let q := num `div` den in
      let r := num `mod` den in
      let q := if decide (2 * r < den) then q
               else if decide (den < 2 * r) then q + 1
               else if Z.even q then q else q + 1 in
      (if s then "-" else "") +:+ pretty (q `div` 10 ^ 6) +:+ "."
        +:+ pad6 (q `mod` 10 ^ 6)
  end.

(** ["Predicted {p1, p2, ...}"] *)
Fixpoint prediction_items (first : bool) (predictions : list Z) : string :=
  match predictions with
  | [] => ""
  | p :: rest =>
      (if first then "" else ", ") +:+ to_string p +:+ prediction_items false rest
  end.

Definition prediction_data (predictions : list Z) : string :=
  "Predicted {" +:+ prediction_items true predictions +:+ "}".

(** ** VMM.h: the manager *)

Record VMM := mkVMM {
  config_ : VMMConfig;
  page_table_ : PageTable;
  replacement_manager_ : ReplacementManager;
  metrics_ : VMMMetrics;
  frame_validity_ : list bool;
  frame_to_page_ : list Z;
  frame_modified_ : list bool;
  recent_accesses_ : list Z;
  recent_predictions_ : list Z;
  ai_predictions_made_ : Z;
  ai_prediction_confidence_ : float;
  simulation_running_ : bool;
  event_callback_ : bool;        (* whether a callback is installed *)
  event_log : list VMMEvent;     (* what the callback has received *)
}.

Definition MAX_RECENT_ACCESSES : Z := 100.

(** Field updates. *)
Section Updates.
Variable v : VMM.

Definition with_config (x : VMMConfig) : VMM :=
  mkVMM x (page_table_ v) (replacement_manager_ v) (metrics_ v)
    (frame_validity_ v) (frame_to_page_ v) (frame_modified_ v)
    (recent_accesses_ v) (recent_predictions_ v) (ai_predictions_made_ v)
    (ai_prediction_confidence_ v) (simulation_running_ v) (event_callback_ v)
    (event_log v).

Definition with_page_table (x : PageTable) : VMM :=
  mkVMM (config_ v) x (replacement_manager_ v) (metrics_ v)
    (frame_validity_ v) (frame_to_page_ v) (frame_modified_ v)
    (recent_accesses_ v) (recent_predictions_ v) (ai_predictions_made_ v)
    (ai_prediction_confidence_ v) (simulation_running_ v) (event_callback_ v)
    (event_log v).

Definition with_replacement_manager (x : ReplacementManager) : VMM :=
  mkVMM (config_ v) (page_table_ v) x (metrics_ v)
    (frame_validity_ v) (frame_to_page_ v) (frame_modified_ v)
    (recent_accesses_ v) (recent_predictions_ v) (ai_predictions_made_ v)
    (ai_prediction_confidence_ v) (simulation_running_ v) (event_callback_ v)
    (event_log v).

Definition with_metrics (x : VMMMetrics) : VMM :=
  mkVMM (config_ v) (page_table_ v) (replacement_manager_ v) x
    (frame_validity_ v) (frame_to_page_ v) (frame_modified_ v)
    (recent_accesses_ v) (recent_predictions_ v) (ai_predictions_made_ v)
    (ai_prediction_confidence_ v) (simulation_running_ v) (event_callback_ v)
    (event_log v).

Definition with_frame_validity (x : list bool) : VMM :=
  mkVMM (config_ v) (page_table_ v) (replacement_manager_ v) (metrics_ v)
    x (frame_to_page_ v) (frame_modified_ v)
    (recent_accesses_ v) (recent_predictions_ v) (ai_predictions_made_ v)
    (ai_prediction_confidence_ v) (simulation_running_ v) (event_callback_ v)
    (event_log v).

Definition with_frame_to_page (x : list Z) : VMM :=
  mkVMM (config_ v) (page_table_ v) (replacement_manager_ v) (metrics_ v)
    (frame_validity_ v) x (frame_modified_ v)
    (recent_accesses_ v) (recent_predictions_ v) (ai_predictions_made_ v)
    (ai_prediction_confidence_ v) (simulation_running_ v) (event_callback_ v)
    (event_log v).

Definition with_frame_modified (x : list bool) : VMM :=
  mkVMM (config_ v) (page_table_ v) (replacement_manager_ v) (metrics_ v)
    (frame_validity_ v) (frame_to_page_ v) x
    (recent_accesses_ v) (recent_predictions_ v) (ai_predictions_made_ v)
    (ai_prediction_confidence_ v) (simulation_running_ v) (event_callback_ v)
    (event_log v).

Definition with_recent_accesses (x : list Z) : VMM :=
  mkVMM (config_ v) (page_table_ v) (replacement_manager_ v) (metrics_ v)
    (frame_validity_ v) (frame_to_page_ v) (frame_modified_ v)
    x (recent_predictions_ v) (ai_predictions_made_ v)
    (ai_prediction_confidence_ v) (simulation_running_ v) (event_callback_ v)
    (event_log v).

Definition with_recent_predictions (x : list Z) : VMM :=
  mkVMM (config_ v) (page_table_ v) (replacement_manager_ v) (metrics_ v)
    (frame_validity_ v) (frame_to_page_ v) (frame_modified_ v)
    (recent_accesses_ v) x (ai_predictions_made_ v)
    (ai_prediction_confidence_ v) (simulation_running_ v) (event_callback_ v)
    (event_log v).

Definition with_ai_predictions_made (x : Z) : VMM :=
  mkVMM (config_ v) (page_table_ v) (replacement_manager_ v) (metrics_ v)
    (frame_validity_ v) (frame_to_page_ v) (frame_modified_ v)
    (recent_accesses_ v) (recent_predictions_ v) x
    (ai_prediction_confidence_ v) (simulation_running_ v) (event_callback_ v)
    (event_log v).

Definition with_ai_prediction_confidence (x : float) : VMM :=
  mkVMM (config_ v) (page_table_ v) (replacement_manager_ v) (metrics_ v)
    (frame_validity_ v) (frame_to_page_ v) (frame_modified_ v)
    (recent_accesses_ v) (recent_predictions_ v) (ai_predictions_made_ v)
    x (simulation_running_ v) (event_callback_ v)
    (event_log v).

Definition with_simulation_running (x : bool) : VMM :=
  mkVMM (config_ v) (page_table_ v) (replacement_manager_ v) (metrics_ v)
    (frame_validity_ v) (frame_to_page_ v) (frame_modified_ v)
    (recent_accesses_ v) (recent_predictions_ v) (ai_predictions_made_ v)
    (ai_prediction_confidence_ v) x (event_callback_ v)
    (event_log v).

Definition with_event_callback (x : bool) : VMM :=
  mkVMM (config_ v) (page_table_ v) (replacement_manager_ v) (metrics_ v)
    (frame_validity_ v) (frame_to_page_ v) (frame_modified_ v)
    (recent_accesses_ v) (recent_predictions_ v) (ai_predictions_made_ v)
    (ai_prediction_confidence_ v) (simulation_running_ v) x
    (event_log v).

Definition with_event_log (x : list VMMEvent) : VMM :=
  mkVMM (config_ v) (page_table_ v) (replacement_manager_ v) (metrics_ v)
    (frame_validity_ v) (frame_to_page_ v) (frame_modified_ v)
    (recent_accesses_ v) (recent_predictions_ v) (ai_predictions_made_ v)
    (ai_prediction_confidence_ v) (simulation_running_ v) (event_callback_ v)
    x.

End Updates.

(** ** VMM.cpp *)

(** [std::find] followed by [erase(it)]: the first occurrence goes. *)
Fixpoint erase_first (x : Z) (l : list Z) : list Z :=
  match l with
  | [] => []
  | y :: l => if decide (y = x) then l else y :: erase_first x l
  end.

(** [VMM::VMM(const VMMConfig&)]: the three frame vectors start empty and
    are resized; no callback is installed and the simulation is stopped. *)
Definition VMM_new (config : VMMConfig) : VMM :=
  {| config_ := config;
     page_table_ := PT.new (page_size config) (total_pages config);
     replacement_manager_ := RM.new (replacement_policy config) (total_frames config);
     metrics_ := Metrics.zero;
     frame_validity_ := resize (Z.to_nat (total_frames config)) false [];
     frame_to_page_ := resize (Z.to_nat (total_frames config)) (-1) [];
     frame_modified_ := resize (Z.to_nat (total_frames config)) false [];
     recent_accesses_ := [];
     recent_predictions_ := [];
     ai_predictions_made_ := 0;
     ai_prediction_confidence_ := 0%float;
     simulation_running_ := false;
     event_callback_ := false;
     event_log := [] |}.

Definition emitEvent (type message : string) (v : VMM) : VMM :=
  if event_callback_ v
  then with_event_log v (event_log v ++ [mkVMMEvent type message ""])
  else v.

(** [setEventCallback(callback)]; [installed] tells whether [callback]
    holds a function. *)
Definition setEventCallback (installed : bool) (v : VMM) : VMM :=
  with_event_callback v installed.

Definition swapIn (page_number frame_number : Z) (v : VMM) : VMM :=
  let v := with_metrics v (Metrics.inc_swap_ins (metrics_ v)) in
  emitEvent "SWAP_IN"
    ("Swapped in page " +:+ to_string page_number +:+ " to frame "
       +:+ to_string frame_number) v.

Definition swapOut (page_number frame_number : Z) (v : VMM) : VMM :=
  let v := with_metrics v (Metrics.inc_swap_outs (metrics_ v)) in
  emitEvent "SWAP_OUT"
    ("Swapped out page " +:+ to_string page_number +:+ " from frame "
       +:+ to_string frame_number) v.

(** [for (size_t i = 0; i < frame_validity_.size(); ++i)], entered at [i]. *)
Fixpoint find_free_from (rest : list bool) (i : Z) : Z :=
  match rest with
  | [] => -1
  | occupied :: rest =>
      if negb occupied then Int.to_int i else find_free_from rest (i + 1)
  end.

Definition findFreeFrame (v : VMM) : Z := find_free_from (frame_validity_ v) 0.

Definition allocateFrame (v : VMM) : option (Z * VMM) :=
  let free_frame := findFreeFrame v in
  if decide (free_frame ≠ -1) then
    validity ← vec_store free_frame true (frame_validity_ v);
    dirty ← vec_store free_frame false (frame_modified_ v);
    Some (free_frame, with_frame_modified (with_frame_validity v validity) dirty)
  else Some (-1, v).

Definition deallocateFrame (frame_number : Z) (v : VMM) : option VMM :=
  if decide (0 <= frame_number
             ∧ frame_number < Int.to_int (vec_size (frame_validity_ v))) then
    validity ← vec_store frame_number false (frame_validity_ v);
    pages ← vec_store frame_number (-1) (frame_to_page_ v);
    dirty ← vec_store frame_number false (frame_modified_ v);
    Some (with_frame_modified
            (with_frame_to_page (with_frame_validity v validity) pages) dirty)
  else Some v.

Definition updateRecentAccesses (page_number : Z) (v : VMM) : VMM :=
  let accesses := recent_accesses_ v ++ [page_number] in
  with_recent_accesses v
    (if decide (vec_size accesses > MAX_RECENT_ACCESSES) then drop 1 accesses
     else accesses).

(** [x % config_.total_pages], pushed into a [std::vector<int>]. *)
Definition mod_total_pages (v : VMM) (x : Z) : option Z :=
  if decide (total_pages (config_ v) = 0) then None
  else Some (Int.mod_size_t x (total_pages (config_ v))).

(** The three pattern rules of [requestAIPredictions]: the candidates and
    the confidence they come with. *)
Definition pattern_predictions (v : VMM) (last_page second_last third_last : Z) :
    option (list Z * float) :=
  if decide (last_page = Int.add second_last 1
             ∧ second_last = Int.add third_last 1) then
    (* Pattern 1: Sequential access (high confidence) *)
    a ← mod_total_pages v (Int.add last_page 1);
    b ← mod_total_pages v (Int.add last_page 2);
    Some ([a; b], 0.85%float)
  else if decide (Int.sub last_page second_last = Int.sub second_last third_last) then
    (* Pattern 2: Strided access (medium confidence) *)
    let stride := Int.sub last_page second_last in
    a ← mod_total_pages v (Int.add last_page stride);
    b ← mod_total_pages v (Int.add last_page (Int.mul 2 stride));
    Some ([a; b], 0.70%float)
  else
    (* Pattern 3: Locality-based (medium confidence) *)
    let base := Int.mul (Int.div last_page 10) 10 in
    a ← mod_total_pages v
          (Int.add base (Int.rem (Int.add (Int.rem last_page 10) 1) 10));
    b ← mod_total_pages v
          (Int.add base (Int.rem (Int.add (Int.rem last_page 10) 2) 10));
    Some ([a; b], 0.60%float).

(** The body of [if (recent_accesses_.size() >= 3)]. *)
Definition simulate_prediction (v : VMM) : option (list Z * VMM) :=
  let accesses := recent_accesses_ v in
  if decide (3 <= vec_size accesses) then
    last_page ← vec_at accesses (vec_size accesses - 1);
    second_last ← vec_at accesses (vec_size accesses - 2);
    third_last ← vec_at accesses (vec_size accesses - 3);
    '(predictions, confidence) ←
      pattern_predictions v last_page second_last third_last;
    let v := with_ai_prediction_confidence v confidence in
    if decide (vec_size predictions < 3) then
      c ← mod_total_pages v (Int.add last_page 3);
      Some (predictions ++ [c], v)
    else Some (predictions, v)
  else Some ([], v).

(** The body of [if (!predictions.empty())]: update AI metrics, store the
    predictions for hit tracking, report them. *)
Definition record_predictions (predictions : list Z) (v : VMM) : VMM :=
  let v := with_ai_predictions_made v (Int.incr (ai_predictions_made_ v)) in
  let v := with_metrics v (Metrics.inc_ai_predictions (metrics_ v)) in
  let stored := recent_predictions_ v ++ predictions in
  let v := with_recent_predictions v
             (if decide (vec_size stored > 50)
              then drop (Z.to_nat (vec_size stored - 50)) stored
              else stored) in
  let v := emitEvent "AI" (prediction_data predictions) v in
  emitEvent "AI"
    ("Generated " +:+ to_string (vec_size predictions)
       +:+ " predictions (confidence: "
       +:+ to_string_double (ai_prediction_confidence_ v) +:+ ")") v.

Definition requestAIPredictions (v : VMM) : option (list Z * VMM) :=
  if negb (enable_ai_predictions (config_ v))
     || bool_decide (recent_accesses_ v = []) then Some ([], v)
  else
    '(predictions, v) ← simulate_prediction v;
    if bool_decide (predictions ≠ [])
    then Some (predictions, record_predictions predictions v)
    else Some (predictions, v).

(** One iteration of the prefetch loop of [accessPage]. *)
Definition prefetch_one (page_number : Z) (v : VMM) (predicted_page : Z) : VMM :=
  if bool_decide (predicted_page ≠ page_number)
     && negb (PT.isPageValid (page_table_ v) predicted_page) then
    let free_frame := findFreeFrame v in
    if decide (free_frame ≠ -1) then
      let v := swapIn predicted_page free_frame v in
      emitEvent "AI"
        ("Prefetched page " +:+ to_string predicted_page
           +:+ " based on AI prediction") v
    else v
  else v.

(** [for (int predicted_page : predictions)] *)
Definition prefetch (page_number : Z) (predictions : list Z) (v : VMM) : VMM :=
  foldl (prefetch_one page_number) v predictions.

(** "Load the new page": the tail of [handlePageFault], once a frame has
    been found. *)
Definition load_page (page_number : Z) (is_write : bool) (frame_number : Z)
    (v : VMM) : option VMM :=
  let v := swapIn page_number frame_number v in
  let v := with_page_table v (PT.setPageValid page_number true (page_table_ v)) in
  let v := with_page_table v
             (PT.setFrameNumber page_number frame_number (page_table_ v)) in
  let v := with_page_table v
             (PT.recordPageAccess page_number (total_accesses (metrics_ v))
                (page_table_ v)) in
  v ← (if is_write then
         let v := with_page_table v
                    (PT.setPageModified page_number true (page_table_ v)) in
         dirty ← vec_store frame_number true (frame_modified_ v);
         Some (with_frame_modified v dirty)
       else Some v);
  pages ← vec_store frame_number page_number (frame_to_page_ v);
  let v := with_frame_to_page v pages in
  Some (with_replacement_manager v
          (RM.access frame_number (replacement_manager_ v))).

(** "Evict the victim page": the page the victim frame holds, if any,
    becomes invalid and is written back when the frame is dirty. *)
Definition evict_victim (frame_number : Z) (v : VMM) : option VMM :=
  victim_page ← vec_at (frame_to_page_ v) frame_number;
  if decide (victim_page ≠ -1) then
    let v := with_page_table v (PT.setPageValid victim_page false (page_table_ v)) in
    dirty ← vec_at (frame_modified_ v) frame_number;
    let v := if dirty : bool then swapOut victim_page frame_number v else v in
    Some (emitEvent "EVICT"
            ("Evicted page " +:+ to_string victim_page +:+ " from frame "
               +:+ to_string frame_number) v)
  else Some v.

Definition handlePageFault (page_number : Z) (is_write : bool) (v : VMM) :
    option VMM :=
  let v := with_metrics v (Metrics.inc_page_faults (metrics_ v)) in
  let v := emitEvent "FAULT"
             ("Page fault for page " +:+ to_string page_number) v in
  '(frame_number, v) ← allocateFrame v;
  if decide (frame_number = -1) then
    (* No free frames, need to evict *)
    '(frame_number, manager) ←
      RM.select (frame_validity_ v) (page_table_ v) (replacement_manager_ v);
    let v := with_replacement_manager v manager in
    if decide (frame_number = -1) then
      Some (emitEvent "ERROR" "No victim frame found" v)
    else
      v ← evict_victim frame_number v;
      load_page page_number is_write frame_number v
  else load_page page_number is_write frame_number v.

(** "Check if this was a successful AI prediction" *)
Definition attribute_hit (page_number : Z) (v : VMM) : VMM :=
  if enable_ai_predictions (config_ v)
     && bool_decide (recent_predictions_ v ≠ []) then
    if decide (page_number ∈ recent_predictions_ v) then
      let v := with_metrics v (Metrics.inc_ai_hits (metrics_ v)) in
      let v := emitEvent "AI"
                 ("AI HIT: Page " +:+ to_string page_number
                    +:+ " was correctly predicted!") v in
      with_recent_predictions v (erase_first page_number (recent_predictions_ v))
    else v
  else v.

(** The branch of [accessPage] taken when the page is in memory. *)
Definition serve_hit (page_number : Z) (is_write : bool) (v : VMM) : option VMM :=
  let frame_number := PT.getFrameNumber (page_table_ v) page_number in
  let v := with_page_table v
             (PT.recordPageAccess page_number (total_accesses (metrics_ v))
                (page_table_ v)) in
  let v := with_replacement_manager v
             (RM.access frame_number (replacement_manager_ v)) in
  let v := attribute_hit page_number v in
  v ← (if is_write then
         let v := with_page_table v
                    (PT.setPageModified page_number true (page_table_ v)) in
         dirty ← vec_store frame_number true (frame_modified_ v);
         Some (with_frame_modified v dirty)
       else Some v);
  Some (emitEvent "ACCESS"
          ("Page " +:+ to_string page_number
             +:+ (if is_write then " (write)" else " (read)")) v).

(** [VMM::accessPage]: the returned flag and the state afterwards; [None]
    where the source has no defined behaviour. *)
Definition accessPage (page_number : Z) (is_write : bool) (v : VMM) :
    option (bool * VMM) :=
  if negb (simulation_running_ v) then Some (false, v)
  else
    let v := with_metrics v (Metrics.inc_total_accesses (metrics_ v)) in
    let v := updateRecentAccesses page_number v in
    (* Request AI predictions for prefetching *)
    v ← (if enable_ai_predictions (config_ v)
            && bool_decide (3 <= vec_size (recent_accesses_ v)) then
           '(predictions, v) ← requestAIPredictions v;
           Some (prefetch page_number predictions v)
         else Some v);
    (* Check if page is in memory *)
    if PT.isPageValid (page_table_ v) page_number then
      v ← serve_hit page_number is_write v;
      Some (true, v)
    else
      (* Page fault occurred *)
      v ← handlePageFault page_number is_write v;
      Some (true, v).

Definition startSimulation (v : VMM) : VMM :=
  emitEvent "SIMULATION" "Simulation started" (with_simulation_running v true).

Definition stopSimulation (v : VMM) : VMM :=
  emitEvent "SIMULATION" "Simulation stopped" (with_simulation_running v false).

(** [VMM::setConfig]: [std::vector::resize] keeps the elements that are
    already there and gives the fill value to new ones only. *)
Definition setConfig (config : VMMConfig) (v : VMM) : VMM :=
  let v := with_config v config in
  let v := with_page_table v (PT.new (page_size config) (total_pages config)) in
  let v := with_replacement_manager v
             (RM.new (replacement_policy config) (total_frames config)) in
  let v := with_frame_validity v
             (resize (Z.to_nat (total_frames config)) false (frame_validity_ v)) in
  let v := with_frame_to_page v
             (resize (Z.to_nat (total_frames config)) (-1) (frame_to_page_ v)) in
  with_frame_modified v
    (resize (Z.to_nat (total_frames config)) false (frame_modified_ v)).

Definition getTotalAccesses (v : VMM) : Z := total_accesses (metrics_ v).
Definition getPageFaults (v : VMM) : Z := page_faults (metrics_ v).
Definition getSwapIns (v : VMM) : Z := swap_ins (metrics_ v).
Definition getSwapOuts (v : VMM) : Z := swap_outs (metrics_ v).
Definition getAIPredictions (v : VMM) : Z := ai_predictions (metrics_ v).
Definition getAIHits (v : VMM) : Z := ai_hits (metrics_ v).

(** [VMM::getPageFaultRate] *)
Definition getPageFaultRate (v : VMM) : float :=
  let total := total_accesses (metrics_ v) in
  if decide (total > 0)
  then PrimFloat.div (double_of_size_t (page_faults (metrics_ v)))
                     (double_of_size_t total)
  else 0%float.

(** [VMM::getAIHitRate] *)
Definition getAIHitRate (v : VMM) : float :=
  let predictions := ai_predictions (metrics_ v) in
  if decide (predictions > 0)
  then PrimFloat.div (double_of_size_t (ai_hits (metrics_ v)))
                     (double_of_size_t predictions)
  else 0%float.

Definition getAIPredictionConfidence (v : VMM) : float :=
  ai_prediction_confidence_ v.

Definition resetMetrics (v : VMM) : VMM := with_metrics v Metrics.zero.

Definition getRecentAccesses (v : VMM) : list Z := recent_accesses_ v.

(** One iteration of the loop of [setAIPredictions]. *)
Definition install_prediction (v : VMM) (page : Z) : VMM :=
  if negb (PT.isPageValid (page_table_ v) page) then
    let free_frame := findFreeFrame v in
    if decide (free_frame ≠ -1) then
      let v := swapIn page free_frame v in
      let v := with_metrics v (Metrics.inc_ai_hits (metrics_ v)) in
      emitEvent "AI" ("Prefetched page " +:+ to_string page) v
    else v
  else v.

Definition setAIPredictions (predicted_pages : list Z) (v : VMM) : VMM :=
  let v := with_metrics v (Metrics.inc_ai_predictions (metrics_ v)) in
  let v := emitEvent "AI"
             ("Received " +:+ to_string (vec_size predicted_pages)
                +:+ " predictions") v in
  foldl install_prediction v predicted_pages.

Definition getUsedFrameCount (v : VMM) : Z := count_bool true (frame_validity_ v).
Definition getValidPages (v : VMM) : list Z := PT.getValidPages (page_table_ v).

(** ** Runs *)

(** A sequence of accesses [(page, is_write)], served one after the
    other. *)
Fixpoint run (accesses : list (Z * bool)) (v : VMM) : option VMM :=
  match accesses with
  | [] => Some v
  | (page_number, is_write) :: rest =>
      '(_, v) ← accessPage page_number is_write v;
      run rest v
  end.

Definition reads (pages : list Z) : list (Z * bool) := (λ p, (p, false)) <$> pages.
Definition writes (pages : list Z) : list (Z * bool) := (λ p, (p, true)) <$> pages.

(** A manager constructed from [config] and started, with or without an
    event callback. *)
Definition fresh (callback : bool) (config : VMMConfig) : VMM :=
  startSimulation (setEventCallback callback (VMM_new config)).

Definition started (config : VMMConfig) : VMM := fresh true config.

Definition config_of (frames pages : Z) (policy : ReplacementPolicy) (ai : bool) :
    VMMConfig :=
  {| total_frames := frames; page_size := 4096; total_pages := pages;
     replacement_policy := policy; enable_ai_predictions := ai;
     ai_predictor_url := "http://localhost:5000/predict" |}.

(** ** WorkloadGen.h / WorkloadGen.cpp

    The generator with its control flow and its two deterministic access
    patterns.  The random engine is not embedded: each call of
    [generateNextAccess] is given, as a [Draw], the sample
    [prob_dist_(rng_)] that decides between read and write and, for the
    workload types RANDOM, ZIPF and WEBSERVER, the page their generator
    returns ([working_set_], which only WEBSERVER uses, is left out).
    The two callbacks act on an environment [E] of the caller; the
    completion callback may call back into the generator, as the one of
    [main.cpp] does. *)

Module Workload.

Inductive WorkloadType := SEQUENTIAL | RANDOM | STRIDED | ZIPF | WEBSERVER.

Record WorkloadConfig := mkWorkloadConfig {
  type : WorkloadType;
  total_requests : Z;       (* size_t *)
  page_range : Z;           (* size_t *)
  stride : Z;               (* int *)
  zipf_alpha : float;
  locality_factor : float;
  working_set_size : Z;     (* size_t *)
}.

Record WorkloadGenerator := mkWorkloadGenerator {
  config_ : WorkloadConfig;
  running_ : bool;
  current_position_ : Z;    (* size_t *)
}.

Record Draw := mkDraw {
  prob : float;             (* prob_dist_(rng_), drawn first *)
  random_page : Z;          (* the result of a randomised generator *)
}.

(** [WorkloadGenerator(config)]: not running, at position 0. *)
Definition new (config : WorkloadConfig) : WorkloadGenerator :=
  {| config_ := config; running_ := false; current_position_ := 0 |}.

Definition setConfig (config : WorkloadConfig) (g : WorkloadGenerator) :
    WorkloadGenerator :=
  {| config_ := config; running_ := running_ g;
     current_position_ := current_position_ g |}.

Definition start (g : WorkloadGenerator) : WorkloadGenerator :=
  {| config_ := config_ g; running_ := true; current_position_ := 0 |}.

Definition stop (g : WorkloadGenerator) : WorkloadGenerator :=
  {| config_ := config_ g; running_ := false;
     current_position_ := current_position_ g |}.

Definition isRunning (g : WorkloadGenerator) : bool := running_ g.

Definition reset (g : WorkloadGenerator) : WorkloadGenerator :=
  {| config_ := config_ g; running_ := running_ g; current_position_ := 0 |}.

(** [static_cast<int>(current_position_ % config_.page_range)] *)
Definition generateSequentialAccess (g : WorkloadGenerator) : option Z :=
  if decide (page_range (config_ g) = 0) then None
  else Some (Int.to_int (current_position_ g `mod` page_range (config_ g))).

(** [static_cast<int>((current_position_ * config_.stride) %
    config_.page_range)]: [stride] is converted to [size_t] and the
    product wraps at 2^64. *)
Definition generateStridedAccess (g : WorkloadGenerator) : option Z :=
  if decide (page_range (config_ g) = 0) then None
  else Some (Int.to_int
               (Int.to_size_t (current_position_ g
                               * Int.to_size_t (stride (config_ g)))
                `mod` page_range (config_ g))).

(** The [switch (config_.type)] of [generateNextAccess] and
    [generateBatch]. *)
Definition generate (random_page : Z) (g : WorkloadGenerator) : option Z :=
  match type (config_ g) with
  | SEQUENTIAL => generateSequentialAccess g
  | STRIDED => generateStridedAccess g
  | RANDOM | ZIPF | WEBSERVER => Some random_page
  end.

Section Callbacks.
Context {E : Type}.
(** [access_callback_] and [completion_callback_], when installed. *)
Variable access_callback_ : option (Z → bool → E → option E).
Variable completion_callback_ :
  option (WorkloadGenerator → E → option (WorkloadGenerator * E)).

Definition generateNextAccess (draw : Draw) (g : WorkloadGenerator) (env : E) :
    option (WorkloadGenerator * E) :=
  if negb (running_ g) then Some (g, env)
  else
    let is_write := PrimFloat.ltb (prob draw) 0.3%float in
    page ← generate (random_page draw) g;
    env ← match access_callback_ with
          | Some callback =>
              if decide (page >= 0) then callback page is_write env else Some env
          | None => Some env
          end;
    let g := {| config_ := config_ g; running_ := running_ g;
                current_position_ := Int.incr (current_position_ g) |} in
    if decide (current_position_ g >= total_requests (config_ g)) then
      let g := stop g in
      match completion_callback_ with
      | Some callback => callback g env
      | None => Some (g, env)
      end
    else Some (g, env).

(** The loop of the simulation thread of [main.cpp], for as many
    iterations as there are draws:
    [while (... && workload_gen_->isRunning()) generateNextAccess()]. *)
Fixpoint generate_all (draws : list Draw) (g : WorkloadGenerator) (env : E) :
    option (WorkloadGenerator * E) :=
  match draws with
  | [] => Some (g, env)
  | draw :: draws =>
      if isRunning g then
        '(g, env) ← generateNextAccess draw g env;
        generate_all draws g env
      else Some (g, env)
  end.

End Callbacks.

(** [generateBatch(batch_size)]; [random_page i] is the result of the
    randomised generator in iteration [i].  Pages are pushed in the order
    of the iterations, negative ones are dropped. *)
Definition generateBatch (random_page : Z → Z) (batch_size : Z)
    (g : WorkloadGenerator) : option (list Z) :=
  pages ← mapM (λ i, generate (random_page i) g) (seqZ 0 batch_size);
  Some (filter (λ page, page >= 0) pages).

End Workload.

(** ** Server.cpp: URL coding

    A [std::string] is a [string] of 8-bit characters.  [char] is
    signed, as on x86-64.  A function is [None] where the source throws
    ([std::stoi] without a digit to convert) or has undefined behaviour
    ([std::isalnum] on a negative [char] other than [EOF]). *)

Module Server.
Import Stdlib.Strings.Ascii.

(** [static_cast<unsigned char>(c)] *)
Definition char_code (c : ascii) : Z := Z.of_N (N_of_ascii c).

(** [static_cast<char>(n)] *)
Definition char_of_int (n : Z) : ascii := ascii_of_N (Z.to_N (n `mod` 256)).

(** [std::isalnum(c)] in the "C" locale, the argument being the [char]
    converted to [int]: codes 128 to 254 arrive as negative values other
    than [EOF = -1]. *)
Definition isalnum (c : ascii) : option bool :=
  let n := char_code c in
  if decide (n < 128) then
    Some (bool_decide (48 <= n <= 57) || bool_decide (65 <= n <= 90)
          || bool_decide (97 <= n <= 122))
  else if decide (n = 255) then Some false
  else None.

(** [std::isspace] as [strtol] applies it, in the "C" locale. *)
Definition isspace (c : ascii) : bool :=
  bool_decide (char_code c = 32) || bool_decide (9 <= char_code c <= 13).

(** The value of a digit in base 16. *)
Definition digit_value (c : ascii) : option Z :=
  let n := char_code c in
  if decide (48 <= n <= 57) then Some (n - 48)
  else if decide (97 <= n <= 102) then Some (n - 87)
  else if decide (65 <= n <= 70) then Some (n - 55)
  else None.

Fixpoint skip_spaces (s : string) : string :=
  match s with
  | String c rest => if isspace c then skip_spaces rest else s
  | EmptyString => s
  end.

(** The longest run of digits at the start of [s], accumulated on [acc];
    [None] when [s] does not start with a digit and none was [seen]. *)
Fixpoint convert_digits (s : string) (acc : Z) (seen : bool) : option Z :=
  match s with
  | String c rest =>
      match digit_value c with
      | Some d => convert_digits rest (16 * acc + d) true
      | None => if seen then Some acc else None
      end
  | EmptyString => if seen then Some acc else None
  end.

(** [std::stoi(s, nullptr, 16)]: white space, an optional sign, an
    optional [0x] or [0X] in front of a digit, then digits.  It throws
    [std::invalid_argument] when there is no digit to convert and
    [std::out_of_range] when the value is not an [int]. *)
Definition stoi (s : string) : option Z :=
  let s := skip_spaces s in
  let '(negative, s) :=
    match s with
    | String "-"%char rest => (true, rest)
    | String "+"%char rest => (false, rest)
    | _ => (false, s)
    end in
  let s :=
    match s with
    | String "0"%char (String x (String d rest)) =>
        if (bool_decide (x = "x"%char) || bool_decide (x = "X"%char))
           && bool_decide (is_Some (digit_value d))
        then String d rest else s
    | _ => s
    end in
  n ← convert_digits s 0 false;
  let n := if negative : bool then - n else n in
  if decide (- Int.int_half <= n < Int.int_half) then Some n else None.

(** [SimpleHTTPServer::urlDecode]: [i + 2 < str.length()] holds when two
    characters follow [str[i]]. *)
Fixpoint urlDecode (str : string) : option string :=
  match str with
  | EmptyString => Some EmptyString
  | String c rest =>
      match rest with
      | String a (String b rest') =>
          if bool_decide (c = "%"%char) then
            hex ← stoi (String a (String b EmptyString));
            result ← urlDecode rest';
            Some (String (char_of_int hex) result)
          else
            result ← urlDecode rest;
            Some (String (if bool_decide (c = "+"%char) then " "%char else c) result)
      | _ =>
          result ← urlDecode rest;
          Some (String (if bool_decide (c = "+"%char) then " "%char else c) result)
      end
  end.

(** A digit as [std::hex] prints it. *)
Definition hex_digit (d : Z) : ascii :=
  if decide (d < 10) then char_of_int (48 + d) else char_of_int (87 + d).

(** [escaped << std::setw(2) << n] with fill character ['0'] and
    [std::hex], for the value [n] of an [unsigned char]. *)
Definition hex_byte (n : Z) : string :=
  String (hex_digit (n `div` 16)) (String (hex_digit (n `mod` 16)) EmptyString).

(** [SimpleHTTPServer::urlEncode] *)
Fixpoint urlEncode (str : string) : option string :=
  match str with
  | EmptyString => Some EmptyString
  | String c rest =>
      alnum ← isalnum c;
      escaped ← urlEncode rest;
      if alnum || bool_decide (c = "-"%char) || bool_decide (c = "_"%char)
         || bool_decide (c = "."%char) || bool_decide (c = "~"%char)
      then Some (String c escaped)
      else Some (String "%"%char (hex_byte (char_code c) +:+ escaped))
  end.

End Server.

(** ** main.cpp: how the application wires generator and manager *)

(** The access callback of [setupEventHandlers]:
    [vmm_->accessPage(page, is_write)], the result being dropped. *)
Definition access_handler (page : Z) (is_write : bool) (v : VMM) : option VMM :=
  snd <$> accessPage page is_write v.

(** The completion callback of [setupEventHandlers]:
    [workload_gen_->reset(); workload_gen_->start()]. *)
Definition completion_handler {E} (g : Workload.WorkloadGenerator) (env : E) :
    option (Workload.WorkloadGenerator * E) :=
  Some (Workload.start (Workload.reset g), env).

(** The class [VMMSimulator] of [main.cpp]: the manager, the generator
    and the flag of the simulation thread.  The HTTP server is left out;
    a request handler is one atomic step, and so is one iteration of the
    simulation thread. *)
Module Simulator.

Record VMMSimulator := mkVMMSimulator {
  vmm_ : VMM;
  workload_gen_ : Workload.WorkloadGenerator;
  simulation_running_ : bool;
  vmm_config_ : VMMConfig;
  workload_config_ : Workload.WorkloadConfig;
}.

(** [VMMSimulator()]: default configurations, then [setupEventHandlers]. *)
Definition new : VMMSimulator :=
  let vmm_config :=
    {| total_frames := 256; page_size := 4096; total_pages := 1024;
       replacement_policy := CLOCK; enable_ai_predictions := true;
       ai_predictor_url := "http://localhost:5001/predict" |} in
  let workload_config :=
    {| Workload.type := Workload.RANDOM; Workload.total_requests := 1000;
       Workload.page_range := 1000; Workload.stride := 1;
       Workload.zipf_alpha := 1%float; Workload.locality_factor := 0.8%float;
       Workload.working_set_size := 100 |} in
  {| vmm_ := setEventCallback true (VMM_new vmm_config);
     workload_gen_ := Workload.new workload_config;
     simulation_running_ := false;
     vmm_config_ := vmm_config;
     workload_config_ := workload_config |}.

(** [start()], the HTTP server having started: [vmm_->startSimulation()]. *)
Definition start (a : VMMSimulator) : VMMSimulator :=
  {| vmm_ := startSimulation (vmm_ a);
     workload_gen_ := workload_gen_ a;
     simulation_running_ := simulation_running_ a;
     vmm_config_ := vmm_config_ a;
     workload_config_ := workload_config_ a |}.

(** [startSimulation()]: the generator is started and the simulation
    thread created. *)
Definition startSimulation (a : VMMSimulator) : VMMSimulator :=
  if simulation_running_ a then a
  else {| vmm_ := vmm_ a;
          workload_gen_ := Workload.start (workload_gen_ a);
          simulation_running_ := true;
          vmm_config_ := vmm_config_ a;
          workload_config_ := workload_config_ a |}.

(** [stopSimulation()]; the simulation thread is joined. *)
Definition stopSimulation (a : VMMSimulator) : VMMSimulator :=
  if simulation_running_ a then
    {| vmm_ := stopSimulation (vmm_ a);
       workload_gen_ := Workload.stop (workload_gen_ a);
       simulation_running_ := false;
       vmm_config_ := vmm_config_ a;
       workload_config_ := workload_config_ a |}
  else a.

(** [handleStartSimulation], from the point where [mode] and [workload]
    have been read from the request body. *)
Definition handleStartSimulation (mode workload : string) (a : VMMSimulator) :
    VMMSimulator :=
  let vmm_config :=
    {| total_frames := total_frames (vmm_config_ a);
       page_size := page_size (vmm_config_ a);
       total_pages := total_pages (vmm_config_ a);
       replacement_policy := replacement_policy (vmm_config_ a);
       enable_ai_predictions := negb (bool_decide (mode = "ai_off"));
       ai_predictor_url := ai_predictor_url (vmm_config_ a) |} in
  let workload_type :=
    if bool_decide (workload = "sequential") then Workload.SEQUENTIAL
    else if bool_decide (workload = "strided") then Workload.STRIDED
    else if bool_decide (workload = "db_like") then Workload.ZIPF
    else Workload.RANDOM in
  let workload_config :=
    {| Workload.type := workload_type;
       Workload.total_requests := Workload.total_requests (workload_config_ a);
       Workload.page_range := Workload.page_range (workload_config_ a);
       Workload.stride := Workload.stride (workload_config_ a);
       Workload.zipf_alpha := Workload.zipf_alpha (workload_config_ a);
       Workload.locality_factor := Workload.locality_factor (workload_config_ a);
       Workload.working_set_size := Workload.working_set_size (workload_config_ a) |} in
  startSimulation
    {| vmm_ := setConfig vmm_config (vmm_ a);
       workload_gen_ := Workload.setConfig workload_config (workload_gen_ a);
       simulation_running_ := simulation_running_ a;
       vmm_config_ := vmm_config;
       workload_config_ := workload_config |}.

Definition handleStopSimulation (a : VMMSimulator) : VMMSimulator :=
  stopSimulation a.

(** One evaluation of the loop of the simulation thread:
    [while (simulation_running_ && workload_gen_->isRunning())
       workload_gen_->generateNextAccess();] *)
Definition thread_iteration (draw : Workload.Draw) (a : VMMSimulator) :
    option VMMSimulator :=
  if simulation_running_ a && Workload.isRunning (workload_gen_ a) then
    '(g, v) ← Workload.generateNextAccess (Some access_handler)
                (Some completion_handler) draw (workload_gen_ a) (vmm_ a);
    Some {| vmm_ := v; workload_gen_ := g;
            simulation_running_ := simulation_running_ a;
            vmm_config_ := vmm_config_ a;
            workload_config_ := workload_config_ a |}
  else Some a.

Fixpoint thread (draws : list Workload.Draw) (a : VMMSimulator) :
    option VMMSimulator :=
  match draws with
  | [] => Some a
  | draw :: draws => a ← thread_iteration draw a; thread draws a
  end.

End Simulator.

(** * Well-formed states *)

(** Configurations the simulator is run with: both sizes positive, the
    frame indices representable in an [int], the page count in a
    [size_t]. *)
Definition config_ok (c : VMMConfig) : Prop :=
  0 < total_frames c < Int.int_half ∧ 0 < total_pages c < Int.size_t_modulus.

(** Every valid page of the table names a frame below [F]. *)
Definition resident_ok (F : Z) (pt : PageTable) : Prop :=
  ∀ p e, pages_ pt !! p = Some e → valid e = true → 0 <= frame_number e < F.

(** The state of a CLOCK policy for [F] frames. *)
Definition clock_ok (F : Z) (s : CLOCKReplacement.t) : Prop :=
  vec_size (CLOCKReplacement.reference_bits_ s) = F
  ∧ 0 <= CLOCKReplacement.clock_hand_ s < F.

(** What a replacement algorithm for [F] frames may hold. *)
Definition alg_wf (F : Z) (a : Algorithm) : Prop :=
  match a with
  | AlgFIFO s => Forall (λ f, 0 <= f < F) (FIFOReplacement.fifo_queue_ s)
  | AlgLRU s => vec_size (LRUReplacement.last_access_times_ s) = F
  | AlgCLOCK s => clock_ok F s
  end.

(** The states a manager is in between two operations: the three frame
    vectors and the policy are sized by the configuration, and resident
    pages name frames that exist. *)
Record wf (v : VMM) : Prop := mk_wf {
  wf_config : config_ok (config_ v);
  wf_validity : vec_size (frame_validity_ v) = total_frames (config_ v);
  wf_to_page : vec_size (frame_to_page_ v) = total_frames (config_ v);
  wf_modified : vec_size (frame_modified_ v) = total_frames (config_ v);
  wf_resident : resident_ok (total_frames (config_ v)) (page_table_ v);
  wf_algorithm : alg_wf (total_frames (config_ v))
                   (algorithm_ (replacement_manager_ v));
}.

(** ** The CLOCK sweep *)

(** Frame [f] is occupied. *)
Definition occupied (frame_validity : list bool) (f : Z) : Prop :=
  vec_at frame_validity f = Some true.

(** The reference bit of frame [f] is clear. *)
Definition unreferenced (s : CLOCKReplacement.t) (f : Z) : Prop :=
  vec_at (CLOCKReplacement.reference_bits_ s) f = Some false.

(** Where the hand goes from [h]. *)
Definition next_hand (F h : Z) : Z := if decide (h + 1 = F) then 0 else h + 1.

(** The number of iterations a sweep that stands at [hand] still has to
    make before it is back at [start], among [F] frames. *)
Definition to_go (F start hand : Z) : Z :=
  if decide (hand < start) then start - hand else F - hand + start.

(** [j] is visited by a sweep that stands at [h], before it is back at
    [start]. *)
Definition ahead (F start h j : Z) : Prop :=
  0 <= j < F ∧ to_go F start j <= to_go F start h.

(** * Effects of an operation *)

(** The only [ERROR] event is the one of [handlePageFault]. *)
Definition benign (e : VMMEvent) : Prop :=
  type e = "ERROR" → message e = "No victim frame found".

Definition quiet (e : VMMEvent) : Prop := type e ≠ "ERROR".

(** [v'] has received the events of [v] and then some more, all of them
    in [P]. *)
Definition log_grows (P : VMMEvent → Prop) (v v' : VMM) : Prop :=
  ∃ events, event_log v' = event_log v ++ events ∧ Forall P events.

Definition same_control (v v' : VMM) : Prop :=
  config_ v' = config_ v
  ∧ simulation_running_ v' = simulation_running_ v
  ∧ event_callback_ v' = event_callback_ v.

(** Page table, replacement policy and frame vectors are those of [v]. *)
Definition same_memory (v v' : VMM) : Prop :=
  page_table_ v' = page_table_ v
  ∧ replacement_manager_ v' = replacement_manager_ v
  ∧ frame_validity_ v' = frame_validity_ v
  ∧ frame_to_page_ v' = frame_to_page_ v
  ∧ frame_modified_ v' = frame_modified_ v.

(** [k] more swap-ins; accesses, faults and swap-outs as they were. *)
Definition more_swap_ins (k : nat) (m m' : VMMMetrics) : Prop :=
  total_accesses m' = total_accesses m
  ∧ page_faults m' = page_faults m
  ∧ swap_ins m' = Nat.iter k Int.incr (swap_ins m)
  ∧ swap_outs m' = swap_outs m.

(** How a running manager serves one access to [page], from [v] to [v'],
    with [k] prefetches counted on the way. *)
Inductive served (page : Z) (v v' : VMM) (k : nat) : Prop :=
  | served_hit :
      PT.isPageValid (page_table_ v) page = true →
      frame_validity_ v' = frame_validity_ v →
      page_faults (metrics_ v') = page_faults (metrics_ v) →
      swap_ins (metrics_ v') = Nat.iter k Int.incr (swap_ins (metrics_ v)) →
      swap_outs (metrics_ v') = swap_outs (metrics_ v) →
      log_grows quiet v v' →
      PT.isPageValid (page_table_ v') page = true →
      served page v v' k
  | served_free_frame :
      PT.isPageValid (page_table_ v) page = false →
      findFreeFrame v ≠ -1 →
      count_bool true (frame_validity_ v')
        = count_bool true (frame_validity_ v) + 1 →
      page_faults (metrics_ v') = Int.incr (page_faults (metrics_ v)) →
      swap_ins (metrics_ v') = Nat.iter (S k) Int.incr (swap_ins (metrics_ v)) →
      swap_outs (metrics_ v') = swap_outs (metrics_ v) →
      log_grows quiet v v' →
      PT.isPageValid (page_table_ v') page = true →
      served page v v' k
  | served_victim :
      PT.isPageValid (page_table_ v) page = false →
      count_bool true (frame_validity_ v) = total_frames (config_ v) →
      frame_validity_ v' = frame_validity_ v →
      page_faults (metrics_ v') = Int.incr (page_faults (metrics_ v)) →
      swap_ins (metrics_ v') = Nat.iter (S k) Int.incr (swap_ins (metrics_ v)) →
      swap_outs (metrics_ v') = swap_outs (metrics_ v)
        ∨ swap_outs (metrics_ v') = Int.incr (swap_outs (metrics_ v)) →
      log_grows quiet v v' →
      PT.isPageValid (page_table_ v') page = true →
      served page v v' k
  | served_no_victim :
      PT.isPageValid (page_table_ v) page = false →
      count_bool true (frame_validity_ v) = total_frames (config_ v) →
      frame_validity_ v' = frame_validity_ v →
      page_faults (metrics_ v') = Int.incr (page_faults (metrics_ v)) →
      swap_ins (metrics_ v') = Nat.iter k Int.incr (swap_ins (metrics_ v)) →
      swap_outs (metrics_ v') = swap_outs (metrics_ v) →
      log_grows benign v v' →
      page_table_ v' = page_table_ v →
      served page v v' k.

(** * Accounting *)

(** The counters after [n] accesses: no counter has wrapped, swap-ins
    cover the swap-outs and the occupied frames, and while predictions are
    off and no more faults were taken than there are frames, every fault
    took a free frame. *)
Record accounts (n : Z) (v : VMM) : Prop := mk_accounts {
  acc_outs : 0 <= swap_outs (metrics_ v);
  acc_used : swap_outs (metrics_ v) + getUsedFrameCount v <= swap_ins (metrics_ v);
  acc_ins : swap_ins (metrics_ v) <= 4 * n;
  acc_faults : 0 <= page_faults (metrics_ v) <= n;
  acc_exact :
    enable_ai_predictions (config_ v) = false →
    page_faults (metrics_ v) <= total_frames (config_ v) →
    swap_ins (metrics_ v) = page_faults (metrics_ v)
    ∧ getUsedFrameCount v = page_faults (metrics_ v)
    ∧ swap_outs (metrics_ v) = 0;
}.

(** * Sequences of operations *)

(** The public operations of [VMM] that change its state. *)
Inductive Op :=
  | Access (page_number : Z) (is_write : bool)
  | Start
  | Stop
  | SetConfig (config : VMMConfig)
  | ResetMetrics
  | SetEventCallback (installed : bool)
  | SetAIPredictions (predicted_pages : list Z).

Definition exec (op : Op) (v : VMM) : option VMM :=
  match op with
  | Access page_number is_write => snd <$> accessPage page_number is_write v
  | Start => Some (startSimulation v)
  | Stop => Some (stopSimulation v)
  | SetConfig config => Some (setConfig config v)
  | ResetMetrics => Some (resetMetrics v)
  | SetEventCallback installed => Some (setEventCallback installed v)
  | SetAIPredictions predicted_pages => Some (setAIPredictions predicted_pages v)
  end.

Fixpoint exec_all (ops : list Op) (v : VMM) : option VMM :=
  match ops with
  | [] => Some v
  | op :: rest => v ← exec op v; exec_all rest v
  end.

(** Configurations passed to [setConfig] are valid ones. *)
Definition op_ok (op : Op) : Prop :=
  match op with
  | SetConfig config => config_ok config
  | _ => True
  end.

Definition is_setAIPredictions (op : Op) : Prop :=
  match op with
  | SetAIPredictions _ => True
  | _ => False
  end.

(** What hit attribution depends on. *)
Definition ai_state (v : VMM) : Z * Z * list Z * list Z :=
  (ai_hits (metrics_ v), ai_predictions (metrics_ v),
   recent_accesses_ v, recent_predictions_ v).

(** After [n] operations: hits do not exceed predictions, and no
    prediction is stored before the window holds three accesses. *)
Record ai_inv (n : Z) (v : VMM) : Prop := mk_ai_inv {
  ai_hits_le : 0 <= ai_hits (metrics_ v) <= ai_predictions (metrics_ v);
  ai_predictions_le : ai_predictions (metrics_ v) <= n;
  ai_window : vec_size (recent_accesses_ v) < 3 → recent_predictions_ v = [];
}.

(** * Scenarios *)

Definition fifo_3_8 : VMMConfig := config_of 3 8 FIFO false.
Definition clock_2_8 : VMMConfig := config_of 2 8 CLOCK false.
Definition clock_4_16_ai : VMMConfig := config_of 4 16 CLOCK true.
Definition fifo_2_8 : VMMConfig := config_of 2 8 FIFO false.

(** The access sequence of Belady's FIFO example, all reads. *)
Definition belady : list (Z * bool) := reads [1; 2; 3; 4; 1; 2; 5; 1; 2; 3; 4; 5].

(** A manager with the default sizes of [main.cpp] whose last three
    accesses were 4, 5, 6. *)
Definition window_456 : VMM :=
  with_recent_accesses (started (config_of 256 1024 CLOCK true)) [4; 5; 6].

(** The callback has received this event. *)
Definition has_event (type message : string) (v : VMM) : Prop :=
  mkVMMEvent type message "" ∈ event_log v.

(** * Further scenarios *)

(** A session that reconfigures a manager in use. *)
Definition session : list Op :=
  [Start; Access 1 true; Access 2 false; Access 100 false;
   SetConfig clock_2_8; Access 7 true; Access 8 false; Access 9 false;
   ResetMetrics; Stop; Access 1 false].

(** * Residency *)

(** The frame the page table binds page [p] to, if the page is valid. *)
Definition resident (v : VMM) (p : Z) : option Z :=
  if PT.isPageValid (page_table_ v) p
  then Some (PT.getFrameNumber (page_table_ v) p) else None.

(** The dirty bits after an access to frame [f]. *)
Definition dirtied (is_write : bool) (f : Z) (dirty : list bool) : list bool :=
  if is_write then <[Z.to_nat f := true]> dirty else dirty.

(** What one access to [page] does to frames, page table and policy,
    from [v] to [v']: a hit in frame [f]; a fault served from the free
    frame [f]; a fault that replaces the page [u] of the victim frame [f]
    the policy selects, whose dirty bit is [d]; a fault for which the
    policy finds no victim. *)
Inductive access_step (page : Z) (is_write : bool) (v v' : VMM) : Prop :=
  | step_hit f :
      resident v page = Some f →
      frame_validity_ v' = frame_validity_ v →
      frame_to_page_ v' = frame_to_page_ v →
      frame_modified_ v' = dirtied is_write f (frame_modified_ v) →
      (∀ q, resident v' q = resident v q) →
      page_faults (metrics_ v') = page_faults (metrics_ v) →
      swap_outs (metrics_ v') = swap_outs (metrics_ v) →
      replacement_manager_ v' = RM.access f (replacement_manager_ v) →
      (is_write = true → PT.isPageModified (page_table_ v') page = true) →
      access_step page is_write v v'
  | step_free_frame f :
      resident v page = None →
      vec_at (frame_validity_ v) f = Some false →
      frame_validity_ v' = <[Z.to_nat f := true]> (frame_validity_ v) →
      frame_to_page_ v' = <[Z.to_nat f := page]> (frame_to_page_ v) →
      frame_modified_ v' = <[Z.to_nat f := is_write]> (frame_modified_ v) →
      (∀ q, resident v' q = if decide (q = page) then Some f else resident v q) →
      page_faults (metrics_ v') = Int.incr (page_faults (metrics_ v)) →
      swap_outs (metrics_ v') = swap_outs (metrics_ v) →
      replacement_manager_ v' = RM.access f (replacement_manager_ v) →
      findFreeFrame v = f →
      (is_write = true → PT.isPageModified (page_table_ v') page = true) →
      access_step page is_write v v'
  | step_victim f u d manager :
      resident v page = None →
      Forall (λ b, b = true) (frame_validity_ v) →
      vec_at (frame_to_page_ v) f = Some u →
      vec_at (frame_modified_ v) f = Some d →
      frame_validity_ v' = frame_validity_ v →
      frame_to_page_ v' = <[Z.to_nat f := page]> (frame_to_page_ v) →
      frame_modified_ v' = dirtied is_write f (frame_modified_ v) →
      (∀ q, resident v' q
            = if decide (q = page) then Some f
              else if decide (q = u ∧ u ≠ -1) then None else resident v q) →
      page_faults (metrics_ v') = Int.incr (page_faults (metrics_ v)) →
      swap_outs (metrics_ v')
      = (if bool_decide (u ≠ -1) && d then Int.incr (swap_outs (metrics_ v))
         else swap_outs (metrics_ v)) →
      RM.select (frame_validity_ v) (page_table_ v) (replacement_manager_ v)
      = Some (f, manager) →
      f ≠ -1 →
      replacement_manager_ v' = RM.access f manager →
      (is_write = true → PT.isPageModified (page_table_ v') page = true) →
      access_step page is_write v v'
  | step_no_victim :
      resident v page = None →
      Forall (λ b, b = true) (frame_validity_ v) →
      frame_validity_ v' = frame_validity_ v →
      frame_to_page_ v' = frame_to_page_ v →
      frame_modified_ v' = frame_modified_ v →
      (∀ q, resident v' q = resident v q) →
      page_faults (metrics_ v') = Int.incr (page_faults (metrics_ v)) →
      swap_outs (metrics_ v') = swap_outs (metrics_ v) →
      RM.select (frame_validity_ v) (page_table_ v) (replacement_manager_ v)
      = Some (-1, replacement_manager_ v') →
      access_step page is_write v v'.

(** Page table and frame vectors describe the same residency: a valid
    page is bound to an occupied frame that holds it, an occupied frame
    holds a valid page bound to it, and the page number [-1], which
    [frame_to_page_] uses for "no page", is not valid. *)
Record consistent (v : VMM) : Prop := mk_consistent {
  cons_page : ∀ p f, resident v p = Some f →
    vec_at (frame_validity_ v) f = Some true ∧ vec_at (frame_to_page_ v) f = Some p;
  cons_frame : ∀ f, vec_at (frame_validity_ v) f = Some true →
    ∃ p, vec_at (frame_to_page_ v) f = Some p ∧ resident v p = Some f;
  cons_sentinel : resident v (-1) = None;
}.

(** The pages of a sequence of accesses. *)
Definition pages_of (accesses : list (Z * bool)) : list Z := accesses.*1.

(** The last [n] elements of [l]. *)
Definition last_n {A} (n : nat) (l : list A) : list A := drop (length l - n) l.

(** The number of steps the clock hand makes from [h] to reach frame [i],
    among [F] frames. *)
Definition sweep_distance (F h i : Z) : Z := (i - h) mod F.

(** A FIFO state whose set mirrors its queue, as [recordFrameAccess]
    keeps them. *)
Definition fifo_ok (s : FIFOReplacement.t) : Prop :=
  NoDup (FIFOReplacement.fifo_queue_ s)
  ∧ ∀ f, f ∈ FIFOReplacement.in_queue_ s ↔ f ∈ FIFOReplacement.fifo_queue_ s.

(** What the loop of [LRUReplacement::selectVictimFrame] has found when
    it enters index [n], having started with [oldest_time = limit]:
    [victim] is [-1] and [oldest] is still [limit], or [victim] is an
    occupied frame below [n] whose time is [oldest], below [limit]; and
    no occupied frame below [n] is older than [oldest], or as old with a
    smaller index than [victim]. *)
Definition lru_scanned (fv : list bool) (times : list Z) (limit : Z)
    (n : Z) (oldest victim : Z) : Prop :=
  ((victim = -1 ∧ oldest = limit)
   ∨ (0 <= victim < n ∧ occupied fv victim
      ∧ vec_at times victim = Some oldest ∧ oldest < limit))
  ∧ ∀ j t, 0 <= j < n → occupied fv j → vec_at times j = Some t →
           oldest <= t ∧ (t = oldest → victim <= j).

(** What lets FIFO and LRU find a victim among the frames
    [frame_validity], after at most [n] recorded accesses: the FIFO
    queue holds every occupied frame; the LRU times are not ahead of the
    LRU clock, which has ticked at most [n] times. *)
Definition finds_victims (n : Z) (frame_validity : list bool)
    (rm : ReplacementManager) : Prop :=
  match algorithm_ rm with
  | AlgFIFO s =>
      fifo_ok s
      ∧ ∀ f, occupied frame_validity f → f ∈ FIFOReplacement.fifo_queue_ s
  | AlgLRU s =>
      0 <= LRUReplacement.current_time_ s <= n
      ∧ Forall (λ t, t <= LRUReplacement.current_time_ s)
          (LRUReplacement.last_access_times_ s)
  | AlgCLOCK _ => False
  end.

(** * Strings *)

(** The characters of a string. *)
Fixpoint chars (s : string) : list Strings.Ascii.ascii :=
  match s with
  | EmptyString => []
  | String c rest => c :: chars rest
  end.

(** [s] with every character replaced by its image under [f]. *)
Fixpoint map_chars (f : Strings.Ascii.ascii → Strings.Ascii.ascii) (s : string) :
    string :=
  match s with
  | EmptyString => EmptyString
  | String c rest => String (f c) (map_chars f rest)
  end.

(** What [urlDecode] does to a character outside an escape. *)
Definition plus_to_space (c : Strings.Ascii.ascii) : Strings.Ascii.ascii :=
  if bool_decide (c = Strings.Ascii.ascii_of_N 43) then Strings.Ascii.ascii_of_N 32
  else c.

(** The characters [urlEncode] produces. *)
Definition url_safe (c : Strings.Ascii.ascii) : Prop :=
  Server.isalnum c = Some true
  ∨ c ∈ chars "%-_.~".

(** * Workloads *)

(** The page a SEQUENTIAL or STRIDED generator asks for at position [n]. *)
Definition pattern_page (c : Workload.WorkloadConfig) (n : Z) : Z :=
  match Workload.type c with
  | Workload.STRIDED => (n * Workload.stride c) `mod` Workload.page_range c
  | _ => n `mod` Workload.page_range c
  end.

(** The accesses such a generator makes from position [n] on, one per
    draw: a write when the sample is below 0.3. *)
Fixpoint pattern_accesses (c : Workload.WorkloadConfig) (n : Z)
    (draws : list Workload.Draw) : list (Z * bool) :=
  match draws with
  | [] => []
  | draw :: draws =>
      (pattern_page c n, PrimFloat.ltb (Workload.prob draw) 0.3%float)
      :: pattern_accesses c (n + 1) draws
  end.

(** The generator is SEQUENTIAL or STRIDED over a range of pages that
    fit an [int], and no position it reaches overflows. *)
Definition pattern_ok (c : Workload.WorkloadConfig) : Prop :=
  0 < Workload.page_range c <= Int.int_half
  ∧ 0 <= Workload.total_requests c < Int.size_t_modulus
  ∧ match Workload.type c with
    | Workload.SEQUENTIAL => True
    | Workload.STRIDED =>
        0 <= Workload.stride c
        ∧ Workload.total_requests c * Workload.stride c < Int.size_t_modulus
    | _ => False
    end.

(** Accesses handed to a callback one after the other. *)
Fixpoint deliver {E} (callback : Z → bool → E → option E)
    (accesses : list (Z * bool)) (env : E) : option E :=
  match accesses with
  | [] => Some env
  | (page, is_write) :: accesses =>
      env ← callback page is_write env;
      deliver callback accesses env
  end.

Definition sequential_100 : Workload.WorkloadConfig :=
  Workload.mkWorkloadConfig Workload.SEQUENTIAL 1000 100 1 1%float 0.8%float 100.

Definition three_draws : list Workload.Draw :=
  [Workload.mkDraw 0.1%float 0; Workload.mkDraw 0.5%float 0;
   Workload.mkDraw 0.9%float 0].

(** The simulator after a stop request followed by a start request. *)
Definition restarted (mode workload : string) (a : Simulator.VMMSimulator) :
    Simulator.VMMSimulator :=
  Simulator.handleStartSimulation mode workload (Simulator.handleStopSimulation a).

(** * Events and counters *)

(** The number of events of type [t] in a log. *)
Definition count_events (t : string) (log : list VMMEvent) : nat :=
  length (filter (λ e, type e = t) log).

(** From [v] to [v'] the callback, which is installed, has received
    [hits] events of type ACCESS and [faults] of type FAULT, and the
    fault, swap-in and swap-out counters have gone up once for each FAULT,
    SWAP_IN and SWAP_OUT event it received. *)
Definition reports (hits faults : nat) (v v' : VMM) : Prop :=
  event_callback_ v' = true
  ∧ ∃ events,
      event_log v' = event_log v ++ events
      ∧ count_events "ACCESS" events = hits
      ∧ count_events "FAULT" events = faults
      ∧ page_faults (metrics_ v')
        = Nat.iter (count_events "FAULT" events) Int.incr (page_faults (metrics_ v))
      ∧ swap_ins (metrics_ v')
        = Nat.iter (count_events "SWAP_IN" events) Int.incr (swap_ins (metrics_ v))
      ∧ swap_outs (metrics_ v')
        = Nat.iter (count_events "SWAP_OUT" events) Int.incr (swap_outs (metrics_ v)).

(** * Signed arithmetic *)

(** The value fits an [int].  An [int] operation of the source whose
    exact result does not fit has no defined behaviour; where it fits,
    [Int.add], [Int.sub] and [Int.mul] return it. *)
Definition representable (z : Z) : Prop := - Int.int_half <= z < Int.int_half.

(** Every [int] expression that [requestAIPredictions] evaluates on a
    window ending in [third_last], [second_last], [last_page] has a
    representable value; the expressions are those of the source, in the
    order of its conditions and branches. *)
Definition prediction_arithmetic_defined (last_page second_last third_last : Z) :
    Prop :=
  representable (second_last + 1)
  ∧ (last_page = second_last + 1 → representable (third_last + 1))
  ∧ (if decide (last_page = second_last + 1 ∧ second_last = third_last + 1) then
       (* Pattern 1 *)
       representable (last_page + 1) ∧ representable (last_page + 2)
     else
       representable (last_page - second_last)
       ∧ representable (second_last - third_last)
       ∧ if decide (last_page - second_last = second_last - third_last) then
           (* Pattern 2 *)
           representable (last_page + (last_page - second_last))
           ∧ representable (2 * (last_page - second_last))
           ∧ representable (last_page + 2 * (last_page - second_last))
         else
           (* Pattern 3 *)
           representable (Z.quot last_page 10 * 10)
           ∧ representable (Z.rem last_page 10 + 1)
           ∧ representable (Z.rem last_page 10 + 2)
           ∧ representable
               (Z.quot last_page 10 * 10 + Z.rem (Z.rem last_page 10 + 1) 10)
           ∧ representable
               (Z.quot last_page 10 * 10 + Z.rem (Z.rem last_page 10 + 2) 10))
  ∧ representable (last_page + 3).

(** [requestAIPredictions] overflows no [int] on the window of [v]. *)
Definition prediction_defined (v : VMM) : Prop :=
  let accesses := recent_accesses_ v in
  ∀ last_page second_last third_last,
    vec_at accesses (vec_size accesses - 1) = Some last_page →
    vec_at accesses (vec_size accesses - 2) = Some second_last →
    vec_at accesses (vec_size accesses - 3) = Some third_last →
    prediction_arithmetic_defined last_page second_last third_last.

(** [access_count++] of [PageTable::recordPageAccess] does not overflow
    for page [p]. *)
Definition count_defined (pt : PageTable) (p : Z) : Prop :=
  representable (PT.getAccessCount pt p + 1).

(** [clock_hand_ + 1] of [CLOCKReplacement::selectVictimFrame] does not
    overflow, wherever the hand stands during a sweep over [F] frames. *)
Definition hand_defined (F : Z) (a : Algorithm) : Prop :=
  match a with
  | AlgCLOCK s =>
      ∀ h, h = CLOCKReplacement.clock_hand_ s ∨ 0 <= h < F → representable (h + 1)
  | _ => True
  end.

(** The [int] arithmetic that operation [op] performs in state [v] does
    not overflow: an access served by a running manager counts the
    access of the page, may sweep the CLOCK hand and, with predictions
    enabled, predicts from the window that ends in the page; no other
    operation computes on [int]s. *)
Definition signed_arithmetic_defined (op : Op) (v : VMM) : Prop :=
  match op with
  | Access page_number _ =>
      simulation_running_ v = true →
      count_defined (page_table_ v) page_number
      ∧ hand_defined (vec_size (frame_validity_ v))
          (algorithm_ (replacement_manager_ v))
      ∧ (enable_ai_predictions (config_ v) = true →
         prediction_defined (updateRecentAccesses page_number v))
  | _ => True
  end.

(** Every operation of the sequence has a result and overflows no
    [int] in the state it is applied to. *)
Fixpoint always_defined (ops : list Op) (v : VMM) : Prop :=
  match ops with
  | [] => True
  | op :: rest =>
      signed_arithmetic_defined op v
      ∧ match exec op v with
        | Some v => always_defined rest v
        | None => False
        end
  end.

(** Page numbers far enough from the ends of [int] for the predictor:
    between -2^29 and 2^29. *)
Definition bounded_page (p : Z) : Prop := - 2 ^ 29 <= p < 2 ^ 29.

Definition access_bounded (op : Op) : Prop :=
  match op with
  | Access page_number _ => bounded_page page_number
  | _ => True
  end.

(** After [n] operations: no page was counted more often than that, and
    the window holds bounded pages. *)
Record int_safe (n : Z) (v : VMM) : Prop := mk_int_safe {
  safe_counts : ∀ p, 0 <= PT.getAccessCount (page_table_ v) p <= n;
  safe_window : Forall bounded_page (recent_accesses_ v);
}.

(** * Swap-ins that occupy no frame *)








(** * Workloads as computed *)

(** The workload type is one of the two that use no random numbers. *)
Definition deterministic (c : Workload.WorkloadConfig) : Prop :=
  Workload.type c = Workload.SEQUENTIAL ∨ Workload.type c = Workload.STRIDED.

(** The page a SEQUENTIAL or STRIDED generator computes at position [n]:
    [n % page_range], or [(n * stride) % page_range] with the [int]
    stride converted to [size_t] and the product taken modulo 2^64; the
    result is converted to [int]. *)
Definition workload_page (c : Workload.WorkloadConfig) (n : Z) : Z :=
  match Workload.type c with
  | Workload.STRIDED =>
      Int.to_int (Int.to_size_t (n * Int.to_size_t (Workload.stride c))
                  `mod` Workload.page_range c)
  | _ => Int.to_int (n `mod` Workload.page_range c)
  end.

(** The accesses such a generator hands to the access callback from
    position [n] on, one per draw unless the page is negative: a write
    when the sample is below 0.3. *)
Fixpoint workload_accesses (c : Workload.WorkloadConfig) (n : Z)
    (draws : list Workload.Draw) : list (Z * bool) :=
  match draws with
  | [] => []
  | draw :: draws =>
      let rest := workload_accesses c (n + 1) draws in
      if decide (workload_page c n >= 0)
      then (workload_page c n, PrimFloat.ltb (Workload.prob draw) 0.3%float) :: rest
      else rest
  end.

Definition strided_back : Workload.WorkloadConfig :=
  Workload.mkWorkloadConfig Workload.STRIDED 4 1000 (-1) 1%float 0.8%float 100.


(** * Machine integers and vectors *)

Lemma to_size_t_small z : 0 <= z < Int.size_t_modulus → Int.to_size_t z = z.
Proof. intros H. unfold Int.to_size_t. apply Z.mod_small. exact H. Qed.

Lemma to_int_small z : - Int.int_half <= z < Int.int_half → Int.to_int z = z.
Proof.
  intros H. unfold Int.to_int.
  rewrite Z.mod_small; [lia |].
  unfold Int.int_half, Int.int_modulus in *. lia.
Qed.

Lemma incr_small x : 0 <= x → x + 1 < Int.size_t_modulus → Int.incr x = x + 1.
Proof. intros. unfold Int.incr. apply to_size_t_small. lia. Qed.

Lemma mod_size_t_small x P :
  0 <= x < Int.int_half → 0 < P → Int.mod_size_t x P = x `mod` P.
Proof.
  intros Hx HP. unfold Int.mod_size_t.
  assert (Int.int_half < Int.size_t_modulus) by done.
  rewrite to_size_t_small by lia.
  pose proof (Z.mod_pos_bound x P HP). pose proof (Z.mod_le x P).
  apply to_int_small. lia.
Qed.

Lemma vec_at_Some {A} (l : list A) i x :
  vec_at l i = Some x ↔ 0 <= i ∧ l !! Z.to_nat i = Some x.
Proof. unfold vec_at. case_decide; intuition (done || lia). Qed.

Lemma vec_at_lt {A} (l : list A) i x : vec_at l i = Some x → 0 <= i < vec_size l.
Proof.
  rewrite vec_at_Some. intros [H0 H]. apply lookup_lt_Some in H.
  unfold vec_size. lia.
Qed.

Lemma vec_at_defined {A} (l : list A) i :
  0 <= i < vec_size l → ∃ x, vec_at l i = Some x.
Proof.
  unfold vec_size. intros H.
  destruct (lookup_lt_is_Some_2 l (Z.to_nat i)) as [x Hx]; [lia |].
  exists x. apply vec_at_Some. split; [lia | done].
Qed.

Lemma vec_store_defined {A} (l : list A) i x :
  0 <= i < vec_size l → vec_store i x l = Some (<[Z.to_nat i := x]> l).
Proof. intros H. unfold vec_store. rewrite decide_True; done. Qed.

Lemma vec_store_size {A} (l l' : list A) i x :
  vec_store i x l = Some l' → vec_size l' = vec_size l.
Proof.
  unfold vec_store. case_decide; [| done]. intros [= <-].
  unfold vec_size. by rewrite length_insert.
Qed.

Lemma vec_set_size {A} (l : list A) i x : vec_size (vec_set i x l) = vec_size l.
Proof. unfold vec_set, vec_size. case_decide; [| done]. by rewrite length_insert. Qed.

Lemma vec_size_nonneg {A} (l : list A) : 0 <= vec_size l.
Proof. unfold vec_size. lia. Qed.

Lemma vec_size_resize {A} n (x : A) l : vec_size (resize n x l) = Z.of_nat n.
Proof. unfold vec_size. by rewrite length_resize. Qed.

Lemma vec_size_replicate {A} n (x : A) : vec_size (replicate n x) = Z.of_nat n.
Proof. unfold vec_size. by rewrite length_replicate. Qed.

(** ** Counting occupied frames *)

Lemma count_bool_cons b x l :
  count_bool b (x :: l) = (if decide (x = b) then 1 else 0) + count_bool b l.
Proof.
  unfold count_bool. rewrite filter_cons.
  case_decide; simpl; lia.
Qed.

Lemma count_bool_nil b : count_bool b [] = 0.
Proof. reflexivity. Qed.

Lemma count_bool_bounds b l : 0 <= count_bool b l <= vec_size l.
Proof.
  induction l as [| x l IH]; [done |].
  rewrite count_bool_cons. unfold vec_size in *. simpl length.
  case_decide; lia.
Qed.

Lemma count_bool_occupy l n :
  l !! n = Some false →
  count_bool true (<[n := true]> l) = count_bool true l + 1.
Proof.
  revert n. induction l as [| x l IH]; intros [| n] H; simplify_eq/=.
  - rewrite !count_bool_cons. repeat case_decide; done || lia.
  - rewrite !count_bool_cons. rewrite (IH n H). lia.
Qed.

Lemma count_bool_full l : Forall (λ b, b = true) l → count_bool true l = vec_size l.
Proof.
  induction 1 as [| x l -> _ IH]; [done |].
  rewrite count_bool_cons, IH, decide_True by done.
  unfold vec_size. simpl length. lia.
Qed.

(** ** Finding a free frame *)

Lemma find_free_from_spec rest i :
  0 <= i → i + vec_size rest <= Int.int_half →
  (find_free_from rest i = -1 ∧ Forall (λ b, b = true) rest)
  ∨ (i <= find_free_from rest i < i + vec_size rest
     ∧ rest !! Z.to_nat (find_free_from rest i - i) = Some false).
Proof.
  revert i. induction rest as [| b rest IH]; intros i Hi Hb; [left; done |].
  unfold vec_size in *. simpl length in *. simpl find_free_from.
  destruct b; simpl.
  - destruct (IH (i + 1)) as [[-> Hall] | [Hr Hl]]; [lia | lia | |].
    + left. split; [done |]. by constructor.
    + right. split; [lia |].
      replace (Z.to_nat (find_free_from rest (i + 1) - i))
        with (S (Z.to_nat (find_free_from rest (i + 1) - (i + 1)))) by lia.
      done.
  - right. rewrite to_int_small by (unfold Int.int_half in *; lia).
    split; [lia |]. by rewrite Z.sub_diag.
Qed.

Lemma vec_size_insert {A} (l : list A) n x : vec_size (<[n := x]> l) = vec_size l.
Proof. unfold vec_size. by rewrite length_insert. Qed.

Lemma vec_at_insert_ne {A} (l : list A) h j x :
  0 <= h → j ≠ h → vec_at (<[Z.to_nat h := x]> l) j = vec_at l j.
Proof.
  intros Hh Hne. unfold vec_at. destruct (decide (0 <= j)); [| done].
  apply list_lookup_insert_ne. lia.
Qed.


(** * Replacement algorithms on well-formed states *)

Lemma fifo_select_loop_spec fv F queue inq :
  vec_size fv = F →
  Forall (λ f, 0 <= f < F) queue →
  ∃ f s, FIFOReplacement.select_loop fv queue inq = Some (f, s)
    ∧ (f = -1 ∨ (0 <= f < F ∧ occupied fv f))
    ∧ Forall (λ f, 0 <= f < F) (FIFOReplacement.fifo_queue_ s).
Proof.
  intros HF Hq. revert inq.
  induction Hq as [| frame rest Hframe Hrest IH]; intros inq; simpl.
  - eexists _, _. split; [done |]. split; [by left | by constructor].
  - destruct (vec_at_defined fv frame) as [b Hb]; [lia |].
    rewrite Hb. simpl. destruct b.
    + eexists _, _. split; [done |]. split; [by right | by constructor].
    + apply IH.
Qed.

Lemma lru_scan_spec rest i times oldest victim :
  0 <= i → i + vec_size rest <= vec_size times →
  vec_size times < Int.int_half →
  victim = -1 ∨ 0 <= victim < i →
  ∃ f, LRUReplacement.scan rest i times oldest victim = Some f
    ∧ (f = -1 ∨ 0 <= f < i + vec_size rest).
Proof.
  revert i oldest victim.
  induction rest as [| b rest IH]; intros i oldest victim Hi Hsz Hint Hv; simpl.
  - exists victim. split; [done |]. unfold vec_size. simpl. lia.
  - unfold vec_size in Hsz |- *. simpl length in *.
    assert (∀ o w, (w = -1 ∨ 0 <= w < i + 1) →
              ∃ f, LRUReplacement.scan rest (i + 1) times o w = Some f
                ∧ (f = -1 ∨ 0 <= f < i + Z.of_nat (S (length rest)))) as Hnext.
    { intros o w Hw. destruct (IH (i + 1) o w) as (f & Hf & Hr);
        [lia | unfold vec_size; lia | done | done |].
      exists f. split; [done |]. unfold vec_size in Hr. lia. }
    destruct b; [| apply Hnext; lia].
    destruct (vec_at_defined times i) as [t Ht]; [unfold vec_size; lia |].
    rewrite Ht. simpl. case_decide; apply Hnext; [| lia].
    rewrite to_int_small; [lia |]. unfold vec_size in Hint. lia.
Qed.

Section Clock.
Import CLOCKReplacement.
Variables (fv : list bool) (F start : Z).
Hypothesis HF : vec_size fv = F.
Hypothesis HFrange : 0 < F < Int.int_half.
Hypothesis Hstart : 0 <= start < F.

Lemma advance_spec s :
  clock_ok F s →
  advance fv s = Some (mk (reference_bits_ s) (next_hand F (clock_hand_ s))).
Proof.
  intros [Hbits Hhand]. unfold advance. rewrite HF.
  rewrite decide_False by lia. do 2 f_equal.
  unfold Int.mod_size_t, Int.add, next_hand.
  assert (Int.int_half < Int.size_t_modulus) by done.
  rewrite (to_int_small (_ + 1)) by lia.
  rewrite to_size_t_small by lia.
  case_decide as Hwrap.
  - rewrite Hwrap, Z.mod_same by lia. done.
  - rewrite Z.mod_small by lia. apply to_int_small. lia.
Qed.

Lemma next_hand_range h : 0 <= h < F → 0 <= next_hand F h < F.
Proof. unfold next_hand. case_decide; lia. Qed.

Lemma to_go_range h : 0 <= h < F → 1 <= to_go F start h <= F.
Proof. unfold to_go. case_decide; lia. Qed.

Lemma to_go_next h :
  0 <= h < F → next_hand F h ≠ start →
  to_go F start (next_hand F h) = to_go F start h - 1.
Proof. unfold to_go, next_hand. repeat case_decide; lia. Qed.

Lemma to_go_last h :
  0 <= h < F → next_hand F h = start → to_go F start h = 1.
Proof. unfold to_go, next_hand. repeat case_decide; lia. Qed.

Lemma to_go_inj h j :
  0 <= h < F → 0 <= j < F → to_go F start h = to_go F start j → h = j.
Proof. unfold to_go. repeat case_decide; lia. Qed.

Lemma ahead_start j : 0 <= j < F → ahead F start start j.
Proof.
  intros Hj. split; [done |]. unfold to_go. repeat case_decide; lia.
Qed.

(** A sweep at [h] visits [h] itself and then what the sweep at the
    next position visits. *)
Lemma ahead_cases h j :
  0 <= h < F → ahead F start h j →
  j = h ∨ (next_hand F h ≠ start ∧ ahead F start (next_hand F h) j).
Proof.
  intros Hh [Hj Hle].
  destruct (decide (j = h)) as [| Hne]; [by left | right].
  assert (to_go F start j ≠ to_go F start h)
    by (intros Heq; apply Hne; by apply to_go_inj).
  pose proof (to_go_range j Hj).
  destruct (decide (next_hand F h = start)) as [Hlast | Hmore].
  - rewrite (to_go_last h Hh Hlast) in *. lia.
  - split; [done |]. split; [done |]. rewrite to_go_next by done. lia.
Qed.

Lemma ahead_next h j :
  0 <= h < F → next_hand F h ≠ start → ahead F start (next_hand F h) j → ahead F start h j.
Proof.
  intros Hh Hne [Hj Hle]. split; [done |].
  rewrite to_go_next in Hle by done. lia.
Qed.

Lemma first_pass_spec fuel s :
  clock_ok F s →
  to_go F start (clock_hand_ s) <= Z.of_nat fuel →
  (∃ j, first_pass fuel fv start s
          = Some (Return j (mk (reference_bits_ s) (next_hand F j)))
      ∧ occupied fv j ∧ unreferenced s j ∧ ahead F start (clock_hand_ s) j)
  ∨ (first_pass fuel fv start s = Some (Exit (mk (reference_bits_ s) start))
     ∧ ∀ j, ahead F start (clock_hand_ s) j → occupied fv j →
            vec_at (reference_bits_ s) j = Some true).
Proof.
  revert s. induction fuel as [| fuel IH]; intros s Hok Hfuel.
  { destruct Hok as [_ Hh]. pose proof (to_go_range _ Hh). lia. }
  pose proof Hok as [Hbits Hhand].
  set (h := clock_hand_ s) in *.
  destruct (vec_at_defined fv h) as [occ Hocc]; [lia |].
  destruct (vec_at_defined (reference_bits_ s) h) as [bit Hbit]; [lia |].
  assert (ahead F start h h) as Hhh by (split; [done | lia]).
  simpl first_pass. fold h. rewrite Hocc. simpl.
  rewrite advance_spec by done. fold h. simpl.
  assert (first_pass fuel fv start (mk (reference_bits_ s) (next_hand F h))
          = first_pass fuel fv start (mk (reference_bits_ s) (next_hand F h)))
    as _ by done.
  assert (occ && negb bit = false →
    (∃ j, (if decide (next_hand F h ≠ start)
           then first_pass fuel fv start (mk (reference_bits_ s) (next_hand F h))
           else Some (Exit (mk (reference_bits_ s) (next_hand F h))))
        = Some (Return j (mk (reference_bits_ s) (next_hand F j)))
      ∧ occupied fv j ∧ unreferenced s j ∧ ahead F start h j)
    ∨ ((if decide (next_hand F h ≠ start)
        then first_pass fuel fv start (mk (reference_bits_ s) (next_hand F h))
        else Some (Exit (mk (reference_bits_ s) (next_hand F h))))
        = Some (Exit (mk (reference_bits_ s) start))
       ∧ ∀ j, ahead F start h j → occupied fv j →
              vec_at (reference_bits_ s) j = Some true)) as Hskip.
  { intros Hcond.
    assert (occupied fv h → vec_at (reference_bits_ s) h = Some true) as Hhere.
    { unfold occupied. rewrite Hocc, Hbit. intros [= ->].
      destruct bit; [done | discriminate]. }
    case_decide as Hne.
    - destruct (IH (mk (reference_bits_ s) (next_hand F h))) as
        [(j & Hrun & Hj1 & Hj2 & Hj3) | [Hrun Hall]].
      + split; [done |]. simpl. by apply next_hand_range.
      + simpl. rewrite to_go_next by done. lia.
      + left. exists j. simpl in *. split; [done |].
        split; [done |]. split; [done |]. by apply ahead_next.
      + right. simpl in *. split; [done |]. intros j Hj Hoj.
        destruct (ahead_cases h j Hhand Hj) as [-> | [_ Hj']]; [by apply Hhere |].
        by apply Hall.
    - right. rewrite Hne. split; [done |].
      intros j Hj Hoj.
      destruct (ahead_cases h j Hhand Hj) as [-> | [Hcontra _]]; [by apply Hhere |].
      done. }
  destruct occ; simpl.
  - rewrite Hbit. simpl. destruct bit; simpl.
    + apply Hskip. done.
    + left. exists h. done.
  - apply Hskip. done.
Qed.

Lemma second_pass_spec fuel s :
  clock_ok F s →
  to_go F start (clock_hand_ s) <= Z.of_nat fuel →
  (∀ j, ahead F start (clock_hand_ s) j → occupied fv j →
        vec_at (reference_bits_ s) j = Some true) →
  ∃ bits, second_pass fuel fv start s = Some (Exit (mk bits start))
    ∧ vec_size bits = F
    ∧ (∀ j, ahead F start (clock_hand_ s) j → occupied fv j →
            vec_at bits j = Some false)
    ∧ (∀ j, ¬ (ahead F start (clock_hand_ s) j ∧ occupied fv j) →
            vec_at bits j = vec_at (reference_bits_ s) j).
Proof.
  revert s. induction fuel as [| fuel IH]; intros s Hok Hfuel Hset.
  { destruct Hok as [_ Hh]. pose proof (to_go_range _ Hh). lia. }
  pose proof Hok as [Hbits Hhand].
  set (h := clock_hand_ s) in *.
  destruct (vec_at_defined fv h) as [occ Hocc]; [lia |].
  assert (ahead F start h h) as Hhh by (split; [done | lia]).
  (* what the rest of the sweep does, from the bits [b] left at [h] *)
  assert (∀ b, vec_size b = F →
            (∀ j, j ≠ h → vec_at b j = vec_at (reference_bits_ s) j) →
            (occupied fv h → vec_at b h = Some false) →
            (¬ occupied fv h → vec_at b h = vec_at (reference_bits_ s) h) →
            ∃ bits,
              (if decide (next_hand F h ≠ start)
               then second_pass fuel fv start (mk b (next_hand F h))
               else Some (Exit (mk b (next_hand F h))))
              = Some (Exit (mk bits start))
              ∧ vec_size bits = F
              ∧ (∀ j, ahead F start h j → occupied fv j → vec_at bits j = Some false)
              ∧ (∀ j, ¬ (ahead F start h j ∧ occupied fv j) →
                      vec_at bits j = vec_at (reference_bits_ s) j)) as Hrest.
  { intros b Hb Hother Hocc_h Hfree_h.
    assert (∀ j, ahead F start (next_hand F h) j → next_hand F h ≠ start → j ≠ h)
      as Hpast.
    { intros j [Hj Hle] Hne ->. rewrite to_go_next in Hle by done. lia. }
    case_decide as Hne.
    - destruct (IH (mk b (next_hand F h))) as (bits & Hrun & Hsize & Hclear & Hkeep).
      + split; [done |]. simpl. by apply next_hand_range.
      + simpl. rewrite to_go_next by done. lia.
      + simpl. intros j Hj Hoj. rewrite Hother by (by apply Hpast).
        apply Hset; [| done]. by apply ahead_next.
      + simpl in *. exists bits. split; [done |]. split; [done |]. split.
        * intros j Hj Hoj.
          destruct (ahead_cases h j Hhand Hj) as [-> | [_ Hj']]; [| by apply Hclear].
          rewrite Hkeep; [by apply Hocc_h |].
          intros [Hcontra _]. by apply (Hpast h Hcontra).
        * intros j Hj. rewrite Hkeep.
          -- destruct (decide (j = h)) as [-> | Hjh]; [| by apply Hother].
             apply Hfree_h. intros Ho. apply Hj. done.
          -- intros [Hj' Hoj]. apply Hj. split; [| done]. by apply ahead_next.
    - rewrite Hne. exists b. split; [done |]. split; [done |]. split.
      + intros j Hj Hoj.
        destruct (ahead_cases h j Hhand Hj) as [-> | [Hcontra _]]; [by apply Hocc_h |].
        done.
      + intros j Hj.
        destruct (decide (j = h)) as [-> | Hjh]; [| by apply Hother].
        apply Hfree_h. intros Ho. apply Hj. done. }
  simpl second_pass. fold h. rewrite Hocc. simpl.
  destruct occ.
  - rewrite (Hset h Hhh Hocc). simpl.
    rewrite vec_store_defined by lia. simpl.
    rewrite advance_spec by (split; simpl; [by rewrite vec_size_insert | done]).
    simpl. apply Hrest.
    + by rewrite vec_size_insert.
    + intros j Hj. apply vec_at_insert_ne; [lia | done].
    + intros _. apply vec_at_Some. split; [lia |].
      apply list_lookup_insert_eq. unfold vec_size in Hbits. lia.
    + intros Hcontra. by destruct Hcontra.
  - rewrite advance_spec by done. fold h. simpl. destruct s as [b0 h0].
    simpl in *. apply Hrest; try done.
    unfold occupied. rewrite Hocc. done.
Qed.

End Clock.

Lemma clock_select_spec fv F pt s :
  vec_size fv = F → 0 < F < Int.int_half → clock_ok F s →
  (∃ j, CLOCKReplacement.select fv pt s
          = Some (j, CLOCKReplacement.mk (CLOCKReplacement.reference_bits_ s)
                       (next_hand F j))
      ∧ occupied fv j ∧ unreferenced s j)
  ∨ (∃ bits, CLOCKReplacement.select fv pt s
               = Some (-1, CLOCKReplacement.mk bits (CLOCKReplacement.clock_hand_ s))
      ∧ vec_size bits = F
      ∧ (∀ j, occupied fv j →
              vec_at (CLOCKReplacement.reference_bits_ s) j = Some true)
      ∧ (∀ j, occupied fv j → vec_at bits j = Some false)
      ∧ (∀ j, ¬ occupied fv j →
              vec_at bits j = vec_at (CLOCKReplacement.reference_bits_ s) j)).
Proof.
  intros HF HFrange Hok. pose proof Hok as [Hbits Hhand].
  assert (Z.of_nat (length fv) = F) as Hlen by done.
  unfold CLOCKReplacement.select.
  destruct (first_pass_spec fv F (CLOCKReplacement.clock_hand_ s) HF HFrange Hhand
              (length fv) s Hok) as [(j & Hrun & Hj1 & Hj2 & Hj3) | [Hrun Hall]].
  { pose proof (to_go_range F _ Hhand _ Hhand). lia. }
  - left. exists j. rewrite Hrun. done.
  - right. rewrite Hrun. simpl.
    assert (∀ j, occupied fv j → ahead F (CLOCKReplacement.clock_hand_ s)
                                   (CLOCKReplacement.clock_hand_ s) j) as Hahead.
    { intros j Hj. apply ahead_start; [done |]. apply vec_at_lt in Hj. lia. }
    destruct (second_pass_spec fv F (CLOCKReplacement.clock_hand_ s) HF HFrange Hhand
                (length fv)
                (CLOCKReplacement.mk (CLOCKReplacement.reference_bits_ s)
                   (CLOCKReplacement.clock_hand_ s)))
      as (bits & Hrun2 & Hsize & Hclear & Hkeep).
    { done. }
    { simpl. pose proof (to_go_range F _ Hhand _ Hhand). lia. }
    { simpl. intros j Hj Hoj. by apply Hall. }
    rewrite Hrun2. simpl in *. exists bits. split; [done |]. split; [done |].
    split; [| split].
    + intros j Hj. apply Hall; [by apply Hahead | done].
    + intros j Hj. apply Hclear; [by apply Hahead | done].
    + intros j Hj. apply Hkeep. intros [_ Hcontra]. done.
Qed.


(** * The manager on well-formed states *)

(** The events of one [emitEvent] call all satisfy the predicate at
    hand. *)
Ltac emitted :=
  repeat match goal with
         | |- context [if event_callback_ ?v then _ else _] =>
             destruct (event_callback_ v)
         end;
  repeat constructor; done.

Lemma emitEvent_eq type message v :
  emitEvent type message v
  = with_event_log v
      (event_log v ++ (if event_callback_ v
                       then [mkVMMEvent type message ""] else [])).
Proof.
  unfold emitEvent. destruct v as [? ? ? ? ? ? ? ? ? ? ? ? callback log].
  simpl. destruct callback; [done |]. unfold with_event_log. simpl.
  by rewrite app_nil_r.
Qed.

Lemma quiet_benign e : quiet e → benign e.
Proof. intros Hq Herr. done. Qed.

Lemma log_grows_refl P v : log_grows P v v.
Proof. exists []. split; [by rewrite app_nil_r | constructor]. Qed.

Lemma log_grows_same P v v' : event_log v' = event_log v → log_grows P v v'.
Proof. intros H. exists []. split; [by rewrite app_nil_r | constructor]. Qed.

Lemma log_grows_trans P v1 v2 v3 :
  log_grows P v1 v2 → log_grows P v2 v3 → log_grows P v1 v3.
Proof.
  intros (e1 & H1 & F1) (e2 & H2 & F2). exists (e1 ++ e2).
  split; [by rewrite H2, H1, app_assoc | by apply Forall_app].
Qed.

Lemma log_grows_mono (P Q : VMMEvent → Prop) v v' :
  (∀ e, P e → Q e) → log_grows P v v' → log_grows Q v v'.
Proof.
  intros HPQ (events & H & HP). exists events. split; [done |].
  eapply Forall_impl; [exact HP | exact HPQ].
Qed.

Lemma log_grows_emit (P : VMMEvent → Prop) type message v v' :
  P (mkVMMEvent type message "") →
  log_grows P v v' → log_grows P v (emitEvent type message v').
Proof.
  intros Hb Hlog. eapply log_grows_trans; [exact Hlog |].
  rewrite emitEvent_eq. eexists. split; [done |].
  destruct (event_callback_ v'); repeat constructor. done.
Qed.

Lemma same_control_refl v : same_control v v.
Proof. done. Qed.

Lemma same_control_trans v1 v2 v3 :
  same_control v1 v2 → same_control v2 v3 → same_control v1 v3.
Proof. unfold same_control. intros (-> & -> & ->) (-> & -> & ->). done. Qed.

Lemma same_memory_refl v : same_memory v v.
Proof. done. Qed.

Lemma same_memory_trans v1 v2 v3 :
  same_memory v1 v2 → same_memory v2 v3 → same_memory v1 v3.
Proof.
  unfold same_memory. intros (-> & -> & -> & -> & ->) (-> & -> & -> & -> & ->). done.
Qed.

Lemma wf_same v v' : config_ v' = config_ v → same_memory v v' → wf v → wf v'.
Proof.
  intros Hc (Hpt & Hrm & Hfv & Hfp & Hfm) [? ? ? ? ? ?].
  split; rewrite ?Hc, ?Hpt, ?Hrm, ?Hfv, ?Hfp, ?Hfm; done.
Qed.

Lemma more_swap_ins_refl m : more_swap_ins 0 m m.
Proof. done. Qed.

Lemma more_swap_ins_trans j k m1 m2 m3 :
  more_swap_ins j m1 m2 → more_swap_ins k m2 m3 → more_swap_ins (k + j) m1 m3.
Proof.
  intros (? & ? & Hj & ?) (? & ? & Hk & ?).
  unfold more_swap_ins. rewrite Nat.iter_add. rewrite <- Hj.
  repeat split; congruence.
Qed.

(** ** swapIn and the prefetch loop *)

Lemma swapIn_effect page frame v :
  same_control v (swapIn page frame v)
  ∧ same_memory v (swapIn page frame v)
  ∧ log_grows quiet v (swapIn page frame v)
  ∧ more_swap_ins 1 (metrics_ v) (metrics_ (swapIn page frame v)).
Proof.
  unfold swapIn. split; [| split; [| split]].
  - rewrite emitEvent_eq. done.
  - rewrite emitEvent_eq. done.
  - apply log_grows_emit; [done |].
    by apply log_grows_same.
  - rewrite emitEvent_eq. done.
Qed.

Lemma swapOut_effect page frame v :
  same_control v (swapOut page frame v)
  ∧ same_memory v (swapOut page frame v)
  ∧ log_grows quiet v (swapOut page frame v)
  ∧ metrics_ (swapOut page frame v) = Metrics.inc_swap_outs (metrics_ v).
Proof.
  unfold swapOut. split; [| split; [| split]].
  - rewrite emitEvent_eq. done.
  - rewrite emitEvent_eq. done.
  - apply log_grows_emit; [done |].
    by apply log_grows_same.
  - rewrite emitEvent_eq. done.
Qed.

Lemma prefetch_one_effect page v q :
  ∃ k, (k <= 1)%nat
    ∧ same_control v (prefetch_one page v q)
    ∧ same_memory v (prefetch_one page v q)
    ∧ log_grows quiet v (prefetch_one page v q)
    ∧ more_swap_ins k (metrics_ v) (metrics_ (prefetch_one page v q)).
Proof.
  unfold prefetch_one.
  destruct (_ && _); [| exists 0%nat; split; [lia |]; repeat split; apply log_grows_refl].
  case_decide; [| exists 0%nat; split; [lia |]; repeat split; apply log_grows_refl].
  exists 1%nat. split; [lia |].
  destruct (swapIn_effect q (findFreeFrame v) v) as (Hc & Hm & Hl & Hs).
  rewrite emitEvent_eq. repeat split; try apply Hc; try apply Hm; try apply Hs.
  rewrite <- emitEvent_eq. apply log_grows_emit; [done | done].
Qed.

Lemma prefetch_effect page predictions v :
  ∃ k, (k <= length predictions)%nat
    ∧ same_control v (prefetch page predictions v)
    ∧ same_memory v (prefetch page predictions v)
    ∧ log_grows quiet v (prefetch page predictions v)
    ∧ more_swap_ins k (metrics_ v) (metrics_ (prefetch page predictions v)).
Proof.
  unfold prefetch. revert v.
  induction predictions as [| q rest IH]; intros v; simpl.
  - exists 0%nat. split; [lia |]. repeat split. apply log_grows_refl.
  - destruct (prefetch_one_effect page v q) as (k1 & Hk1 & Hc1 & Hm1 & Hl1 & Hs1).
    destruct (IH (prefetch_one page v q)) as (k2 & Hk2 & Hc2 & Hm2 & Hl2 & Hs2).
    exists (k2 + k1)%nat. split; [lia |].
    split; [by eapply same_control_trans |].
    split; [by eapply same_memory_trans |].
    split; [by eapply log_grows_trans |].
    by eapply more_swap_ins_trans.
Qed.


(** ** The built-in predictor *)

Lemma mod_total_pages_defined v x :
  total_pages (config_ v) ≠ 0 →
  mod_total_pages v x = Some (Int.mod_size_t x (total_pages (config_ v))).
Proof. intros H. unfold mod_total_pages. by rewrite decide_False. Qed.

Lemma pattern_predictions_defined v a b c :
  total_pages (config_ v) ≠ 0 →
  ∃ x y confidence, pattern_predictions v a b c = Some ([x; y], confidence).
Proof.
  intros H. unfold pattern_predictions.
  repeat case_decide; rewrite !mod_total_pages_defined by done; simpl; eauto.
Qed.

Lemma simulate_prediction_effect v :
  total_pages (config_ v) ≠ 0 →
  ∃ predictions v', simulate_prediction v = Some (predictions, v')
    ∧ (length predictions <= 3)%nat
    ∧ (v' = v ∨ ∃ c, v' = with_ai_prediction_confidence v c).
Proof.
  intros H. unfold simulate_prediction.
  case_decide as Hsize; [| exists [], v; split; [done |]; split; [simpl; lia | by left]].
  pose proof (vec_size_nonneg (recent_accesses_ v)).
  destruct (vec_at_defined (recent_accesses_ v) (vec_size (recent_accesses_ v) - 1))
    as [a ->]; [lia |].
  destruct (vec_at_defined (recent_accesses_ v) (vec_size (recent_accesses_ v) - 2))
    as [b ->]; [lia |].
  destruct (vec_at_defined (recent_accesses_ v) (vec_size (recent_accesses_ v) - 3))
    as [c ->]; [lia |].
  simpl. destruct (pattern_predictions_defined v a b c H) as (x & y & conf & ->).
  simpl. rewrite mod_total_pages_defined by done. simpl.
  eexists _, _. split; [done |]. split; [simpl; lia | right; eauto].
Qed.

(** Every pattern rule yields two candidates, so the third one is always
    appended. *)
Lemma predictions_always_three v :
  total_pages (config_ v) ≠ 0 → 3 <= vec_size (recent_accesses_ v) →
  ∃ a b last_page v',
    simulate_prediction v
    = Some ([a; b; Int.mod_size_t (Int.add last_page 3) (total_pages (config_ v))], v')
    ∧ vec_at (recent_accesses_ v) (vec_size (recent_accesses_ v) - 1) = Some last_page.
Proof.
  intros HP Hsize. unfold simulate_prediction. rewrite decide_True by done.
  destruct (vec_at_defined (recent_accesses_ v) (vec_size (recent_accesses_ v) - 1))
    as [x Hx]; [lia |].
  destruct (vec_at_defined (recent_accesses_ v) (vec_size (recent_accesses_ v) - 2))
    as [y ->]; [lia |].
  destruct (vec_at_defined (recent_accesses_ v) (vec_size (recent_accesses_ v) - 3))
    as [z ->]; [lia |].
  rewrite Hx. simpl.
  destruct (pattern_predictions_defined v x y z HP) as (a & b & conf & ->).
  simpl. rewrite mod_total_pages_defined by done. simpl.
  eexists _, _, _, _. done.
Qed.

Lemma record_predictions_effect predictions v :
  same_control v (record_predictions predictions v)
  ∧ same_memory v (record_predictions predictions v)
  ∧ log_grows quiet v (record_predictions predictions v)
  ∧ more_swap_ins 0 (metrics_ v) (metrics_ (record_predictions predictions v)).
Proof.
  unfold record_predictions. split; [| split; [| split]].
  - rewrite !emitEvent_eq. done.
  - rewrite !emitEvent_eq. done.
  - apply log_grows_emit; [done |].
    apply log_grows_emit; [done |].
    by apply log_grows_same.
  - rewrite !emitEvent_eq. done.
Qed.

Lemma requestAIPredictions_effect v :
  total_pages (config_ v) ≠ 0 →
  ∃ predictions v', requestAIPredictions v = Some (predictions, v')
    ∧ (length predictions <= 3)%nat
    ∧ same_control v v' ∧ same_memory v v' ∧ log_grows quiet v v'
    ∧ more_swap_ins 0 (metrics_ v) (metrics_ v').
Proof.
  intros H. unfold requestAIPredictions.
  destruct (_ || _).
  { exists [], v. split; [done |]. split; [simpl; lia |].
    repeat split. apply log_grows_refl. }
  destruct (simulate_prediction_effect v H) as (preds & v1 & -> & Hlen & Hv1).
  simpl.
  assert (same_control v v1 ∧ same_memory v v1 ∧ log_grows quiet v v1
          ∧ more_swap_ins 0 (metrics_ v) (metrics_ v1)) as (Hc & Hm & Hl & Hs).
  { destruct Hv1 as [-> | [c ->]]; repeat split;
      try apply log_grows_refl.
    by apply log_grows_same. }
  case_bool_decide.
  - destruct (record_predictions_effect preds v1) as (Hc' & Hm' & Hl' & Hs').
    eexists _, _. split; [done |]. split; [done |].
    split; [by eapply same_control_trans |].
    split; [by eapply same_memory_trans |].
    split; [by eapply log_grows_trans |].
    apply (more_swap_ins_trans 0 0 _ _ _ Hs Hs').
  - eexists _, _. split; [done |]. done.
Qed.

(** ** Page-table updates *)

Lemma isPageValid_store p e pt q :
  PT.isPageValid (PT.store p e pt) q
  = if decide (p = q) then valid e else PT.isPageValid pt q.
Proof.
  unfold PT.isPageValid, PT.store. simpl. rewrite lookup_insert.
  case_decide; done.
Qed.

Lemma resident_ok_store F p e pt :
  resident_ok F pt →
  (valid e = true → 0 <= frame_number e < F) →
  resident_ok F (PT.store p e pt).
Proof.
  intros Hpt He q e'. unfold PT.store. simpl. rewrite lookup_insert.
  case_decide; [intros [= <-]; done | exact (Hpt q e')].
Qed.

Lemma resident_ok_entry F pt p :
  resident_ok F pt →
  valid (PT.entry pt p) = true → 0 <= frame_number (PT.entry pt p) < F.
Proof.
  intros Hpt. unfold PT.entry.
  destruct (pages_ pt !! p) as [e |] eqn:He; simpl; [exact (Hpt p e He) | done].
Qed.

Lemma resident_ok_recordPageAccess F p t pt :
  resident_ok F pt → resident_ok F (PT.recordPageAccess p t pt).
Proof.
  intros Hpt. apply resident_ok_store; [done |]. simpl.
  by apply resident_ok_entry.
Qed.

Lemma resident_ok_setPageModified F p b pt :
  resident_ok F pt → resident_ok F (PT.setPageModified p b pt).
Proof.
  intros Hpt. apply resident_ok_store; [done |]. simpl.
  by apply resident_ok_entry.
Qed.

Lemma resident_ok_invalidate F p pt :
  resident_ok F pt → resident_ok F (PT.setPageValid p false pt).
Proof. intros Hpt. apply resident_ok_store; [done |]. simpl. done. Qed.

Lemma resident_ok_bind F p f pt :
  resident_ok F pt → 0 <= f < F →
  resident_ok F (PT.setFrameNumber p f (PT.setPageValid p true pt)).
Proof.
  intros Hpt Hf q e. unfold PT.setFrameNumber, PT.setPageValid, PT.store. simpl.
  rewrite lookup_insert. case_decide; [intros [= <-]; done |].
  rewrite lookup_insert_ne by done. exact (Hpt q e).
Qed.


(** ** The replacement manager *)

Lemma rm_select_spec fv pt rm F :
  vec_size fv = F → 0 < F < Int.int_half → alg_wf F (algorithm_ rm) →
  ∃ f rm', RM.select fv pt rm = Some (f, rm')
    ∧ (f = -1 ∨ 0 <= f < F)
    ∧ alg_wf F (algorithm_ rm').
Proof.
  intros HF HFrange Hwf. destruct rm as [[s | s | s] n]; unfold RM.select; simpl in *.
  - destruct (fifo_select_loop_spec fv F (FIFOReplacement.fifo_queue_ s)
                (FIFOReplacement.in_queue_ s) HF Hwf) as (f & s' & Hrun & Hf & Hq).
    unfold FIFOReplacement.select. rewrite Hrun. simpl.
    eexists _, _. split; [done |]. split; [| done].
    destruct Hf as [| [? _]]; [by left | by right].
  - unfold LRUReplacement.select.
    destruct (lru_scan_spec fv 0 (LRUReplacement.last_access_times_ s)
                Int.ULLONG_MAX (-1)) as (f & Hrun & Hf); [lia | lia | lia | by left |].
    rewrite Hrun. simpl. eexists _, _. split; [done |]. split; [| done].
    destruct Hf; [by left | right; lia].
  - destruct (clock_select_spec fv F pt s HF HFrange Hwf)
      as [(j & Hrun & Hj & _) | (bits & Hrun & Hsize & _)]; rewrite Hrun; simpl.
    + apply vec_at_lt in Hj. eexists _, _. split; [done |].
      split; [right; lia |]. split; [by destruct Hwf |].
      simpl. unfold next_hand. case_decide; lia.
    + eexists _, _. split; [done |]. split; [by left |]. split; [done |].
      by destruct Hwf.
Qed.

Lemma rm_access_wf F f rm :
  alg_wf F (algorithm_ rm) → 0 <= f < F → alg_wf F (algorithm_ (RM.access f rm)).
Proof.
  intros Hwf Hf. destruct rm as [[s | s | s] n]; simpl in *; unfold clock_ok in *.
  - unfold FIFOReplacement.access. case_decide; [done |]. simpl.
    apply Forall_app. split; [done |]. by constructor.
  - unfold LRUReplacement.access. case_decide; [| done]. simpl.
    by rewrite vec_set_size.
  - unfold CLOCKReplacement.access, CLOCKReplacement.set_bit.
    case_decide; [| done]. simpl. by rewrite vec_set_size.
Qed.

(** ** Allocation, eviction, loading *)

Lemma allocateFrame_effect v :
  wf v →
  (allocateFrame v = Some (-1, v)
   ∧ count_bool true (frame_validity_ v) = total_frames (config_ v))
  ∨ (∃ f v', allocateFrame v = Some (f, v') ∧ 0 <= f < total_frames (config_ v)
      ∧ wf v' ∧ same_control v v'
      ∧ event_log v' = event_log v ∧ metrics_ v' = metrics_ v
      ∧ page_table_ v' = page_table_ v
      ∧ count_bool true (frame_validity_ v')
        = count_bool true (frame_validity_ v) + 1).
Proof.
  intros [[HF HP] Hfv Hfp Hfm Hres Halg]. unfold allocateFrame, findFreeFrame.
  destruct (find_free_from_spec (frame_validity_ v) 0) as [[Hnone Hfull] | [Hf Hfree]];
    [lia | lia | |].
  - left. rewrite Hnone. simpl. split; [done |].
    by rewrite count_bool_full.
  - right. set (f := find_free_from (frame_validity_ v) 0) in *.
    rewrite decide_True by lia.
    rewrite !vec_store_defined by lia. simpl.
    eexists _, _. split; [done |]. split; [lia |].
    split; [| split; [done |]].
    + split; simpl; rewrite ?vec_size_insert; done.
    + simpl. split_and!; try done. apply count_bool_occupy.
      by rewrite Z.sub_0_r in Hfree.
Qed.

Lemma evict_victim_effect f v :
  wf v → 0 <= f < total_frames (config_ v) →
  ∃ v', evict_victim f v = Some v'
    ∧ wf v' ∧ same_control v v' ∧ log_grows quiet v v'
    ∧ frame_validity_ v' = frame_validity_ v
    ∧ total_accesses (metrics_ v') = total_accesses (metrics_ v)
    ∧ page_faults (metrics_ v') = page_faults (metrics_ v)
    ∧ swap_ins (metrics_ v') = swap_ins (metrics_ v)
    ∧ (swap_outs (metrics_ v') = swap_outs (metrics_ v)
       ∨ swap_outs (metrics_ v') = Int.incr (swap_outs (metrics_ v))).
Proof.
  intros Hwf Hf. pose proof Hwf as [[HF HP] Hfv Hfp Hfm Hres Halg].
  unfold evict_victim.
  destruct (vec_at_defined (frame_to_page_ v) f) as [victim ->]; [lia |].
  simpl. case_decide.
  2: { exists v. split_and!; try done; [apply log_grows_refl | by left]. }
  simpl.
  destruct (vec_at_defined (frame_modified_ v) f) as [dirty ->]; [lia |].
  simpl. eexists. split; [done |].
  rewrite emitEvent_eq.
  destruct dirty.
  - unfold swapOut. rewrite emitEvent_eq. simpl.
    split; [| split; [done |]; split].
    + split; simpl; try done. by apply resident_ok_invalidate.
    + rewrite <- app_assoc. eexists. split; [done |].
      emitted.
    + split_and!; try done. by right.
  - simpl. split; [| split; [done |]; split].
    + split; simpl; try done. by apply resident_ok_invalidate.
    + eexists. split; [done |].
      emitted.
    + split_and!; try done. by left.
Qed.

Lemma load_page_effect page is_write f v :
  wf v → 0 <= f < total_frames (config_ v) →
  ∃ v', load_page page is_write f v = Some v'
    ∧ wf v' ∧ same_control v v' ∧ log_grows quiet v v'
    ∧ frame_validity_ v' = frame_validity_ v
    ∧ more_swap_ins 1 (metrics_ v) (metrics_ v')
    ∧ PT.isPageValid (page_table_ v') page = true.
Proof.
  intros Hwf Hf. pose proof Hwf as [[HF HP] Hfv Hfp Hfm Hres Halg].
  unfold load_page, swapIn. rewrite emitEvent_eq. simpl.
  destruct is_write; simpl.
  - repeat (rewrite vec_store_defined by (rewrite ?vec_size_insert; lia); simpl).
    eexists. split; [done |]. split; [| split; [done |]; split; [| split; [done |]]].
    + split; simpl; rewrite ?vec_size_insert; try done.
      * apply resident_ok_setPageModified, resident_ok_recordPageAccess.
        by apply resident_ok_bind.
      * by apply rm_access_wf.
    + eexists. simpl. split; [done |].
      emitted.
    + split; [done |]. simpl.
      unfold PT.setPageModified, PT.recordPageAccess, PT.setFrameNumber,
        PT.setPageValid, PT.entry.
      rewrite !isPageValid_store. rewrite decide_True by done. simpl.
      unfold PT.store. simpl. rewrite !lookup_insert_eq. done.
  - repeat (rewrite vec_store_defined by (rewrite ?vec_size_insert; lia); simpl).
    eexists. split; [done |]. split; [| split; [done |]; split; [| split; [done |]]].
    + split; simpl; rewrite ?vec_size_insert; try done.
      * apply resident_ok_recordPageAccess.
        by apply resident_ok_bind.
      * by apply rm_access_wf.
    + eexists. simpl. split; [done |].
      emitted.
    + split; [done |]. simpl.
      unfold PT.recordPageAccess, PT.setFrameNumber, PT.setPageValid, PT.entry.
      rewrite !isPageValid_store. rewrite decide_True by done. simpl.
      unfold PT.store. simpl. rewrite !lookup_insert_eq. done.
Qed.


(** ** Hits *)

Lemma attribute_hit_effect page v :
  same_control v (attribute_hit page v)
  ∧ same_memory v (attribute_hit page v)
  ∧ log_grows quiet v (attribute_hit page v)
  ∧ more_swap_ins 0 (metrics_ v) (metrics_ (attribute_hit page v)).
Proof.
  unfold attribute_hit.
  destruct (_ && _); [| split_and!; try done; apply log_grows_refl].
  case_decide; [| split_and!; try done; apply log_grows_refl].
  rewrite emitEvent_eq. split_and!; try done.
  eexists. simpl. split; [done |].
  emitted.
Qed.

Lemma isPageValid_resident F pt page :
  resident_ok F pt → PT.isPageValid pt page = true →
  0 <= PT.getFrameNumber pt page < F.
Proof.
  unfold PT.isPageValid, PT.getFrameNumber. intros Hres.
  destruct (pages_ pt !! page) as [e |] eqn:He; [| done].
  intros Hv. rewrite Hv. by eapply Hres.
Qed.

Lemma isPageValid_recordPageAccess pt page t q :
  PT.isPageValid (PT.recordPageAccess page t pt) q = PT.isPageValid pt q.
Proof.
  unfold PT.recordPageAccess. rewrite isPageValid_store. case_decide; [| done].
  subst q. simpl. unfold PT.entry, PT.isPageValid.
  by destruct (pages_ pt !! page).
Qed.

Lemma isPageValid_setPageModified pt page b q :
  PT.isPageValid (PT.setPageModified page b pt) q = PT.isPageValid pt q.
Proof.
  unfold PT.setPageModified. rewrite isPageValid_store. case_decide; [| done].
  subst q. simpl. unfold PT.entry, PT.isPageValid.
  by destruct (pages_ pt !! page).
Qed.

Lemma serve_hit_effect page is_write v :
  wf v → PT.isPageValid (page_table_ v) page = true →
  ∃ v', serve_hit page is_write v = Some v'
    ∧ wf v' ∧ same_control v v' ∧ log_grows quiet v v'
    ∧ frame_validity_ v' = frame_validity_ v
    ∧ more_swap_ins 0 (metrics_ v) (metrics_ v')
    ∧ PT.isPageValid (page_table_ v') page = true.
Proof.
  intros Hwf Hvalid. pose proof Hwf as [[HF HP] Hfv Hfp Hfm Hres Halg].
  pose proof (isPageValid_resident _ _ _ Hres Hvalid) as Hframe.
  unfold serve_hit.
  set (f := PT.getFrameNumber (page_table_ v) page) in *.
  set (v1 := with_replacement_manager _ _).
  destruct (attribute_hit_effect page v1)
    as ((Hc1 & Hc2 & Hc3) & (Hm1 & Hm2 & Hm3 & Hm4 & Hm5) & Hlog & Hs).
  set (v2 := attribute_hit page v1) in *.
  assert (wf v2) as Hwf2.
  { split; rewrite ?Hc1, ?Hm1, ?Hm2, ?Hm3, ?Hm4, ?Hm5; simpl; try done.
    - by apply resident_ok_recordPageAccess.
    - by apply rm_access_wf. }
  assert (PT.isPageValid (page_table_ v2) page = true) as Hvalid2.
  { rewrite Hm1. simpl. by rewrite isPageValid_recordPageAccess. }
  destruct is_write; simpl.
  - rewrite vec_store_defined by (rewrite Hm5; simpl; lia). simpl.
    eexists. split; [done |]. rewrite emitEvent_eq.
    destruct Hwf2 as [? ? ? ? ? ?].
    split_and!; simpl; try done; try apply Hs.
    + split; simpl; rewrite ?vec_size_insert; try done.
      by apply resident_ok_setPageModified.
    + destruct Hlog as (events & Hev & Hq). rewrite Hev. simpl.
      rewrite <- app_assoc. eexists. split; [done |].
      apply Forall_app. split; [done |].
      emitted.
    + by rewrite isPageValid_setPageModified.
  - eexists. split; [done |]. rewrite emitEvent_eq.
    destruct Hwf2 as [? ? ? ? ? ?].
    split_and!; simpl; try done; try apply Hs.
    destruct Hlog as (events & Hev & Hq). rewrite Hev. simpl.
    rewrite <- app_assoc. eexists. split; [done |].
    apply Forall_app. split; [done |].
    emitted.
Qed.

(** ** Faults *)

(** What a fault does to the frames and to the counters. *)
Lemma handlePageFault_effect page is_write v :
  wf v →
  ∃ v', handlePageFault page is_write v = Some v'
    ∧ wf v' ∧ same_control v v'
    ∧ total_accesses (metrics_ v') = total_accesses (metrics_ v)
    ∧ page_faults (metrics_ v') = Int.incr (page_faults (metrics_ v))
    ∧ ((* a free frame was taken *)
       (count_bool true (frame_validity_ v')
          = count_bool true (frame_validity_ v) + 1
        ∧ findFreeFrame v ≠ -1
        ∧ swap_ins (metrics_ v') = Int.incr (swap_ins (metrics_ v))
        ∧ swap_outs (metrics_ v') = swap_outs (metrics_ v)
        ∧ log_grows quiet v v'
        ∧ PT.isPageValid (page_table_ v') page = true)
       ∨ (* a victim was replaced *)
       (frame_validity_ v' = frame_validity_ v
        ∧ count_bool true (frame_validity_ v) = total_frames (config_ v)
        ∧ swap_ins (metrics_ v') = Int.incr (swap_ins (metrics_ v))
        ∧ (swap_outs (metrics_ v') = swap_outs (metrics_ v)
           ∨ swap_outs (metrics_ v') = Int.incr (swap_outs (metrics_ v)))
        ∧ log_grows quiet v v'
        ∧ PT.isPageValid (page_table_ v') page = true)
       ∨ (* no victim was found *)
       (frame_validity_ v' = frame_validity_ v
        ∧ count_bool true (frame_validity_ v) = total_frames (config_ v)
        ∧ swap_ins (metrics_ v') = swap_ins (metrics_ v)
        ∧ swap_outs (metrics_ v') = swap_outs (metrics_ v)
        ∧ log_grows benign v v'
        ∧ page_table_ v' = page_table_ v)).
Proof.
  intros Hwf. unfold handlePageFault. rewrite emitEvent_eq.
  set (v1 := with_event_log _ _).
  assert (wf v1) as Hwf1 by (by destruct Hwf).
  assert (log_grows quiet v v1) as Hlog1.
  { eexists. simpl. split; [done |].
    emitted. }
  destruct (allocateFrame_effect v1 Hwf1)
    as [[Hrun Hfull] | (f & v2 & Hrun & Hf & Hwf2 & Hc2 & Hl2 & Hm2 & Hp2 & Hcount)];
    rewrite Hrun; simpl.
  - (* eviction *)
    pose proof Hwf1 as [[HF HP] Hfv Hfp Hfm Hres Halg].
    change (config_ v1) with (config_ v) in *.
    destruct (rm_select_spec (frame_validity_ v1) (page_table_ v1)
                (replacement_manager_ v1) _ Hfv HF Halg)
      as (f & rm & Hsel & Hf & Hrm).
    simpl in Hsel. rewrite Hsel. simpl.
    case_decide as Hnone.
    + eexists. split; [done |]. rewrite emitEvent_eq. simpl.
      split_and!; try done.
      right; right. split_and!; try done.
      eexists. simpl. rewrite <- app_assoc. split; [done |].
      apply Forall_app. split.
      * emitted.
      * emitted.
    + set (v2 := with_replacement_manager v1 rm).
      assert (wf v2) as Hwf2 by (split; simpl; done).
      destruct (evict_victim_effect f v2 Hwf2)
        as (v3 & Hev & Hwf3 & Hc3 & Hl3 & Hfv3 & Ha3 & Hpf3 & Hsi3 & Hso3).
      { unfold v2. simpl. lia. }
      rewrite Hev. simpl.
      destruct (load_page_effect page is_write f v3 Hwf3)
        as (v4 & Hld & Hwf4 & Hc4 & Hl4 & Hfv4 & (Ha4 & Hpf4 & Hsi4 & Hso4) & Hvalid).
      { destruct Hc3 as (-> & _). unfold v2. simpl. lia. }
      exists v4. split; [done |]. split; [done |].
      split; [eapply same_control_trans; [exact Hc3 | exact Hc4] |].
      split; [by rewrite Ha4, Ha3 |].
      split; [by rewrite Hpf4, Hpf3 |].
      right; left. split_and!; try done.
      * by rewrite Hfv4, Hfv3.
      * by rewrite Hsi4, Hsi3.
      * rewrite Hso4. done.
      * eapply log_grows_trans; [exact Hlog1 |].
        eapply log_grows_trans; [| exact Hl4].
        eapply log_grows_trans; [| exact Hl3]. by apply log_grows_same.
  - (* a free frame *)
    rewrite decide_False by lia.
    destruct (load_page_effect page is_write f v2 Hwf2)
      as (v4 & Hld & Hwf4 & Hc4 & Hl4 & Hfv4 & (Ha4 & Hpf4 & Hsi4 & Hso4) & Hvalid).
    { destruct Hc2 as (-> & _). done. }
    exists v4. split; [done |]. split; [done |].
    split; [eapply same_control_trans; [exact Hc2 | exact Hc4] |].
    split; [by rewrite Ha4, Hm2 |].
    split; [by rewrite Hpf4, Hm2 |].
    left. split_and!; try done.
    + by rewrite Hfv4, Hcount.
    + unfold allocateFrame in Hrun. case_decide as Hfree; [done |].
      injection Hrun as <- _. lia.
    + by rewrite Hsi4, Hm2.
    + by rewrite Hso4, Hm2.
    + eapply log_grows_trans; [exact Hlog1 |].
      eapply log_grows_trans; [| exact Hl4]. by apply log_grows_same.
Qed.


(** ** One access *)

Lemma accessPage_effect page is_write v :
  wf v → simulation_running_ v = true →
  ∃ v' k, accessPage page is_write v = Some (true, v')
    ∧ wf v' ∧ same_control v v'
    ∧ total_accesses (metrics_ v') = Int.incr (total_accesses (metrics_ v))
    ∧ (k <= 3)%nat
    ∧ (enable_ai_predictions (config_ v) = false → k = 0%nat)
    ∧ served page v v' k.
Proof.
  intros Hwf Hrun. unfold accessPage. rewrite Hrun. cbn [negb].
  set (v0 := updateRecentAccesses page _).
  assert (wf v0) as Hwf0 by (by destruct Hwf).
  (* the prefetch step *)
  assert (∃ v1 k,
    (if enable_ai_predictions (config_ v0)
        && bool_decide (3 <= vec_size (recent_accesses_ v0))
     then '(predictions, v) ← requestAIPredictions v0;
          Some (prefetch page predictions v)
     else Some v0) = Some v1
    ∧ (k <= 3)%nat
    ∧ (enable_ai_predictions (config_ v) = false → k = 0%nat)
    ∧ same_control v0 v1 ∧ same_memory v0 v1 ∧ log_grows quiet v0 v1
    ∧ more_swap_ins k (metrics_ v0) (metrics_ v1))
    as (v1 & k & -> & Hk & Hoff & Hc1 & Hm1 & Hl1 & Hs1).
  { change (config_ v0) with (config_ v).
    destruct (enable_ai_predictions (config_ v) && _) eqn:Hai.
    - destruct (requestAIPredictions_effect v0)
        as (preds & va & -> & Hlen & Hca & Hma & Hla & Hsa).
      { destruct Hwf0 as [[_ ?] _ _ _ _ _]. lia. }
      simpl.
      destruct (prefetch_effect page preds va) as (k & Hk & Hcb & Hmb & Hlb & Hsb).
      exists (prefetch page preds va), k. split; [done |].
      split; [lia |].
      split; [intros Hoff; by rewrite Hoff in Hai |].
      split; [by eapply same_control_trans |].
      split; [by eapply same_memory_trans |].
      split; [by eapply log_grows_trans |].
      replace k with (k + 0)%nat by lia. by eapply more_swap_ins_trans.
    - exists v0, 0%nat. split_and!; try done; [lia | apply log_grows_refl]. }
  simpl.
  assert (wf v1) as Hwf1 by (eapply wf_same; [apply Hc1 | exact Hm1 | exact Hwf0]).
  assert (same_control v v1) as Hcv by (eapply same_control_trans; [| exact Hc1]; done).
  assert (log_grows quiet v v1) as Hlv
    by (eapply log_grows_trans; [| exact Hl1]; by apply log_grows_same).
  destruct Hm1 as (Hpt1 & Hrm1 & Hfv1 & Hfp1 & Hfm1).
  destruct Hs1 as (Ha1 & Hpf1 & Hsi1 & Hso1).
  change (page_table_ v0) with (page_table_ v) in Hpt1.
  change (frame_validity_ v0) with (frame_validity_ v) in Hfv1.
  change (total_accesses (metrics_ v0))
    with (Int.incr (total_accesses (metrics_ v))) in Ha1.
  change (page_faults (metrics_ v0)) with (page_faults (metrics_ v)) in Hpf1.
  change (swap_ins (metrics_ v0)) with (swap_ins (metrics_ v)) in Hsi1.
  change (swap_outs (metrics_ v0)) with (swap_outs (metrics_ v)) in Hso1.
  destruct (PT.isPageValid (page_table_ v1) page) eqn:Hvalid.
  - destruct (serve_hit_effect page is_write v1 Hwf1 Hvalid)
      as (v2 & -> & Hwf2 & Hc2 & Hl2 & Hfv2 & (Ha2 & Hpf2 & Hsi2 & Hso2) & Hvalid2).
    simpl. exists v2, k. split; [done |]. split; [done |].
    split; [by eapply same_control_trans |].
    split; [by rewrite Ha2 |]. split; [done |]. split; [done |].
    apply served_hit.
    + by rewrite <- Hpt1.
    + by rewrite Hfv2.
    + by rewrite Hpf2.
    + by rewrite Hsi2.
    + by rewrite Hso2.
    + by eapply log_grows_trans.
    + done.
  - destruct (handlePageFault_effect page is_write v1 Hwf1)
      as (v2 & -> & Hwf2 & Hc2 & Ha2 & Hpf2 & Hcase).
    simpl. exists v2, k. split; [done |]. split; [done |].
    split; [by eapply same_control_trans |].
    split; [by rewrite Ha2 |]. split; [done |]. split; [done |].
    assert (config_ v1 = config_ v) as Hcfg by apply Hcv.
    unfold findFreeFrame in Hcase.
    rewrite ?Hfv1, ?Hcfg, ?Hsi1, ?Hso1, ?Hpt1 in Hcase.
    rewrite Hpt1 in Hvalid. rewrite Hpf1 in Hpf2.
    destruct Hcase as [(H1 & H2 & H3 & H4 & H5 & H6)
                      | [(H1 & H2 & H3 & H4 & H5 & H6)
                        | (H1 & H2 & H3 & H4 & H5 & H6)]].
    + apply served_free_frame; try done.
      by eapply log_grows_trans.
    + apply served_victim; try done.
      by eapply log_grows_trans.
    + apply served_no_victim; try done.
      eapply log_grows_trans; [| exact H5].
      eapply log_grows_mono; [apply quiet_benign | done].
Qed.

Lemma accessPage_not_running page is_write v :
  simulation_running_ v = false → accessPage page is_write v = Some (false, v).
Proof. intros Hstopped. unfold accessPage. by rewrite Hstopped. Qed.

(** [stopSimulation] clears the flag, so the accesses that follow it are
    refused. *)
Lemma accessPage_after_stop page is_write v :
  accessPage page is_write (stopSimulation v) = Some (false, stopSimulation v).
Proof.
  apply accessPage_not_running. unfold stopSimulation. by rewrite emitEvent_eq.
Qed.


(** ** Fresh managers *)

Lemma count_bool_replicate_false n : count_bool true (replicate n false) = 0.
Proof.
  induction n as [| n IH]; [done |]. simpl replicate.
  rewrite count_bool_cons, IH. by rewrite decide_False.
Qed.

Lemma wf_VMM_new config : config_ok config → wf (VMM_new config).
Proof.
  intros [HF HP]. split; simpl.
  - done.
  - rewrite vec_size_resize. lia.
  - rewrite vec_size_resize. lia.
  - rewrite vec_size_resize. lia.
  - intros p e Hp. unfold PT.new in Hp. simpl in Hp. by rewrite lookup_empty in Hp.
  - destruct (replacement_policy config); simpl.
    + constructor.
    + rewrite vec_size_replicate. lia.
    + split; simpl; [rewrite vec_size_replicate |]; lia.
Qed.

Lemma wf_fresh callback config : config_ok config → wf (fresh callback config).
Proof.
  intros Hok. unfold fresh, startSimulation. rewrite emitEvent_eq.
  eapply wf_same; [| | apply (wf_VMM_new config Hok)]; by destruct callback.
Qed.

Lemma fresh_metrics callback config : metrics_ (fresh callback config) = Metrics.zero.
Proof. unfold fresh, startSimulation. rewrite emitEvent_eq. by destruct callback. Qed.

Lemma fresh_used callback config : getUsedFrameCount (fresh callback config) = 0.
Proof.
  unfold getUsedFrameCount, fresh, startSimulation. rewrite emitEvent_eq.
  replace (frame_validity_ _) with (replicate (Z.to_nat (total_frames config)) false).
  - apply count_bool_replicate_false.
  - destruct callback; simpl; by rewrite resize_nil.
Qed.

Lemma fresh_config callback config : config_ (fresh callback config) = config.
Proof. unfold fresh, startSimulation. rewrite emitEvent_eq. by destruct callback. Qed.

Lemma fresh_running callback config :
  simulation_running_ (fresh callback config) = true.
Proof. unfold fresh, startSimulation. rewrite emitEvent_eq. by destruct callback. Qed.


(** ** Counters along a run *)

Lemma iter_incr k x :
  0 <= x → x + Z.of_nat k < Int.size_t_modulus →
  Nat.iter k Int.incr x = x + Z.of_nat k.
Proof.
  induction k as [| k IH]; intros Hx Hk; simpl; [lia |].
  rewrite IH by lia. rewrite incr_small by lia. lia.
Qed.

Lemma count_bool_free l n :
  l !! n = Some false → count_bool true l < vec_size l.
Proof.
  intros H. pose proof (count_bool_occupy l n H) as Hocc.
  pose proof (count_bool_bounds true (<[n := true]> l)) as Hb.
  rewrite vec_size_insert in Hb. lia.
Qed.

Lemma findFreeFrame_free v :
  wf v → findFreeFrame v ≠ -1 →
  count_bool true (frame_validity_ v) < total_frames (config_ v).
Proof.
  intros [[HF HP] Hfv _ _ _ _] Hfree. unfold findFreeFrame in Hfree.
  destruct (find_free_from_spec (frame_validity_ v) 0) as [[Hnone _] | [_ Hl]];
    [lia | lia | done |].
  rewrite <- Hfv. by eapply count_bool_free.
Qed.

Lemma accounts_step n page v v' k :
  0 <= n → 4 * (n + 1) < Int.size_t_modulus →
  (k <= 3)%nat →
  (enable_ai_predictions (config_ v) = false → k = 0%nat) →
  config_ v' = config_ v →
  wf v →
  accounts n v → served page v v' k → accounts (n + 1) v'.
Proof.
  intros Hn Hbound Hk Hoff Hcfg Hwf [Houts Hused Hins Hfaults Hexact] Hserved.
  unfold getUsedFrameCount in *.
  assert (Nat.iter k Int.incr (swap_ins (metrics_ v))
          = swap_ins (metrics_ v) + Z.of_nat k) as Hiter.
  { apply iter_incr; [| lia].
    pose proof (count_bool_bounds true (frame_validity_ v)). lia. }
  assert (Nat.iter (S k) Int.incr (swap_ins (metrics_ v))
          = swap_ins (metrics_ v) + Z.of_nat k + 1) as Hiter'.
  { rewrite iter_incr; [lia | | lia].
    pose proof (count_bool_bounds true (frame_validity_ v)). lia. }
  assert (Int.incr (page_faults (metrics_ v)) = page_faults (metrics_ v) + 1)
    as Hpf by (apply incr_small; lia).
  assert (Int.incr (swap_outs (metrics_ v)) = swap_outs (metrics_ v) + 1)
    as Hso.
  { apply incr_small; [lia |].
    pose proof (count_bool_bounds true (frame_validity_ v)). lia. }
  pose proof (count_bool_bounds true (frame_validity_ v)) as Hcount.
  destruct Hserved as [_ Hfv Hf Hi Ho _ _ | _ Hfree Hfv Hf Hi Ho _ _
                      | _ Hfull Hfv Hf Hi Ho _ _ | _ Hfull Hfv Hf Hi Ho _ _];
    rewrite ?Hiter, ?Hiter', ?Hpf, ?Hso in *.
  - split; unfold getUsedFrameCount; rewrite ?Hfv, ?Hf, ?Hi, ?Ho, ?Hcfg; try lia.
    intros Hai Hle. rewrite (Hoff Hai). specialize (Hexact Hai Hle). lia.
  - split; unfold getUsedFrameCount; rewrite ?Hfv, ?Hf, ?Hi, ?Ho, ?Hcfg; try lia.
    intros Hai Hle. rewrite (Hoff Hai).
    assert (page_faults (metrics_ v) <= total_frames (config_ v)) as Hle' by lia.
    specialize (Hexact Hai Hle'). lia.
  - split; unfold getUsedFrameCount; rewrite ?Hfv, ?Hf, ?Hi, ?Hcfg; try lia.
    intros Hai Hle.
    assert (page_faults (metrics_ v) <= total_frames (config_ v)) as Hle' by lia.
    specialize (Hexact Hai Hle'). lia.
  - split; unfold getUsedFrameCount; rewrite ?Hfv, ?Hf, ?Hi, ?Ho, ?Hcfg; try lia.
    intros Hai Hle.
    assert (page_faults (metrics_ v) <= total_frames (config_ v)) as Hle' by lia.
    specialize (Hexact Hai Hle'). lia.
Qed.

Lemma run_accounts accesses : ∀ v n,
  wf v → simulation_running_ v = true → accounts n v →
  0 <= n → 4 * (n + Z.of_nat (length accesses)) < Int.size_t_modulus →
  ∃ v', run accesses v = Some v'
    ∧ wf v' ∧ same_control v v'
    ∧ accounts (n + Z.of_nat (length accesses)) v'.
Proof.
  induction accesses as [| [page is_write] rest IH]; intros v n Hwf Hrun Hacc Hn Hb.
  - exists v. simpl. rewrite Z.add_0_r. done.
  - simpl length in *. simpl run.
    destruct (accessPage_effect page is_write v Hwf Hrun)
      as (v1 & k & -> & Hwf1 & Hc1 & _ & Hk & Hoff & Hserved).
    simpl.
    assert (accounts (n + 1) v1) as Hacc1.
    { eapply accounts_step; try done; [lia | apply Hc1]. }
    destruct (IH v1 (n + 1)) as (v2 & Hrun2 & Hwf2 & Hc2 & Hacc2);
      [done | destruct Hc1 as (_ & -> & _); done | done | lia | lia |].
    exists v2. split; [done |]. split; [done |].
    split; [by eapply same_control_trans |].
    replace (n + Z.of_nat (S (length rest))) with (n + 1 + Z.of_nat (length rest))
      by lia.
    done.
Qed.


(** ** Hit attribution along a run *)

Lemma swapIn_ai page frame v : ai_state (swapIn page frame v) = ai_state v.
Proof. unfold swapIn. by rewrite emitEvent_eq. Qed.

Lemma swapOut_ai page frame v : ai_state (swapOut page frame v) = ai_state v.
Proof. unfold swapOut. by rewrite emitEvent_eq. Qed.

Lemma prefetch_ai page predictions v :
  ai_state (prefetch page predictions v) = ai_state v.
Proof.
  unfold prefetch. revert v. induction predictions as [| q rest IH]; intros v; [done |].
  simpl. rewrite IH. unfold prefetch_one.
  destruct (_ && _); [| done]. case_decide; [| done].
  rewrite emitEvent_eq. apply swapIn_ai.
Qed.

Lemma allocateFrame_ai v f v' :
  allocateFrame v = Some (f, v') → ai_state v' = ai_state v.
Proof.
  unfold allocateFrame. case_decide; [| by intros [= <- <-]].
  intros H0. apply bind_Some in H0 as (fv & _ & H1).
  apply bind_Some in H1 as (fm & _ & H2). by injection H2 as <- <-.
Qed.

Lemma evict_victim_ai f v v' :
  evict_victim f v = Some v' → ai_state v' = ai_state v.
Proof.
  unfold evict_victim. intros H0. apply bind_Some in H0 as (victim & _ & H1).
  case_decide; [| by injection H1 as <-].
  apply bind_Some in H1 as (dirty & _ & H2). injection H2 as <-.
  rewrite emitEvent_eq. destruct dirty; [| done].
  unfold swapOut. by rewrite emitEvent_eq.
Qed.

Lemma load_page_ai page is_write f v v' :
  load_page page is_write f v = Some v' → ai_state v' = ai_state v.
Proof.
  unfold load_page, swapIn. rewrite emitEvent_eq. intros H0.
  apply bind_Some in H0 as (v1 & H1 & H2).
  apply bind_Some in H2 as (pages & _ & H3). injection H3 as <-.
  destruct is_write.
  - apply bind_Some in H1 as (dirty & _ & H4). by injection H4 as <-.
  - by injection H1 as <-.
Qed.

Lemma handlePageFault_ai page is_write v v' :
  handlePageFault page is_write v = Some v' → ai_state v' = ai_state v.
Proof.
  unfold handlePageFault. rewrite emitEvent_eq. intros H0.
  apply bind_Some in H0 as ([f v1] & Halloc & H1).
  apply allocateFrame_ai in Halloc. simpl in Halloc.
  case_decide.
  - apply bind_Some in H1 as ([f' rm] & _ & H2).
    case_decide.
    + injection H2 as <-. by rewrite emitEvent_eq.
    + apply bind_Some in H2 as (v2 & Hevict & H3).
      apply evict_victim_ai in Hevict. apply load_page_ai in H3.
      by rewrite H3, Hevict.
  - apply load_page_ai in H1. by rewrite H1.
Qed.

Lemma serve_hit_ai page is_write v v' :
  serve_hit page is_write v = Some v' →
  ai_predictions (metrics_ v') = ai_predictions (metrics_ v)
  ∧ recent_accesses_ v' = recent_accesses_ v
  ∧ ((ai_hits (metrics_ v') = ai_hits (metrics_ v)
      ∧ recent_predictions_ v' = recent_predictions_ v)
     ∨ (enable_ai_predictions (config_ v) = true
        ∧ recent_predictions_ v ≠ []
        ∧ ai_hits (metrics_ v') = Int.incr (ai_hits (metrics_ v)))).
Proof.
  unfold serve_hit. intros H0. apply bind_Some in H0 as (v1 & H1 & H2).
  injection H2 as <-. rewrite emitEvent_eq.
  set (v0 := with_replacement_manager _ _) in *.
  cbn [metrics_ recent_accesses_ recent_predictions_ with_event_log].
  assert (ai_predictions (metrics_ v1) = ai_predictions (metrics_ (attribute_hit page v0))
          ∧ recent_accesses_ v1 = recent_accesses_ (attribute_hit page v0)
          ∧ ai_hits (metrics_ v1) = ai_hits (metrics_ (attribute_hit page v0))
          ∧ recent_predictions_ v1 = recent_predictions_ (attribute_hit page v0))
    as (-> & -> & -> & ->).
  { destruct is_write.
    - apply bind_Some in H1 as (dirty & _ & H3). by injection H3 as <-.
    - by injection H1 as <-. }
  unfold attribute_hit. change (config_ v0) with (config_ v).
  change (recent_predictions_ v0) with (recent_predictions_ v).
  destruct (enable_ai_predictions (config_ v)); simpl; [| by split_and!; try left].
  case_bool_decide as Hne; simpl; [| by split_and!; try left].
  case_decide; [| by split_and!; try left].
  rewrite emitEvent_eq. simpl. split_and!; try done. by right.
Qed.

Lemma requestAIPredictions_ai v :
  total_pages (config_ v) ≠ 0 →
  enable_ai_predictions (config_ v) = true →
  3 <= vec_size (recent_accesses_ v) →
  ∃ predictions v', requestAIPredictions v = Some (predictions, v')
    ∧ ai_hits (metrics_ v') = ai_hits (metrics_ v)
    ∧ ai_predictions (metrics_ v') = Int.incr (ai_predictions (metrics_ v))
    ∧ recent_accesses_ v' = recent_accesses_ v.
Proof.
  intros HP Hai Hsize. unfold requestAIPredictions. rewrite Hai.
  rewrite bool_decide_false.
  2: { intros Hnil. rewrite Hnil in Hsize. unfold vec_size in Hsize. simpl in Hsize. lia. }
  cbn [negb orb].
  destruct (predictions_always_three v HP Hsize) as (a & b & last & v1 & Hsim & _).
  rewrite Hsim. cbn [mbind option_bind]. rewrite bool_decide_true by done.
  eexists _, _. split; [done |].
  unfold simulate_prediction in Hsim. rewrite decide_True in Hsim by done.
  apply bind_Some in Hsim as (x & _ & Hsim1).
  apply bind_Some in Hsim1 as (y & _ & Hsim2).
  apply bind_Some in Hsim2 as (z & _ & Hsim3).
  apply bind_Some in Hsim3 as ([preds conf] & _ & Hsim4).
  case_decide.
  - apply bind_Some in Hsim4 as (c & _ & Hsim5). injection Hsim5 as _ <-.
    unfold record_predictions. rewrite !emitEvent_eq. done.
  - injection Hsim4 as _ <-.
    unfold record_predictions. rewrite !emitEvent_eq. done.
Qed.

Lemma updateRecentAccesses_size page v :
  vec_size (recent_accesses_ (updateRecentAccesses page v)) < 3 →
  vec_size (recent_accesses_ v) < 3.
Proof.
  unfold updateRecentAccesses, MAX_RECENT_ACCESSES. simpl.
  unfold vec_size. case_decide as Hbig.
  - rewrite length_drop. rewrite length_app in *. simpl in *. lia.
  - rewrite length_app. simpl. lia.
Qed.

Lemma accessPage_ai page is_write v r v' n :
  total_pages (config_ v) ≠ 0 →
  0 <= n → n + 1 < Int.size_t_modulus →
  accessPage page is_write v = Some (r, v') →
  ai_inv n v → ai_inv (n + 1) v'.
Proof.
  intros HP Hn Hbound Hacc [Hhits Hpreds Hwin].
  unfold accessPage in Hacc.
  destruct (negb (simulation_running_ v)).
  { injection Hacc as _ <-. split; [done | lia | done]. }
  set (v0 := updateRecentAccesses page _) in *.
  apply bind_Some in Hacc as (v1 & Hpre & Hrest).
  assert (ai_hits (metrics_ v1) = ai_hits (metrics_ v)
          ∧ recent_accesses_ v1 = recent_accesses_ v0
          ∧ config_ v1 = config_ v
          ∧ ((ai_predictions (metrics_ v1) = Int.incr (ai_predictions (metrics_ v))
              ∧ 3 <= vec_size (recent_accesses_ v0))
             ∨ (ai_predictions (metrics_ v1) = ai_predictions (metrics_ v)
                ∧ recent_predictions_ v1 = recent_predictions_ v
                ∧ (enable_ai_predictions (config_ v) = false
                   ∨ vec_size (recent_accesses_ v0) < 3))))
    as (Hh1 & Hra1 & Hcfg1 & Hcase).
  { change (config_ v0) with (config_ v) in Hpre.
    destruct (enable_ai_predictions (config_ v)) eqn:Hai; simpl in Hpre.
    - case_bool_decide as Hsize.
      + destruct (requestAIPredictions_ai v0 HP Hai Hsize)
          as (preds & va & Hreq & Hha & Hpa & Hra).
        rewrite Hreq in Hpre. simpl in Hpre. injection Hpre as <-.
        pose proof (prefetch_ai page preds va) as Hpf.
        unfold ai_state in Hpf. injection Hpf as Hpf1 Hpf2 Hpf3 Hpf4.
        destruct (requestAIPredictions_effect v0 HP)
          as (preds' & va' & Hreq' & _ & (Hca & _) & _).
        rewrite Hreq in Hreq'. injection Hreq' as <- <-.
        destruct (prefetch_effect page preds va) as (k & _ & (Hcb & _) & _).
        split_and!.
        * by rewrite Hpf1, Hha.
        * by rewrite Hpf3, Hra.
        * by rewrite Hcb, Hca.
        * left. split; [by rewrite Hpf2, Hpa | done].
      + injection Hpre as <-. split_and!; try done. right. split_and!; try done.
        right. apply Z.nle_gt. exact Hsize.
    - injection Hpre as <-. split_and!; try done. right. split_and!; try done.
      by left. }
  assert (recent_predictions_ v1 ≠ [] → enable_ai_predictions (config_ v) = true →
          ai_predictions (metrics_ v1) = Int.incr (ai_predictions (metrics_ v)))
    as Hcredit.
  { intros Hne Hai. destruct Hcase as [[? _] | (_ & Hrp & [Hoff | Hsmall])]; [done | |].
    - congruence.
    - apply updateRecentAccesses_size in Hsmall. rewrite Hrp, Hwin in Hne; done. }
  assert (Int.incr (ai_predictions (metrics_ v)) = ai_predictions (metrics_ v) + 1)
    as Hincr by (apply incr_small; lia).
  assert (Int.incr (ai_hits (metrics_ v)) = ai_hits (metrics_ v) + 1)
    as Hincr' by (apply incr_small; lia).
  assert (vec_size (recent_accesses_ v0) < 3 → recent_predictions_ v1 = []) as Hwin1.
  { intros Hsmall. destruct Hcase as [[_ ?] | (_ & Hrp & _)]; [lia |].
    rewrite Hrp. apply Hwin. by apply updateRecentAccesses_size in Hsmall. }
  destruct (PT.isPageValid (page_table_ v1) page).
  - apply bind_Some in Hrest as (v2 & Hhit & Hret). injection Hret as _ <-.
    apply serve_hit_ai in Hhit as (Hp2 & Hra2 & Hcase2).
    rewrite Hcfg1 in Hcase2.
    destruct Hcase2 as [[Hh2 Hrp2] | (Hai & Hne & Hh2)].
    + split.
      * rewrite Hh2, Hp2, Hh1. destruct Hcase as [[-> _] | (-> & _)]; lia.
      * rewrite Hp2. destruct Hcase as [[-> _] | (-> & _)]; lia.
      * rewrite Hra2, Hra1, Hrp2. done.
    + specialize (Hcredit Hne Hai). split.
      * rewrite Hh2, Hp2, Hh1, Hcredit. lia.
      * rewrite Hp2, Hcredit. lia.
      * rewrite Hra2, Hra1. intros Hsmall. specialize (Hwin1 Hsmall). done.
  - apply bind_Some in Hrest as (v2 & Hfault & Hret). injection Hret as _ <-.
    apply handlePageFault_ai in Hfault. unfold ai_state in Hfault.
    injection Hfault as Hh2 Hp2 Hra2 Hrp2. split.
    + rewrite Hh2, Hp2, Hh1. destruct Hcase as [[-> _] | (-> & _)]; lia.
    + rewrite Hp2. destruct Hcase as [[-> _] | (-> & _)]; lia.
    + rewrite Hra2, Hra1, Hrp2. done.
Qed.

(** ** Every operation keeps the state well formed *)

Lemma wf_setConfig config v : config_ok config → wf (setConfig config v).
Proof.
  intros [HF HP]. split; simpl.
  - done.
  - rewrite vec_size_resize. lia.
  - rewrite vec_size_resize. lia.
  - rewrite vec_size_resize. lia.
  - intros p e Hp. unfold PT.new in Hp. simpl in Hp. by rewrite lookup_empty in Hp.
  - destruct (replacement_policy config); simpl.
    + constructor.
    + rewrite vec_size_replicate. lia.
    + split; simpl; [rewrite vec_size_replicate |]; lia.
Qed.

Lemma setAIPredictions_effect predicted_pages v :
  same_control v (setAIPredictions predicted_pages v)
  ∧ same_memory v (setAIPredictions predicted_pages v).
Proof.
  unfold setAIPredictions. rewrite emitEvent_eq.
  set (v0 := with_event_log _ _).
  assert (same_control v v0 ∧ same_memory v v0) as Hstart by done.
  clearbody v0. revert v0 Hstart.
  induction predicted_pages as [| q rest IH]; intros v0 Hstart; [done |].
  simpl. apply IH. unfold install_prediction.
  destruct (negb _); [| done]. case_decide; [| done].
  unfold swapIn. rewrite !emitEvent_eq. done.
Qed.

Lemma exec_wf op v :
  op_ok op → wf v → ∃ v', exec op v = Some v' ∧ wf v'.
Proof.
  intros Hop Hwf. destruct op as [page is_write | | | config | | installed | pages]; simpl.
  - destruct (simulation_running_ v) eqn:Hrun.
    + destruct (accessPage_effect page is_write v Hwf Hrun) as (v' & k & -> & Hwf' & _).
      by exists v'.
    + rewrite accessPage_not_running by done. by exists v.
  - eexists. split; [done |]. unfold startSimulation. rewrite emitEvent_eq.
    eapply wf_same; [| | exact Hwf]; done.
  - eexists. split; [done |]. unfold stopSimulation. rewrite emitEvent_eq.
    eapply wf_same; [| | exact Hwf]; done.
  - eexists. split; [done |]. by apply wf_setConfig.
  - eexists. split; [done |]. eapply wf_same; [| | exact Hwf]; done.
  - eexists. split; [done |]. eapply wf_same; [| | exact Hwf]; done.
  - eexists. split; [done |].
    destruct (setAIPredictions_effect pages v) as [Hc Hm].
    eapply wf_same; [apply Hc | exact Hm | exact Hwf].
Qed.

Lemma exec_ai op v v' n :
  wf v → ¬ is_setAIPredictions op →
  0 <= n → n + 1 < Int.size_t_modulus →
  exec op v = Some v' → ai_inv n v → ai_inv (n + 1) v'.
Proof.
  intros Hwf Hop Hn Hbound Hexec Hinv.
  destruct op as [page is_write | | | config | | installed | pages]; simpl in *.
  - apply fmap_Some in Hexec as ([r v1] & Hacc & ->). simpl.
    eapply accessPage_ai; try done.
    destruct Hwf as [[_ ?] _ _ _ _ _]. lia.
  - injection Hexec as <-. unfold startSimulation. rewrite emitEvent_eq.
    destruct Hinv. split; simpl; [done | lia | done].
  - injection Hexec as <-. unfold stopSimulation. rewrite emitEvent_eq.
    destruct Hinv. split; simpl; [done | lia | done].
  - injection Hexec as <-. destruct Hinv. split; simpl; [done | lia | done].
  - injection Hexec as <-. destruct Hinv. split; simpl; [done | lia | done].
  - injection Hexec as <-. destruct Hinv. split; simpl; [done | lia | done].
  - done.
Qed.


Lemma exec_all_ai ops : ∀ v n,
  Forall op_ok ops → Forall (λ op, ¬ is_setAIPredictions op) ops →
  wf v → ai_inv n v →
  0 <= n → n + Z.of_nat (length ops) < Int.size_t_modulus →
  ∃ v', exec_all ops v = Some v' ∧ wf v' ∧ ai_inv (n + Z.of_nat (length ops)) v'.
Proof.
  induction ops as [| op rest IH]; intros v n Hops Hnot Hwf Hinv Hn Hbound.
  - exists v. simpl. by rewrite Z.add_0_r.
  - inversion Hops as [| ? ? Hop Hrest]; subst.
    inversion Hnot as [| ? ? Hop' Hrest']; subst.
    simpl length in *.
    destruct (exec_wf op v Hop Hwf) as (v1 & Hexec & Hwf1).
    assert (ai_inv (n + 1) v1) as Hinv1
      by (apply (exec_ai op v v1 n Hwf Hop'); [lia | lia | done | done]).
    destruct (IH v1 (n + 1)) as (v2 & Hrun & Hwf2 & Hinv2); try done; try lia.
    exists v2. simpl. rewrite Hexec. simpl. split; [done |]. split; [done |].
    replace (n + Z.of_nat (S (length rest))) with (n + 1 + Z.of_nat (length rest))
      by lia.
    done.
Qed.

(** Without [setAIPredictions], hits never exceed predictions. *)
Lemma hits_bounded_without_setAIPredictions config ops :
  config_ok config →
  Forall op_ok ops → Forall (λ op, ¬ is_setAIPredictions op) ops →
  Z.of_nat (length ops) < Int.size_t_modulus →
  ∃ v, exec_all ops (VMM_new config) = Some v
    ∧ getAIHits v <= getAIPredictions v.
Proof.
  intros Hok Hops Hnot Hbound.
  destruct (exec_all_ai ops (VMM_new config) 0) as (v & Hrun & _ & [Hh _ _]);
    try done; try lia.
  - by apply wf_VMM_new.
  - exists v. split; [done |]. unfold getAIHits, getAIPredictions. lia.
Qed.


(** ** More on the policies and on setConfig *)

(** CLOCK finds a victim exactly when an occupied frame has a clear
    reference bit; when every occupied frame is referenced it clears the
    bits and reports none. *)
Lemma clock_all_referenced_no_victim fv F pt s :
  vec_size fv = F → 0 < F < Int.int_half → clock_ok F s →
  (∀ j, occupied fv j → vec_at (CLOCKReplacement.reference_bits_ s) j = Some true) →
  ∃ bits, CLOCKReplacement.select fv pt s
            = Some (-1, CLOCKReplacement.mk bits (CLOCKReplacement.clock_hand_ s))
    ∧ ∀ j, occupied fv j → vec_at bits j = Some false.
Proof.
  intros HF HFrange Hok Hall.
  destruct (clock_select_spec fv F pt s HF HFrange Hok)
    as [(j & _ & Hj & Hclear) | (bits & Hrun & _ & _ & Hbits & _)].
  - unfold unreferenced in Hclear. rewrite (Hall j Hj) in Hclear. done.
  - exists bits. done.
Qed.

Lemma clock_unreferenced_victim fv F pt s j :
  vec_size fv = F → 0 < F < Int.int_half → clock_ok F s →
  occupied fv j → unreferenced s j →
  ∃ f s', CLOCKReplacement.select fv pt s = Some (f, s')
    ∧ occupied fv f ∧ unreferenced s f.
Proof.
  intros HF HFrange Hok Hj Hclear.
  destruct (clock_select_spec fv F pt s HF HFrange Hok)
    as [(f & Hrun & Hf & Hfclear) | (bits & _ & _ & Hall & _)].
  - eexists _, _. done.
  - unfold unreferenced in Hclear. rewrite (Hall j Hj) in Hclear. done.
Qed.

(** FIFO returns the head of its queue without dequeuing it, and an
    access to a frame that is in the queue changes nothing: as long as the
    head frame stays occupied, it is the victim of every selection. *)
Lemma fifo_victim_stays_at_head fv pt f queue members :
  occupied fv f →
  FIFOReplacement.select fv pt (FIFOReplacement.mk (f :: queue) members)
  = Some (f, FIFOReplacement.mk (f :: queue) members).
Proof.
  intros Hf. unfold FIFOReplacement.select. simpl.
  unfold occupied in Hf. by rewrite Hf.
Qed.

Lemma fifo_access_known_frame f s :
  f ∈ FIFOReplacement.in_queue_ s → FIFOReplacement.access f s = s.
Proof. intros Hf. unfold FIFOReplacement.access. by rewrite decide_True. Qed.

(** What [setConfig] does to the metrics, the page table and the frame
    vectors. *)
Lemma setConfig_effect config v :
  metrics_ (setConfig config v) = metrics_ v
  ∧ pages_ (page_table_ (setConfig config v)) = ∅
  ∧ replacement_manager_ (setConfig config v)
    = RM.new (replacement_policy config) (total_frames config)
  ∧ frame_validity_ (setConfig config v)
    = resize (Z.to_nat (total_frames config)) false (frame_validity_ v)
  ∧ frame_to_page_ (setConfig config v)
    = resize (Z.to_nat (total_frames config)) (-1) (frame_to_page_ v)
  ∧ frame_modified_ (setConfig config v)
    = resize (Z.to_nat (total_frames config)) false (frame_modified_ v).
Proof. done. Qed.

Lemma vec_at_app_r {A} (w l : list A) i :
  0 <= i → vec_at (w ++ l) (vec_size w + i) = vec_at l i.
Proof.
  intros Hi. unfold vec_at, vec_size. rewrite !decide_True by lia.
  rewrite lookup_app_r by lia. f_equal. lia.
Qed.

Lemma full_no_free_frame v :
  wf v → count_bool true (frame_validity_ v) = total_frames (config_ v) →
  findFreeFrame v = -1.
Proof.
  intros Hwf Hfull. destruct (decide (findFreeFrame v = -1)) as [| Hfree]; [done |].
  pose proof (findFreeFrame_free v Hwf Hfree). lia.
Qed.

(** A prefetch that finds a free frame for a non-resident page counts a
    swap-in and leaves the frame free and the page invalid. *)
Lemma prefetch_one_installs_nothing page v q :
  q ≠ page → PT.isPageValid (page_table_ v) q = false → findFreeFrame v ≠ -1 →
  swap_ins (metrics_ (prefetch_one page v q)) = Int.incr (swap_ins (metrics_ v))
  ∧ frame_validity_ (prefetch_one page v q) = frame_validity_ v
  ∧ frame_to_page_ (prefetch_one page v q) = frame_to_page_ v
  ∧ findFreeFrame (prefetch_one page v q) = findFreeFrame v
  ∧ PT.isPageValid (page_table_ (prefetch_one page v q)) q = false.
Proof.
  intros Hne Hinvalid Hfree. unfold prefetch_one.
  rewrite bool_decide_true by done. rewrite Hinvalid. cbn [negb andb].
  rewrite decide_True by done. unfold swapIn, findFreeFrame.
  rewrite !emitEvent_eq. done.
Qed.

(** * The claims *)

(** C1 (contradicted by the code).  The prefetch step of [accessPage]
    calls [swapIn] only.  On a manager with 4 frames and 16 pages that has
    served 4 and 5, the access to 6 predicts 7, 8 and 9; frame 2 is free
    and page 7 is not resident, yet after the access page 7 is still not
    valid, frame 2 holds page 6, four swap-ins were counted and one frame
    more is occupied. *)
Theorem prefetch_counts_without_installing :
  ∃ v2 v3,
    run (reads [4; 5]) (started clock_4_16_ai) = Some v2
    ∧ accessPage 6 false v2 = Some (true, v3)
    ∧ has_event "AI" "Predicted {7, 8, 9}" v3
    ∧ findFreeFrame v2 = 2
    ∧ PT.isPageValid (page_table_ v2) 7 = false
    ∧ has_event "AI" "Prefetched page 7 based on AI prediction" v3
    ∧ PT.isPageValid (page_table_ v3) 7 = false
    ∧ frame_validity_ v3 = [true; true; true; false]
    ∧ frame_to_page_ v3 = [4; 5; 6; -1]
    ∧ getSwapIns v3 = getSwapIns v2 + 4
    ∧ getUsedFrameCount v3 = getUsedFrameCount v2 + 1.
Proof.
  do 2 eexists. split; [vm_compute; reflexivity |].
  split; [vm_compute; reflexivity |].
  unfold has_event. rewrite !list_elem_of_In.
  split_and!; try (vm_compute; reflexivity); vm_compute; tauto.
Qed.

(** C2 (contradicted by the code).  [setAIPredictions] counts every
    prefetch as a hit: one call with two non-resident pages on a fresh
    manager leaves [ai_hits = 2] with [ai_predictions = 1]. *)
Theorem setAIPredictions_counts_prefetches_as_hits :
  ∃ v, exec_all [Start; SetAIPredictions [1; 2]] (VMM_new fifo_3_8) = Some v
    ∧ getAIHits v = 2 ∧ getAIPredictions v = 1
    ∧ getTotalAccesses v = 0
    ∧ ¬ (getAIHits v <= getAIPredictions v).
Proof.
  eexists. split; [vm_compute; reflexivity |].
  vm_compute. split_and!; done.
Qed.


(** C4 (contradicted by the code).  With both frames occupied and both
    reference bits set, the first pass finds no unreferenced frame and the
    second pass clears each bit as it passes, so [selectVictimFrame]
    returns -1.  In the manager: with two frames under CLOCK, the third
    distinct page raises "No victim frame found" and is not loaded. *)
Theorem clock_reports_no_victim_with_frames_occupied :
  (∀ pt, CLOCKReplacement.select [true; true] pt
           (CLOCKReplacement.mk [true; true] 0)
         = Some (-1, CLOCKReplacement.mk [false; false] 0))
  ∧ ∃ v, run (reads [1; 2; 3]) (started clock_2_8) = Some v
      ∧ has_event "ERROR" "No victim frame found" v
      ∧ PT.isPageValid (page_table_ v) 3 = false
      ∧ frame_validity_ v = [true; true]
      ∧ getPageFaults v = 3 ∧ getSwapIns v = 2.
Proof.
  split; [intros pt; vm_compute; reflexivity |].
  eexists. split; [vm_compute; reflexivity |].
  unfold has_event. rewrite list_elem_of_In.
  split_and!; try (vm_compute; reflexivity). vm_compute. tauto.
Qed.

(** C5 (contradicted by the code).  FIFO never dequeues the frame it
    returns, so the head of its queue, frame 0, is the victim of every
    replacement.  The sequence yields 9 page faults, but leaves pages 2, 3
    and 5 resident, not 3, 4 and 5. *)
Theorem belady_fifo_run :
  ∃ v, run belady (started fifo_3_8) = Some v
    ∧ getPageFaults v = 9
    ∧ frame_to_page_ v = [5; 2; 3]
    ∧ list_to_set (getValidPages v) =@{gset Z} {[2; 3; 5]}
    ∧ list_to_set (getValidPages v) ≠@{gset Z} {[3; 4; 5]}.
Proof.
  eexists. split; [vm_compute; reflexivity |].
  split_and!; try (vm_compute; reflexivity). vm_compute. done.
Qed.

(** C6 (contradicted by the code).  [setConfig] resizes the frame vectors,
    which keeps the elements they hold: after a write to page 1 on two
    frames, re-applying the configuration leaves frame 0 occupied, dirty
    and holding page 1, while the rebuilt page table has no valid page.
    The metrics are unchanged. *)
Theorem setConfig_keeps_frame_contents :
  ∃ v, run (writes [1]) (started fifo_2_8) = Some v
    ∧ frame_validity_ (setConfig fifo_2_8 v) = [true; false]
    ∧ frame_to_page_ (setConfig fifo_2_8 v) = [1; -1]
    ∧ frame_modified_ (setConfig fifo_2_8 v) = [true; false]
    ∧ getUsedFrameCount (setConfig fifo_2_8 v) = 1
    ∧ getValidPages (setConfig fifo_2_8 v) = []
    ∧ metrics_ (setConfig fifo_2_8 v) = metrics_ v.
Proof.
  eexists. split; [vm_compute; reflexivity |].
  split_and!; vm_compute; reflexivity.
Qed.

(** C7, as stated, fails: with 8 pages, an access to page 100 is served
    like any other; the page gets an entry and becomes valid, the access
    is counted and no [ERROR] event is emitted. *)
Lemma page_100_of_8_is_served :
  ∃ v, accessPage 100 false (started fifo_3_8) = Some (true, v)
    ∧ PT.isPageValid (page_table_ v) 100 = true
    ∧ PT.getFrameNumber (page_table_ v) 100 = 0
    ∧ getTotalAccesses v = 1
    ∧ Forall quiet (event_log v)
    ∧ PT.isPageValid (PT.setPageValid 100 true (PT.new 4096 8)) 100 = true.
Proof.
  eexists. split; [vm_compute; reflexivity |].
  split_and!; try (vm_compute; reflexivity).
  vm_compute. repeat constructor; discriminate.
Qed.

(** C7 (amended).  No operation compares a page number with
    [total_pages].  For every page number, [setPageValid] creates or
    updates the entry; and on a running manager in a well-formed state
    [accessPage] returns true, counts the access, emits no [ERROR] other
    than "No victim frame found", and leaves the page valid unless it was
    not resident, no frame was free and no victim was found. *)
Theorem accessPage_serves_any_page_number page is_write v :
  wf v → simulation_running_ v = true →
  (∀ pt b, PT.isPageValid (PT.setPageValid page b pt) page = b
           ∧ total_pages_ (PT.setPageValid page b pt) = total_pages_ pt)
  ∧ ∃ v', accessPage page is_write v = Some (true, v')
      ∧ getTotalAccesses v' = Int.incr (getTotalAccesses v)
      ∧ log_grows benign v v'
      ∧ (PT.isPageValid (page_table_ v') page = true
         ∨ (PT.isPageValid (page_table_ v) page = false
            ∧ findFreeFrame v = -1
            ∧ page_table_ v' = page_table_ v)).
Proof.
  intros Hwf Hrun. split.
  { intros pt b. unfold PT.setPageValid. rewrite isPageValid_store.
    by rewrite decide_True. }
  destruct (accessPage_effect page is_write v Hwf Hrun)
    as (v' & k & Hacc & _ & _ & Htotal & _ & _ & Hserved).
  exists v'. split; [done |]. split; [done |].
  destruct Hserved as [_ _ _ _ _ Hlog Hvalid | _ _ _ _ _ _ Hlog Hvalid
                      | _ _ _ _ _ _ Hlog Hvalid | Hinvalid Hfull _ _ _ _ Hlog Hpt].
  - split; [| by left]. eapply log_grows_mono; [apply quiet_benign | done].
  - split; [| by left]. eapply log_grows_mono; [apply quiet_benign | done].
  - split; [| by left]. eapply log_grows_mono; [apply quiet_benign | done].
  - split; [done |]. right. split; [done |]. split; [| done].
    by apply full_no_free_frame.
Qed.

Lemma accessPage_serves_any_page_number_witness :
  wf (started fifo_3_8)
  ∧ simulation_running_ (started fifo_3_8) = true
  ∧ (∀ pt b, PT.isPageValid (PT.setPageValid 100 b pt) 100 = b
             ∧ total_pages_ (PT.setPageValid 100 b pt) = total_pages_ pt)
  ∧ ∃ v', accessPage 100 false (started fifo_3_8) = Some (true, v')
      ∧ getTotalAccesses v' = Int.incr (getTotalAccesses (started fifo_3_8))
      ∧ log_grows benign (started fifo_3_8) v'
      ∧ (PT.isPageValid (page_table_ v') 100 = true
         ∨ (PT.isPageValid (page_table_ (started fifo_3_8)) 100 = false
            ∧ findFreeFrame (started fifo_3_8) = -1
            ∧ page_table_ v' = page_table_ (started fifo_3_8))).
Proof.
  assert (wf (started fifo_3_8)) as Hwf by (apply wf_fresh; vm_compute; done).
  assert (simulation_running_ (started fifo_3_8) = true) as Hrun by reflexivity.
  split; [exact Hwf |]. split; [exact Hrun |].
  exact (accessPage_serves_any_page_number 100 false (started fifo_3_8) Hwf Hrun).
Defined.

(** C8, as stated, fails: on the window 4, 5, 6 with 1024 pages the
    predictor returns 7, 8 and 9, not just 7 and 8. *)
Lemma window_456_predicts_9_too :
  ∃ predictions v', requestAIPredictions window_456 = Some (predictions, v')
    ∧ predictions = [7; 8; 9]
    ∧ ¬ (∀ q, q ∈ predictions ↔ q ∈ [7; 8]).
Proof.
  eexists _, _. split; [vm_compute; reflexivity |]. split; [reflexivity |].
  intros H. assert (9 ∈ [7; 8]) as Hin.
  { apply H. rewrite list_elem_of_In. simpl. tauto. }
  rewrite list_elem_of_In in Hin. simpl in Hin. lia.
Qed.

(** C8 (amended).  When the last three entries of the recent-access
    window are 4, 5, 6 and predictions are enabled, the built-in predictor
    returns the three candidates 7, 8 and 9, each taken mod [total_pages],
    with confidence 0.85: the sequential rule gives the first two, and
    since that is fewer than three, the third is appended.  The call
    counts as one prediction. *)
Theorem sequential_456_predicts_7_8_9 window v :
  enable_ai_predictions (config_ v) = true →
  0 < total_pages (config_ v) < Int.size_t_modulus →
  recent_accesses_ v = window ++ [4; 5; 6] →
  ∃ v', requestAIPredictions v
        = Some ([7 `mod` total_pages (config_ v);
                 8 `mod` total_pages (config_ v);
                 9 `mod` total_pages (config_ v)], v')
    ∧ getAIPredictionConfidence v' = 0.85%float
    ∧ getAIPredictions v' = Int.incr (getAIPredictions v).
Proof.
  intros Hai HP Hwin. unfold requestAIPredictions. rewrite Hai, Hwin.
  rewrite bool_decide_false by (by destruct window).
  cbn [negb orb]. unfold simulate_prediction. rewrite Hwin.
  assert (vec_size (window ++ [4; 5; 6]) = vec_size window + 3) as Hsize
    by (unfold vec_size; rewrite length_app; simpl; lia).
  pose proof (vec_size_nonneg window).
  rewrite decide_True by lia. rewrite Hsize.
  replace (vec_size window + 3 - 1) with (vec_size window + 2) by lia.
  replace (vec_size window + 3 - 2) with (vec_size window + 1) by lia.
  replace (vec_size window + 3 - 3) with (vec_size window + 0) by lia.
  rewrite !vec_at_app_r by lia.
  change (vec_at [4; 5; 6] 2) with (Some 6).
  change (vec_at [4; 5; 6] 1) with (Some 5).
  change (vec_at [4; 5; 6] 0) with (Some 4).
  cbn [mbind option_bind]. unfold pattern_predictions.
  rewrite decide_True by (split; reflexivity).
  rewrite !mod_total_pages_defined by lia.
  cbn [mbind option_bind].
  rewrite decide_True by (vm_compute; reflexivity).
  rewrite mod_total_pages_defined by (simpl; lia).
  cbn [mbind option_bind].
  rewrite bool_decide_true by done.
  change (Int.add 6 1) with 7. change (Int.add 6 2) with 8.
  change (Int.add 6 3) with 9.
  change (config_ (with_ai_prediction_confidence v 0.85)) with (config_ v).
  rewrite !mod_size_t_small by (done || lia).
  eexists. split; [reflexivity |].
  unfold record_predictions. rewrite !emitEvent_eq. done.
Qed.

Lemma sequential_456_predicts_7_8_9_witness :
  enable_ai_predictions (config_ window_456) = true
  ∧ 0 < total_pages (config_ window_456) < Int.size_t_modulus
  ∧ recent_accesses_ window_456 = [] ++ [4; 5; 6]
  ∧ ∃ v', requestAIPredictions window_456
          = Some ([7 `mod` total_pages (config_ window_456);
                   8 `mod` total_pages (config_ window_456);
                   9 `mod` total_pages (config_ window_456)], v')
      ∧ getAIPredictionConfidence v' = 0.85%float
      ∧ getAIPredictions v' = Int.incr (getAIPredictions window_456).
Proof.
  assert (enable_ai_predictions (config_ window_456) = true) as Hai by reflexivity.
  assert (0 < total_pages (config_ window_456) < Int.size_t_modulus) as HP
    by (vm_compute; done).
  assert (recent_accesses_ window_456 = [] ++ [4; 5; 6]) as Hwin by reflexivity.
  split; [exact Hai |]. split; [exact HP |]. split; [exact Hwin |].
  exact (sequential_456_predicts_7_8_9 [] window_456 Hai HP Hwin).
Defined.

(** C9.  While [simulation_running_] is false, [accessPage] returns false
    and the manager, its event log included, is exactly what it was. *)
Theorem accessPage_stopped page is_write v :
  simulation_running_ v = false →
  accessPage page is_write v = Some (false, v).
Proof. intros Hstopped. unfold accessPage. by rewrite Hstopped. Qed.

Lemma accessPage_stopped_witness :
  simulation_running_ (stopSimulation (started fifo_3_8)) = false
  ∧ accessPage 3 true (stopSimulation (started fifo_3_8))
    = Some (false, stopSimulation (started fifo_3_8)).
Proof.
  assert (simulation_running_ (stopSimulation (started fifo_3_8)) = false)
    as Hstopped by reflexivity.
  split; [exact Hstopped |].
  exact (accessPage_stopped 3 true (stopSimulation (started fifo_3_8)) Hstopped).
Defined.

(** The guard is needed: the unguarded quotient is not a number. *)
Example zero_by_zero_is_nan :
  PrimFloat.div (double_of_size_t 0) (double_of_size_t 0) = nan.
Proof. reflexivity. Qed.

(** C10.  With [total_accesses = 0] both page-fault-rate accessors return
    0.0, and with [ai_predictions = 0] both hit-rate accessors return 0.0,
    whatever the other counters hold. *)
Theorem rates_at_zero_denominator v :
  (total_accesses (metrics_ v) = 0 →
     getPageFaultRate v = 0%float
     ∧ Metrics.getPageFaultRate (metrics_ v) = 0%float)
  ∧ (ai_predictions (metrics_ v) = 0 →
     getAIHitRate v = 0%float
     ∧ Metrics.getAIHitRate (metrics_ v) = 0%float).
Proof.
  unfold getPageFaultRate, getAIHitRate,
    Metrics.getPageFaultRate, Metrics.getAIHitRate.
  split; intros ->; split; reflexivity.
Qed.

Lemma rates_at_zero_denominator_witness :
  total_accesses (metrics_ (started fifo_3_8)) = 0
  ∧ ai_predictions (metrics_ (started fifo_3_8)) = 0
  ∧ getPageFaultRate (started fifo_3_8) = 0%float
  ∧ Metrics.getPageFaultRate (metrics_ (started fifo_3_8)) = 0%float
  ∧ getAIHitRate (started fifo_3_8) = 0%float
  ∧ Metrics.getAIHitRate (metrics_ (started fifo_3_8)) = 0%float.
Proof.
  assert (total_accesses (metrics_ (started fifo_3_8)) = 0) as Ha by reflexivity.
  assert (ai_predictions (metrics_ (started fifo_3_8)) = 0) as Hp by reflexivity.
  split; [exact Ha |]. split; [exact Hp |].
  destruct (rates_at_zero_denominator (started fifo_3_8)) as [Hfault Hhit].
  destruct (Hfault Ha) as [H1 H2]. destruct (Hhit Hp) as [H3 H4].
  split; [exact H1 |]. split; [exact H2 |]. split; [exact H3 | exact H4].
Defined.

(** * Properties of the manager beyond the specification's claims *)







(** ** Entries of the page table *)

Lemma entry_store p e pt q :
  PT.entry (PT.store p e pt) q = if decide (p = q) then e else PT.entry pt q.
Proof.
  unfold PT.entry, PT.store. simpl. case_decide as Hq.
  - subst. by rewrite lookup_insert_eq.
  - by rewrite lookup_insert_ne.
Qed.

Lemma isPageValid_entry pt q : PT.isPageValid pt q = valid (PT.entry pt q).
Proof. unfold PT.isPageValid, PT.entry. by destruct (pages_ pt !! q). Qed.

Lemma getFrameNumber_entry pt q :
  PT.getFrameNumber pt q
  = if valid (PT.entry pt q) then frame_number (PT.entry pt q) else -1.
Proof. unfold PT.getFrameNumber, PT.entry. by destruct (pages_ pt !! q). Qed.

Lemma resident_entry v q :
  resident v q
  = if valid (PT.entry (page_table_ v) q)
    then Some (frame_number (PT.entry (page_table_ v) q)) else None.
Proof.
  unfold resident. rewrite isPageValid_entry, getFrameNumber_entry.
  by destruct (valid _).
Qed.

Lemma resident_same v v' :
  page_table_ v' = page_table_ v → ∀ q, resident v' q = resident v q.
Proof. intros Hpt q. unfold resident. by rewrite Hpt. Qed.

Lemma isPageModified_entry pt q : PT.isPageModified pt q = modified (PT.entry pt q).
Proof. unfold PT.isPageModified, PT.entry. by destruct (pages_ pt !! q). Qed.

Ltac entries :=
  unfold PT.setPageModified, PT.recordPageAccess, PT.setFrameNumber,
    PT.setPageValid;
  rewrite ?entry_store; repeat case_decide; simpl; try done; try lia.

(** ** What each step of an access does to the frames *)

Lemma load_page_exact page is_write f v v' :
  load_page page is_write f v = Some v' →
  frame_validity_ v' = frame_validity_ v
  ∧ frame_to_page_ v' = <[Z.to_nat f := page]> (frame_to_page_ v)
  ∧ frame_modified_ v' = dirtied is_write f (frame_modified_ v)
  ∧ page_faults (metrics_ v') = page_faults (metrics_ v)
  ∧ swap_outs (metrics_ v') = swap_outs (metrics_ v)
  ∧ replacement_manager_ v' = RM.access f (replacement_manager_ v)
  ∧ (is_write = true → PT.isPageModified (page_table_ v') page = true)
  ∧ ∀ q, resident v' q = if decide (q = page) then Some f else resident v q.
Proof.
  unfold load_page, swapIn, dirtied. rewrite emitEvent_eq. simpl.
  unfold vec_store. destruct is_write; simpl; intros Hrun;
    repeat match type of Hrun with
           | context [decide ?P] => destruct (decide P); simpl in Hrun; [| done]
           end;
    injection Hrun as <-; simpl; split_and!; try done;
    try (intros _; rewrite isPageModified_entry; entries);
    intros q; rewrite !resident_entry; simpl; entries.
Qed.

Lemma evict_victim_exact f v v' :
  0 <= f < vec_size (frame_modified_ v) →
  evict_victim f v = Some v' →
  ∃ u d, vec_at (frame_to_page_ v) f = Some u
    ∧ vec_at (frame_modified_ v) f = Some d
    ∧ frame_validity_ v' = frame_validity_ v
    ∧ frame_to_page_ v' = frame_to_page_ v
    ∧ frame_modified_ v' = frame_modified_ v
    ∧ replacement_manager_ v' = replacement_manager_ v
    ∧ page_faults (metrics_ v') = page_faults (metrics_ v)
    ∧ swap_outs (metrics_ v')
      = (if bool_decide (u ≠ -1) && d then Int.incr (swap_outs (metrics_ v))
         else swap_outs (metrics_ v))
    ∧ ∀ q, resident v' q
           = if decide (q = u ∧ u ≠ -1) then None else resident v q.
Proof.
  unfold evict_victim. intros Hf Hrun.
  destruct (vec_at (frame_to_page_ v) f) as [u |] eqn:Hu; [| done].
  destruct (vec_at_defined (frame_modified_ v) f Hf) as [d Hd].
  simpl in Hrun. case_decide as Hsentinel.
  - rewrite Hd in Hrun.
    simpl in Hrun. injection Hrun as <-. exists u, d.
    rewrite bool_decide_eq_true_2 by done. rewrite emitEvent_eq.
    destruct d; unfold swapOut; rewrite ?emitEvent_eq; simpl;
      split_and!; try done;
      intros q; rewrite !resident_entry; simpl; entries.
  - injection Hrun as <-. exists u, d.
    rewrite bool_decide_eq_false_2 by (intro; congruence). simpl.
    split_and!; try done. intros q.
    rewrite decide_False; [done |]. intros [_ ?]. congruence.
Qed.

Lemma serve_hit_exact page is_write v v' :
  serve_hit page is_write v = Some v' →
  frame_validity_ v' = frame_validity_ v
  ∧ frame_to_page_ v' = frame_to_page_ v
  ∧ frame_modified_ v'
    = dirtied is_write (PT.getFrameNumber (page_table_ v) page) (frame_modified_ v)
  ∧ page_faults (metrics_ v') = page_faults (metrics_ v)
  ∧ swap_outs (metrics_ v') = swap_outs (metrics_ v)
  ∧ replacement_manager_ v'
    = RM.access (PT.getFrameNumber (page_table_ v) page) (replacement_manager_ v)
  ∧ (is_write = true → PT.isPageModified (page_table_ v') page = true)
  ∧ ∀ q, resident v' q = resident v q.
Proof.
  unfold serve_hit, dirtied.
  set (v1 := with_replacement_manager _ _).
  destruct (attribute_hit_effect page v1)
    as (_ & (Hpt & Hrm & Hfv & Hfp & Hfm) & _ & (_ & Hpf & _ & Hso)).
  set (v2 := attribute_hit page v1) in *.
  intros Hrun. destruct is_write; simpl in Hrun.
  - unfold vec_store in Hrun. case_decide; [| done]. simpl in Hrun.
    injection Hrun as <-. rewrite emitEvent_eq. simpl.
    rewrite Hfv, Hfp, Hfm, Hpf, Hso, Hpt, Hrm. split_and!; try done.
    { intros _. rewrite isPageModified_entry. unfold PT.setPageModified.
      by rewrite entry_store, decide_True. }
    intros q. rewrite !resident_entry. simpl. rewrite ?Hpt. simpl. entries;
      by subst.
  - injection Hrun as <-. rewrite emitEvent_eq. simpl.
    rewrite Hfv, Hfp, Hfm, Hpf, Hso, Hrm. split_and!; try done.
    intros q. rewrite !resident_entry. simpl. rewrite ?Hpt. simpl. entries;
      by subst.
Qed.

Lemma allocateFrame_exact v f v' :
  wf v → allocateFrame v = Some (f, v') →
  (f = -1 ∧ v' = v ∧ Forall (λ b, b = true) (frame_validity_ v))
  ∨ (f ≠ -1 ∧ 0 <= f < total_frames (config_ v)
     ∧ findFreeFrame v = f
     ∧ vec_at (frame_validity_ v) f = Some false
     ∧ v' = with_frame_modified
              (with_frame_validity v (<[Z.to_nat f := true]> (frame_validity_ v)))
              (<[Z.to_nat f := false]> (frame_modified_ v))).
Proof.
  intros [[HF HP] Hfv Hfp Hfm Hres Halg]. unfold allocateFrame, findFreeFrame.
  destruct (find_free_from_spec (frame_validity_ v) 0) as [[Hnone Hfull] | [Hf Hfree]];
    [lia | lia | |].
  - rewrite Hnone. simpl. intros [= <- <-]. by left.
  - set (g := find_free_from (frame_validity_ v) 0) in *.
    rewrite decide_True by lia.
    rewrite !vec_store_defined by lia. simpl. intros [= <- <-].
    right. split; [lia |]. split; [lia |]. split; [done |]. split; [| done].
    apply vec_at_Some. rewrite Z.sub_0_r in Hfree. split; [lia | done].
Qed.

Lemma access_step_from v0 v page is_write v' :
  same_memory v v0 →
  page_faults (metrics_ v0) = page_faults (metrics_ v) →
  swap_outs (metrics_ v0) = swap_outs (metrics_ v) →
  access_step page is_write v0 v' → access_step page is_write v v'.
Proof.
  intros (Hpt & Hrm & Hfv & Hfp & Hfm) Hpf Hso Hstep.
  pose proof (resident_same v v0 Hpt) as Hres.
  destruct Hstep as [f H1 H2 H3 H4 H5 H6 H7 Hm | f H1 H2 H3 H4 H5 H6 H7 H8 Hm Hfirst
                    | f u d manager H1 H2 H3 H4 H5 H6 H7 H8 H9 H10 Hsel Hf Hm
                    | H1 H2 H3 H4 H5 H6 H7 H8 Hsel];
    unfold findFreeFrame in *;
    rewrite ?Hfv, ?Hfp, ?Hfm, ?Hpf, ?Hso, ?Hres, ?Hrm, ?Hpt in *.
  - eapply step_hit; try done. intros q. by rewrite H5, Hres.
  - eapply step_free_frame; try done. intros q. by rewrite H6, Hres.
  - eapply step_victim; try done. intros q. by rewrite H8, Hres.
  - eapply step_no_victim; try done. intros q. by rewrite H6, Hres.
Qed.

Lemma handlePageFault_step page is_write v v' :
  wf v → resident v page = None →
  handlePageFault page is_write v = Some v' →
  access_step page is_write v v'.
Proof.
  intros Hwf Hout. unfold handlePageFault. rewrite emitEvent_eq.
  set (v1 := with_event_log _ _).
  assert (wf v1) as Hwf1 by (by destruct Hwf).
  destruct (allocateFrame v1) as [[f v2] |] eqn:Halloc; [| done]. simpl.
  destruct (allocateFrame_exact v1 f v2 Hwf1 Halloc)
    as [(-> & -> & Hfull) | (Hf & Hrange & Hfirst & Hfree & ->)].
  - rewrite decide_True by done.
    pose proof Hwf1 as [[HF HP] Hfv Hfp Hfm Hres Halg].
    change (config_ v1) with (config_ v) in *.
    destruct (rm_select_spec (frame_validity_ v1) (page_table_ v1)
                (replacement_manager_ v1) _ Hfv HF Halg)
      as (f & rm & Hsel & Hf & Hrm).
    rewrite Hsel. simpl. case_decide as Hnone.
    + intros [= <-]. rewrite emitEvent_eq. simpl.
      apply step_no_victim; try done.
      subst f. exact Hsel.
    + destruct (evict_victim f _) as [v3 |] eqn:Hev; [| done]. simpl.
      intros Hload.
      apply evict_victim_exact in Hev
          as (u & d & Hu & Hd & Hfv3 & Hfp3 & Hfm3 & Hrm3 & Hpf3 & Hso3 & Hres3);
        [| unfold v1 in *; simpl in *; lia].
      apply load_page_exact in Hload
          as (Hfv4 & Hfp4 & Hfm4 & Hpf4 & Hso4 & Hrm4 & Hmod4 & Hres4).
      simpl in *.
      apply (step_victim page is_write v v' f u d rm); try done.
      7: by rewrite Hrm4, Hrm3.
      * by rewrite Hfv4, Hfv3.
      * by rewrite Hfp4, Hfp3.
      * by rewrite Hfm4, Hfm3.
      * intros q. rewrite Hres4, Hres3. done.
      * by rewrite Hpf4, Hpf3.
      * by rewrite Hso4, Hso3.
  - rewrite decide_False by done. intros Hload.
    apply load_page_exact in Hload
        as (Hfv4 & Hfp4 & Hfm4 & Hpf4 & Hso4 & Hrm4 & Hmod4 & Hres4).
    simpl in *.
    apply (step_free_frame page is_write v v' f); try done.
    rewrite Hfm4. unfold dirtied. destruct is_write; [| done].
    by rewrite list_insert_insert_eq.
Qed.

(** The prediction and prefetch step of [accessPage]. *)
Lemma prediction_step_effect page v :
  total_pages (config_ v) ≠ 0 →
  ∃ v1,
    (if enable_ai_predictions (config_ v)
        && bool_decide (3 <= vec_size (recent_accesses_ v))
     then '(predictions, v) ← requestAIPredictions v;
          Some (prefetch page predictions v)
     else Some v) = Some v1
    ∧ same_control v v1 ∧ same_memory v v1
    ∧ total_accesses (metrics_ v1) = total_accesses (metrics_ v)
    ∧ page_faults (metrics_ v1) = page_faults (metrics_ v)
    ∧ swap_outs (metrics_ v1) = swap_outs (metrics_ v)
    ∧ recent_accesses_ v1 = recent_accesses_ v.
Proof.
  intros Hpages. destruct (enable_ai_predictions (config_ v) && _).
  - destruct (requestAIPredictions_effect v Hpages)
      as (preds & va & Hreq & _ & Hca & Hma & _ & (Ha & Hpf & _ & Hso)).
    rewrite Hreq. simpl.
    destruct (prefetch_effect page preds va)
      as (k & _ & Hcb & Hmb & _ & (Ha' & Hpf' & _ & Hso')).
    exists (prefetch page preds va). split; [done |].
    split; [by eapply same_control_trans |].
    split; [by eapply same_memory_trans |].
    split; [by rewrite Ha' |]. split; [by rewrite Hpf' |].
    split; [by rewrite Hso' |].
    pose proof (prefetch_ai page preds va) as Hai.
    unfold ai_state in Hai. injection Hai as _ _ -> _.
    unfold requestAIPredictions in Hreq.
    destruct (negb _ || _); [by injection Hreq as _ <- |].
    destruct (simulate_prediction_effect v Hpages) as (ps & vs & Hsim & _ & Hvs).
    rewrite Hsim in Hreq. simpl in Hreq.
    destruct (bool_decide _); injection Hreq as _ <-;
      destruct Hvs as [-> | [c ->]];
      unfold record_predictions; rewrite ?emitEvent_eq; done.
  - exists v. split_and!; try done.
Qed.

(** One access, in full: it is served with defined behaviour, and frames
    and page table change as [access_step] says. *)
Lemma accessPage_step page is_write v :
  wf v → simulation_running_ v = true →
  ∃ v', accessPage page is_write v = Some (true, v')
    ∧ wf v' ∧ same_control v v'
    ∧ total_accesses (metrics_ v') = Int.incr (total_accesses (metrics_ v))
    ∧ recent_accesses_ v' = recent_accesses_ (updateRecentAccesses page v)
    ∧ access_step page is_write v v'.
Proof.
  intros Hwf Hrunning.
  destruct (accessPage_effect page is_write v Hwf Hrunning)
    as (v' & k & Hrun & Hwf' & Hctl & Htotal & _).
  exists v'. split; [done |]. split; [done |]. split; [done |]. split; [done |].
  unfold accessPage in Hrun. rewrite Hrunning in Hrun. cbn [negb] in Hrun.
  set (v0 := updateRecentAccesses page _) in Hrun.
  assert (wf v0) as Hwf0 by (by destruct Hwf).
  destruct (prediction_step_effect page v0)
    as (v1 & Hstep & Hc1 & Hm1 & _ & Hpf1 & Hso1 & Hrecent).
  { destruct Hwf0 as [[_ ?] _ _ _ _ _]. lia. }
  rewrite Hstep in Hrun. simpl in Hrun.
  assert (wf v1) as Hwf1 by (eapply wf_same; [apply Hc1 | exact Hm1 | exact Hwf0]).
  split.
  { change (recent_accesses_ (updateRecentAccesses page v))
      with (recent_accesses_ v0).
    rewrite <- Hrecent.
    destruct (PT.isPageValid (page_table_ v1) page).
    - destruct (serve_hit page is_write v1) as [v2 |] eqn:Hhit; [| done].
      injection Hrun as <-. by apply serve_hit_ai in Hhit as (_ & ? & _).
    - destruct (handlePageFault page is_write v1) as [v2 |] eqn:Hfault; [| done].
      injection Hrun as <-. apply handlePageFault_ai in Hfault.
      unfold ai_state in Hfault. by injection Hfault. }
  apply (access_step_from v1).
  - destruct Hm1 as (? & ? & ? & ? & ?). by split_and!.
  - done.
  - done.
  - destruct (PT.isPageValid (page_table_ v1) page) eqn:Hvalid.
    + destruct (serve_hit page is_write v1) as [v2 |] eqn:Hhit; [| done].
      injection Hrun as <-.
      apply serve_hit_exact in Hhit as (H1 & H2 & H3 & H4 & H5 & H6 & H7 & H8).
      eapply step_hit; try done.
      unfold resident. by rewrite Hvalid.
    + destruct (handlePageFault page is_write v1) as [v2 |] eqn:Hfault; [| done].
      injection Hrun as <-.
      apply handlePageFault_step; try done.
      unfold resident. by rewrite Hvalid.
Qed.

(** ** Runs, by invariant *)

Lemma run_invariant (P : list (Z * bool) → VMM → Prop) all :
  (∀ done page is_write v v',
     wf v → simulation_running_ v = true → P done v →
     (done ++ [(page, is_write)]) `prefix_of` all →
     wf v' → same_control v v' →
     total_accesses (metrics_ v') = Int.incr (total_accesses (metrics_ v)) →
     recent_accesses_ v' = recent_accesses_ (updateRecentAccesses page v) →
     access_step page is_write v v' →
     accessPage page is_write v = Some (true, v') →
     P (done ++ [(page, is_write)]) v') →
  ∀ v, wf v → simulation_running_ v = true → P [] v →
  ∃ v', run all v = Some v' ∧ wf v' ∧ same_control v v' ∧ P all v'.
Proof.
  intros Hstep.
  assert (∀ rest done v, done ++ rest = all →
            wf v → simulation_running_ v = true → P done v →
            ∃ v', run rest v = Some v' ∧ wf v' ∧ same_control v v'
                  ∧ P all v') as Hall.
  { induction rest as [| [page is_write] rest IH]; intros done v Heq Hwf Hrun HP.
    - rewrite app_nil_r in Heq. subst. exists v. split_and!; try done.
    - destruct (accessPage_step page is_write v Hwf Hrun)
        as (v1 & Hacc & Hwf1 & Hctl & Htot & Hrec & Hst).
      simpl. rewrite Hacc. simpl.
      destruct (IH (done ++ [(page, is_write)]) v1) as (v' & Hrest & Hwf' & Hctl' & HP').
      + by rewrite <- app_assoc.
      + done.
      + destruct Hctl as (_ & -> & _). done.
      + apply (Hstep done page is_write v v1); try done.
        exists rest. by rewrite <- app_assoc.
      + exists v'. split_and!; try done. by eapply same_control_trans. }
  intros v Hwf Hrun HP. by apply (Hall all [] v).
Qed.

Lemma vec_at_insert_eq {A} (l : list A) h x :
  0 <= h < vec_size l → vec_at (<[Z.to_nat h := x]> l) h = Some x.
Proof.
  intros Hh. unfold vec_at, vec_size in *. rewrite decide_True by lia.
  apply list_lookup_insert_eq. lia.
Qed.

Lemma vec_at_elem {A} (P : A → Prop) (l : list A) i x :
  Forall P l → vec_at l i = Some x → P x.
Proof.
  intros Hall Hx. apply vec_at_Some in Hx as [_ Hx].
  by eapply Forall_lookup_1.
Qed.

Lemma prefix_snoc_length {A} (l : list A) x all :
  (l ++ [x]) `prefix_of` all → (length l < length all)%nat.
Proof. intros H. apply prefix_length in H. rewrite length_app in H. simpl in H. lia. Qed.

Lemma prefix_snoc_elem {A} (l : list A) x all :
  (l ++ [x]) `prefix_of` all → x ∈ all.
Proof. intros [k ->]. rewrite !elem_of_app. left; right. by apply list_elem_of_singleton. Qed.

Lemma fresh_resident callback config q : resident (fresh callback config) q = None.
Proof.
  unfold resident, PT.isPageValid, fresh, startSimulation, setEventCallback.
  rewrite emitEvent_eq. simpl. by rewrite lookup_empty.
Qed.

Lemma fresh_validity callback config :
  frame_validity_ (fresh callback config)
  = replicate (Z.to_nat (total_frames config)) false.
Proof.
  unfold fresh, startSimulation, setEventCallback. rewrite emitEvent_eq. simpl.
  by rewrite resize_nil.
Qed.

Lemma fresh_modified callback config :
  frame_modified_ (fresh callback config)
  = replicate (Z.to_nat (total_frames config)) false.
Proof.
  unfold fresh, startSimulation, setEventCallback. rewrite emitEvent_eq. simpl.
  by rewrite resize_nil.
Qed.

(** X4.  Counting.  On a fresh, started manager with a valid
    configuration, a sequence of accesses that is short enough for the
    64-bit counter not to wrap is served completely; afterwards
    [getTotalAccesses()] is the number of accesses made, and
    [getUsedFrameCount() <= getPageFaults() <= getTotalAccesses()]: every
    occupied frame was paid for by a fault, and an access faults at most
    once. *)
Theorem every_access_is_counted callback config accesses :
  config_ok config →
  Z.of_nat (length accesses) < Int.size_t_modulus →
  ∃ v, run accesses (fresh callback config) = Some v
    ∧ getTotalAccesses v = Z.of_nat (length accesses)
    ∧ getUsedFrameCount v <= getPageFaults v
    ∧ getPageFaults v <= getTotalAccesses v.
Proof.
  intros Hok Hlen.
  destruct (run_invariant
    (λ done v, total_accesses (metrics_ v) = Z.of_nat (length done)
               ∧ count_bool true (frame_validity_ v) <= page_faults (metrics_ v)
               ∧ page_faults (metrics_ v) <= Z.of_nat (length done))
    accesses) with (v := fresh callback config) as (v & Hrun & _ & _ & HP).
  - intros done page is_write v v' Hwf Hrunning (Htot & Hused & Hfaults)
      Hprefix _ _ Htot' _ Hstep _.
    apply prefix_snoc_length in Hprefix.
    pose proof (count_bool_bounds true (frame_validity_ v)) as Hcount.
    rewrite length_app. simpl length.
    rewrite Htot', Htot. rewrite incr_small by lia.
    split; [lia |].
    destruct Hstep as [f H1 H2 H3 H4 H5 H6 H7 | f H1 H2 H3 H4 H5 H6 H7 H8
                      | f u d manager H1 H2 H3 H4 H5 H6 H7 H8 H9 H10
                      | H1 H2 H3 H4 H5 H6 H7 H8].
    + rewrite H2, H6. lia.
    + rewrite H3, H7. apply vec_at_Some in H2 as [_ H2].
      rewrite count_bool_occupy by done. rewrite incr_small by lia. lia.
    + rewrite H5, H9. rewrite incr_small by lia. lia.
    + rewrite H3, H7. rewrite incr_small by lia. lia.
  - by apply wf_fresh.
  - apply fresh_running.
  - rewrite fresh_metrics. pose proof (fresh_used callback config) as Hu.
    unfold getUsedFrameCount in Hu. rewrite Hu. simpl. lia.
  - exists v. split; [done |].
    unfold getTotalAccesses, getUsedFrameCount, getPageFaults. lia.
Qed.

Lemma every_access_is_counted_witness :
  config_ok fifo_3_8
  ∧ Z.of_nat (length belady) < Int.size_t_modulus
  ∧ ∃ v, run belady (fresh true fifo_3_8) = Some v
      ∧ getTotalAccesses v = Z.of_nat (length belady)
      ∧ getUsedFrameCount v <= getPageFaults v
      ∧ getPageFaults v <= getTotalAccesses v.
Proof.
  assert (config_ok fifo_3_8) as Hok by (vm_compute; done).
  assert (Z.of_nat (length belady) < Int.size_t_modulus) as Hlen
    by (vm_compute; done).
  split; [exact Hok |]. split; [exact Hlen |].
  exact (every_access_is_counted true fifo_3_8 belady Hok Hlen).
Defined.

(** X5.  Read-only runs.  When a fresh, started manager with a valid
    configuration serves reads only, of whatever pages and under
    whatever policy, no frame is ever marked modified and
    [getSwapOuts()] stays 0: nothing is written back. *)
Theorem reads_never_swap_out callback config pages :
  config_ok config →
  ∃ v, run (reads pages) (fresh callback config) = Some v
    ∧ getSwapOuts v = 0
    ∧ Forall (λ dirty, dirty = false) (frame_modified_ v).
Proof.
  intros Hok.
  destruct (run_invariant
    (λ _ v, swap_outs (metrics_ v) = 0
            ∧ Forall (λ dirty, dirty = false) (frame_modified_ v))
    (reads pages)) with (v := fresh callback config) as (v & Hrun & _ & _ & HP).
  - intros done page is_write v v' Hwf Hrunning (Hso & Hclean)
      Hprefix _ _ _ _ Hstep _.
    apply prefix_snoc_elem in Hprefix.
    unfold reads in Hprefix. apply list_elem_of_fmap in Hprefix as (p & [= -> ->] & _).
    destruct Hstep as [f H1 H2 H3 H4 H5 H6 H7 | f H1 H2 H3 H4 H5 H6 H7 H8
                      | f u d manager H1 H2 H3 H4 H5 H6 H7 H8 H9 H10
                      | H1 H2 H3 H4 H5 H6 H7 H8].
    + rewrite H4, H7. done.
    + rewrite H5, H8. split; [done |]. by apply Forall_insert.
    + rewrite H7, H10. split; [| done].
      rewrite (vec_at_elem _ _ _ _ Hclean H4). by rewrite andb_false_r.
    + rewrite H5, H8. done.
  - by apply wf_fresh.
  - apply fresh_running.
  - rewrite fresh_metrics, fresh_modified. split; [done |].
    apply Forall_replicate. done.
  - exists v. split; [done |]. done.
Qed.

Lemma reads_never_swap_out_witness :
  config_ok fifo_3_8
  ∧ ∃ v, run (reads [1; 2; 3; 4; 1; 2; 5]) (fresh true fifo_3_8) = Some v
      ∧ getSwapOuts v = 0
      ∧ Forall (λ dirty, dirty = false) (frame_modified_ v).
Proof.
  assert (config_ok fifo_3_8) as Hok by (vm_compute; done).
  split; [exact Hok |].
  exact (reads_never_swap_out true fifo_3_8 [1; 2; 3; 4; 1; 2; 5] Hok).
Defined.

(** ** Residency *)

Lemma resident_Some v p f :
  resident v p = Some f ↔
  PT.isPageValid (page_table_ v) p = true ∧ PT.getFrameNumber (page_table_ v) p = f.
Proof.
  unfold resident. destruct (PT.isPageValid _ _); split.
  - by intros [= <-].
  - by intros [_ <-].
  - done.
  - by intros [? _].
Qed.

Lemma resident_None v p :
  resident v p = None ↔ PT.isPageValid (page_table_ v) p = false.
Proof. unfold resident. by destruct (PT.isPageValid _ _). Qed.

Lemma consistent_fresh callback config : consistent (fresh callback config).
Proof.
  split.
  - intros p f. by rewrite fresh_resident.
  - intros f Hf. rewrite fresh_validity in Hf.
    apply vec_at_Some in Hf as [_ Hf]. by apply lookup_replicate in Hf as [? _].
  - apply fresh_resident.
Qed.

Lemma consistent_step page is_write v v' :
  wf v → page ≠ -1 → consistent v →
  access_step page is_write v v' → consistent v'.
Proof.
  intros Hwf Hpage [Hp Hf Hs] Hstep.
  pose proof (wf_validity v Hwf) as Hfv. pose proof (wf_to_page v Hwf) as Hfp.
  destruct Hstep as [f H1 H2 H3 H4 H5 H6 H7 | f H1 H2 H3 H4 H5 H6 H7 H8
                    | f u d manager H1 H2 H3 H4 H5 H6 H7 H8 H9 H10
                    | H1 H2 H3 H4 H5 H6 H7 H8].
  - split.
    + intros p g. rewrite H5, H2, H3. apply Hp.
    + intros g. rewrite H2, H3. intros Hg. destruct (Hf g Hg) as (p & ? & ?).
      exists p. by rewrite H5.
    + by rewrite H5.
  - pose proof (vec_at_lt _ _ _ H2) as Hrange.
    split.
    + intros p g. rewrite H6, H3, H4.
      destruct (decide (p = page)) as [-> | Hpg].
      * intros [= Hfg]. subst g.
        rewrite !vec_at_insert_eq by lia. done.
      * intros Hres. destruct (Hp p g Hres) as [Hg1 Hg2].
        assert (g ≠ f) as Hne by (intros ->; congruence).
        rewrite !vec_at_insert_ne by lia. done.
    + intros g. rewrite H3, H4. destruct (decide (g = f)) as [-> | Hne].
      * intros _. exists page. rewrite vec_at_insert_eq by lia.
        rewrite H6, decide_True by done. done.
      * rewrite !vec_at_insert_ne by lia. intros Hg.
        destruct (Hf g Hg) as (p & Hpg & Hres). exists p. split; [done |].
        rewrite H6, decide_False; [done |]. intros ->. congruence.
    + rewrite H6, decide_False by done. done.
  - pose proof (vec_at_lt _ _ _ H3) as Hrange.
    assert (vec_at (frame_validity_ v) f = Some true) as Hocc.
    { destruct (vec_at_defined (frame_validity_ v) f) as [b Hb]; [lia |].
      by rewrite Hb, (vec_at_elem _ _ _ _ H2 Hb). }
    destruct (Hf f Hocc) as (u' & Hu' & Hresu).
    assert (u' = u) as -> by congruence.
    assert (u ≠ -1) as Hu by (intros ->; congruence).
    assert (u ≠ page) as Hup by (intros ->; congruence).
    split.
    + intros p g. rewrite H8, H5, H6.
      destruct (decide (p = page)) as [-> | Hpg].
      * intros [= Hfg]. subst g. rewrite vec_at_insert_eq by lia. done.
      * destruct (decide (p = u ∧ u ≠ -1)) as [| Hpu]; [done |]. intros Hres.
        destruct (Hp p g Hres) as [Hg1 Hg2].
        assert (g ≠ f) as Hne.
        { intros ->. apply Hpu. split; [congruence | done]. }
        rewrite vec_at_insert_ne by lia. done.
    + intros g. rewrite H5, H6. destruct (decide (g = f)) as [-> | Hne].
      * intros _. exists page. rewrite vec_at_insert_eq by lia.
        rewrite H8, decide_True by done. done.
      * rewrite vec_at_insert_ne by lia. intros Hg.
        destruct (Hf g Hg) as (p & Hpg & Hres). exists p. split; [done |].
        rewrite H8, decide_False by (intros ->; congruence).
        rewrite decide_False; [done |]. intros [-> _]. congruence.
    + rewrite H8, decide_False by done.
      rewrite decide_False; [done |]. intros [<- ?]. done.
  - split.
    + intros p g. rewrite H6, H3, H4. apply Hp.
    + intros g. rewrite H3, H4. intros Hg. destruct (Hf g Hg) as (p & ? & ?).
      exists p. by rewrite H6.
    + by rewrite H6.
Qed.

(** ** The valid pages *)

Lemma elem_of_getValidPages pt p :
  p ∈ PT.getValidPages pt ↔ PT.isPageValid pt p = true.
Proof.
  unfold PT.getValidPages, PT.isPageValid. rewrite list_elem_of_fmap. split.
  - intros ([q e] & -> & Hin). apply elem_of_map_to_list in Hin.
    apply map_lookup_filter_Some in Hin as [Hq He]. simpl in *. by rewrite Hq.
  - destruct (pages_ pt !! p) as [e |] eqn:He; [| done]. intros Hvalid.
    exists (p, e). split; [done |]. apply elem_of_map_to_list.
    by apply map_lookup_filter_Some.
Qed.

Lemma NoDup_getValidPages pt : NoDup (PT.getValidPages pt).
Proof. apply NoDup_fst_map_to_list. Qed.

(** The indices of the occupied frames. *)
Lemma occupied_indices_length (l pre : list bool) :
  length (filter (λ g, vec_at (pre ++ l) g = Some true)
            (seqZ (vec_size pre) (vec_size l)))
  = length (filter (λ b, b = true) l).
Proof.
  revert pre. induction l as [| b l IH]; intros pre; [done |].
  unfold vec_size in *. simpl length.
  rewrite Nat2Z.inj_succ, <- Z.add_1_l, seqZ_cons by lia.
  rewrite !filter_cons.
  replace (Z.pred (1 + Z.of_nat (length l))) with (Z.of_nat (length l)) by lia.
  specialize (IH (pre ++ [b])). rewrite <- app_assoc in IH. simpl in IH.
  rewrite length_app in IH. simpl in IH.
  replace (Z.of_nat (length pre + 1)) with (Z.succ (Z.of_nat (length pre))) in IH by lia.
  assert (vec_at (pre ++ b :: l) (Z.of_nat (length pre)) = Some b) as Hb.
  { unfold vec_at. rewrite decide_True by lia. rewrite Nat2Z.id.
    by rewrite list_lookup_middle. }
  destruct b; repeat case_decide; simpl; try congruence; by rewrite IH.
Qed.

Lemma consistent_counts v :
  consistent v → getUsedFrameCount v = PT.getValidPageCount (page_table_ v).
Proof.
  intros [Hp Hf Hs]. unfold getUsedFrameCount, PT.getValidPageCount, count_bool.
  f_equal.
  rewrite <- (occupied_indices_length (frame_validity_ v) []). simpl.
  change (vec_size []) with 0.
  transitivity (length (PT.getFrameNumber (page_table_ v)
                          <$> PT.getValidPages (page_table_ v)));
    [| by rewrite length_fmap].
  apply Permutation_length, NoDup_Permutation.
  - apply NoDup_filter, NoDup_seqZ.
  - apply NoDup_fmap_2_strong; [| apply NoDup_getValidPages].
    intros p q Hpv Hqv Heq.
    apply elem_of_getValidPages in Hpv, Hqv.
    destruct (Hp p (PT.getFrameNumber (page_table_ v) p)) as [_ H1];
      [by apply resident_Some |].
    destruct (Hp q (PT.getFrameNumber (page_table_ v) q)) as [_ H2];
      [by apply resident_Some |].
    rewrite Heq in H1. congruence.
  - intros g. rewrite list_elem_of_filter, elem_of_seqZ, list_elem_of_fmap. split.
    + intros [Hg _]. destruct (Hf g Hg) as (p & _ & Hres).
      apply resident_Some in Hres as [Hvalid <-].
      exists p. split; [done |]. by apply elem_of_getValidPages.
    + intros (p & -> & Hvalid). apply elem_of_getValidPages in Hvalid.
      destruct (Hp p (PT.getFrameNumber (page_table_ v) p)) as [H1 _];
        [by apply resident_Some |].
      split; [done |]. apply vec_at_lt in H1. lia.
Qed.

Lemma isPageValid_of_resident v v' q :
  resident v' q = resident v q →
  PT.isPageValid (page_table_ v') q = PT.isPageValid (page_table_ v) q.
Proof.
  unfold resident.
  by destruct (PT.isPageValid (page_table_ v') q), (PT.isPageValid (page_table_ v) q).
Qed.

Lemma pages_of_snoc done page is_write :
  pages_of (done ++ [(page, is_write)]) = pages_of done ++ [page].
Proof. unfold pages_of. by rewrite fmap_app. Qed.

Lemma pages_of_prefix done all :
  done `prefix_of` all →
  list_to_set (pages_of done) ⊆@{gset Z} list_to_set (pages_of all).
Proof.
  intros [k ->]. unfold pages_of. rewrite fmap_app, list_to_set_app.
  apply union_subseteq_l.
Qed.

(** X6.  Frames and page table agree.  As long as page number [-1] is
    not accessed, a fresh, started manager with a valid configuration
    keeps page table and frame vectors consistent through every sequence
    of accesses: each valid page is bound to an occupied frame whose
    [frame_to_page_] entry is that page, each occupied frame holds a
    valid page bound to it, and [getUsedFrameCount()] equals the number
    of pages [getValidPages()] returns. *)
Theorem frames_and_page_table_agree callback config accesses :
  config_ok config →
  Forall (λ a, a.1 ≠ -1) accesses →
  ∃ v, run accesses (fresh callback config) = Some v
    ∧ consistent v
    ∧ getUsedFrameCount v = Z.of_nat (length (getValidPages v)).
Proof.
  intros Hok Hpages.
  destruct (run_invariant (λ _ v, consistent v) accesses)
    with (v := fresh callback config) as (v & Hrun & _ & _ & HP).
  - intros done page is_write v v' Hwf _ Hcons Hprefix _ _ _ _ Hstep _.
    apply prefix_snoc_elem in Hprefix.
    rewrite Forall_forall in Hpages. specialize (Hpages _ Hprefix).
    by apply (consistent_step page is_write v v').
  - by apply wf_fresh.
  - apply fresh_running.
  - apply consistent_fresh.
  - exists v. split; [done |]. split; [done |]. by apply consistent_counts.
Qed.

Lemma frames_and_page_table_agree_witness :
  config_ok fifo_3_8
  ∧ Forall (λ a, a.1 ≠ -1) belady
  ∧ ∃ v, run belady (fresh true fifo_3_8) = Some v
      ∧ consistent v
      ∧ getUsedFrameCount v = Z.of_nat (length (getValidPages v)).
Proof.
  assert (config_ok fifo_3_8) as Hok by (vm_compute; done).
  assert (Forall (λ a, a.1 ≠ -1) belady) as Hpages
    by (repeat constructor; simpl; lia).
  split; [exact Hok |]. split; [exact Hpages |].
  exact (frames_and_page_table_agree true fifo_3_8 belady Hok Hpages).
Defined.

Lemma run_working_set callback config accesses :
  config_ok config →
  Z.of_nat (size (list_to_set (pages_of accesses) : gset Z)) <= total_frames config →
  ∃ v, run accesses (fresh callback config) = Some v
    ∧ getPageFaults v = Z.of_nat (size (list_to_set (pages_of accesses) : gset Z))
    ∧ getUsedFrameCount v = getPageFaults v
    ∧ getSwapOuts v = 0
    ∧ ∀ q, PT.isPageValid (page_table_ v) q = true ↔ q ∈ pages_of accesses.
Proof.
  intros Hok Hfits. pose proof Hok as [HF _].
  destruct (run_invariant
    (λ done v,
       config_ v = config
       ∧ (∀ q, PT.isPageValid (page_table_ v) q = true ↔ q ∈ pages_of done)
       ∧ page_faults (metrics_ v)
         = Z.of_nat (size (list_to_set (pages_of done) : gset Z))
       ∧ count_bool true (frame_validity_ v) = page_faults (metrics_ v)
       ∧ swap_outs (metrics_ v) = 0)
    accesses) with (v := fresh callback config) as (v & Hrun & _ & _ & HP).
  - intros done page is_write v v' Hwf _ (Hcfg & Hvalid & Hfaults & Hused & Hso)
      Hprefix _ (Hcfg' & _) _ _ Hstep _.
    split; [congruence |].
    apply pages_of_prefix, subseteq_size in Hprefix.
    rewrite pages_of_snoc in *. rewrite list_to_set_app_L in *.
    simpl in *. rewrite (right_id_L ∅ (∪)) in *.
    set (S := list_to_set (pages_of done) : gset Z) in *.
    assert (∀ q, q ∈ S ↔ q ∈ pages_of done) as HS
      by (intros q; unfold S; by rewrite elem_of_list_to_set).
    pose proof (wf_validity v Hwf) as Hsize. rewrite Hcfg in Hsize.
    assert (page ∉ S → size (S ∪ {[page]}) = Datatypes.S (size S)) as Hnew.
    { intros Hnot. rewrite size_union by (by apply disjoint_singleton_r).
      rewrite size_singleton. lia. }
    assert (page ∈ S → S ∪ {[page]} = S) as Hold.
    { intros Hin. rewrite (comm_L (∪)). by apply subseteq_union_1_L, singleton_subseteq_l. }
    destruct Hstep as [f H1 H2 H3 H4 H5 H6 H7 | f H1 H2 H3 H4 H5 H6 H7 H8
                      | f u d manager H1 H2 H3 H4 H5 H6 H7 H8 H9 H10
                      | H1 H2 H3 H4 H5 H6 H7 H8].
    + apply resident_Some in H1 as [H1 _]. apply Hvalid, HS in H1.
      rewrite Hold by done. rewrite H2, H6, H7. split_and!; try done.
      intros q. rewrite (isPageValid_of_resident v v' q (H5 q)), Hvalid.
      rewrite elem_of_app, list_elem_of_singleton.
      split; [by left |]. intros [? | ->]; [done |]. by apply HS.
    + apply resident_None in H1.
      assert (page ∉ S) as Hnot.
      { intros Hin. apply HS, Hvalid in Hin. congruence. }
      rewrite Hnew in * by done.
      rewrite H3, H7, H8. apply vec_at_Some in H2 as [_ H2].
      rewrite count_bool_occupy by done.
      rewrite incr_small by (unfold Int.int_half, Int.size_t_modulus in *; lia).
      split_and!; try lia.
      intros q. rewrite elem_of_app, list_elem_of_singleton, <- Hvalid.
      specialize (H6 q). case_decide as Hq.
      * subst q. apply resident_Some in H6 as [-> _]. split; [by right | done].
      * rewrite (isPageValid_of_resident v v' q H6). split; [by left |].
        by intros [? | ?].
    + apply resident_None in H1.
      assert (page ∉ S) as Hnot.
      { intros Hin. apply HS, Hvalid in Hin. congruence. }
      rewrite Hnew in * by done.
      rewrite count_bool_full in Hused by done. lia.
    + apply resident_None in H1.
      assert (page ∉ S) as Hnot.
      { intros Hin. apply HS, Hvalid in Hin. congruence. }
      rewrite Hnew in * by done.
      rewrite count_bool_full in Hused by done. lia.
  - by apply wf_fresh.
  - apply fresh_running.
  - rewrite fresh_metrics, fresh_config.
    pose proof (fresh_used callback config) as Hu.
    unfold getUsedFrameCount in Hu. rewrite Hu. simpl.
    split_and!; try done. intros q.
    pose proof (fresh_resident callback config q) as Hq.
    apply resident_None in Hq. rewrite Hq. split; [done |].
    intros Hin. by apply elem_of_nil in Hin.
  - destruct HP as (_ & Hvalid & Hfaults & Hused & Hso).
    exists v. split; [done |].
    unfold getPageFaults, getUsedFrameCount, getSwapOuts. by split_and!.
Qed.

(** X7.  A working set that fits.  If the distinct pages of a sequence
    of accesses are no more than [total_frames], a fresh, started manager
    with a valid configuration, under any policy and with predictions on
    or off, faults exactly once per distinct page: [getPageFaults()] and
    [getUsedFrameCount()] equal the number of distinct pages, nothing is
    swapped out, and exactly the accessed pages are valid at the end. *)
Theorem working_set_that_fits_faults_once callback config accesses :
  config_ok config →
  Z.of_nat (size (list_to_set (pages_of accesses) : gset Z)) <= total_frames config →
  ∃ v, run accesses (fresh callback config) = Some v
    ∧ getPageFaults v = Z.of_nat (size (list_to_set (pages_of accesses) : gset Z))
    ∧ getUsedFrameCount v = getPageFaults v
    ∧ getSwapOuts v = 0
    ∧ ∀ q, PT.isPageValid (page_table_ v) q = true ↔ q ∈ pages_of accesses.
Proof. apply run_working_set. Qed.

Lemma working_set_that_fits_faults_once_witness :
  config_ok clock_4_16_ai
  ∧ Z.of_nat (size (list_to_set (pages_of (reads [4; 5; 6; 4; 5; 6; 4])) : gset Z))
    <= total_frames clock_4_16_ai
  ∧ ∃ v, run (reads [4; 5; 6; 4; 5; 6; 4]) (fresh true clock_4_16_ai) = Some v
      ∧ getPageFaults v
        = Z.of_nat (size (list_to_set (pages_of (reads [4; 5; 6; 4; 5; 6; 4]))
                            : gset Z))
      ∧ getUsedFrameCount v = getPageFaults v
      ∧ getSwapOuts v = 0
      ∧ ∀ q, PT.isPageValid (page_table_ v) q = true
             ↔ q ∈ pages_of (reads [4; 5; 6; 4; 5; 6; 4]).
Proof.
  assert (config_ok clock_4_16_ai) as Hok by (vm_compute; done).
  assert (Z.of_nat (size (list_to_set (pages_of (reads [4; 5; 6; 4; 5; 6; 4]))
                            : gset Z))
          <= total_frames clock_4_16_ai) as Hfits by (vm_compute; done).
  split; [exact Hok |]. split; [exact Hfits |].
  exact (working_set_that_fits_faults_once true clock_4_16_ai
           (reads [4; 5; 6; 4; 5; 6; 4]) Hok Hfits).
Defined.

Lemma last_n_snoc (l : list Z) x :
  (if decide (vec_size (last_n 100 l ++ [x]) > MAX_RECENT_ACCESSES)
   then drop 1 (last_n 100 l ++ [x]) else last_n 100 l ++ [x])
  = last_n 100 (l ++ [x]).
Proof.
  unfold last_n, vec_size, MAX_RECENT_ACCESSES.
  rewrite !length_app, length_drop. simpl length.
  destruct (decide (100 <= length l)%nat) as [Hlong | Hshort].
  - rewrite decide_True by lia.
    rewrite drop_app_le by (rewrite length_drop; lia).
    rewrite drop_drop.
    rewrite (drop_app_le l) by lia.
    do 2 f_equal. lia.
  - rewrite decide_False by lia.
    replace (length l - 100)%nat with 0%nat by lia.
    replace (length l + 1 - 100)%nat with 0%nat by lia. done.
Qed.

(** X8.  The window of recent accesses.  After a fresh, started manager
    has served a sequence of accesses, [getRecentAccesses()] returns the
    pages of the last 100 of them ([MAX_RECENT_ACCESSES]), oldest first;
    all of them when fewer were made. *)
Theorem recent_accesses_are_the_last_100 callback config accesses :
  config_ok config →
  ∃ v, run accesses (fresh callback config) = Some v
    ∧ getRecentAccesses v = last_n 100 (pages_of accesses)
    ∧ (length (getRecentAccesses v) <= 100)%nat.
Proof.
  intros Hok.
  destruct (run_invariant
    (λ done v, recent_accesses_ v = last_n 100 (pages_of done)) accesses)
    with (v := fresh callback config) as (v & Hrun & _ & _ & HP).
  - intros done page is_write v v' _ _ Hwindow _ _ _ _ Hrecent _ _.
    rewrite Hrecent, pages_of_snoc. unfold updateRecentAccesses. simpl.
    rewrite Hwindow. apply last_n_snoc.
  - by apply wf_fresh.
  - apply fresh_running.
  - unfold fresh, startSimulation, setEventCallback. by rewrite emitEvent_eq.
  - exists v. split; [done |]. unfold getRecentAccesses. split; [done |].
    rewrite HP. unfold last_n. rewrite length_drop. lia.
Qed.

Lemma recent_accesses_are_the_last_100_witness :
  config_ok fifo_3_8
  ∧ ∃ v, run belady (fresh true fifo_3_8) = Some v
      ∧ getRecentAccesses v = last_n 100 (pages_of belady)
      ∧ (length (getRecentAccesses v) <= 100)%nat.
Proof.
  assert (config_ok fifo_3_8) as Hok by (vm_compute; done).
  split; [exact Hok |].
  exact (recent_accesses_are_the_last_100 true fifo_3_8 belady Hok).
Defined.

(** X9.  [PageTable::getValidPages] returns every valid page exactly
    once and no other page.  [setPageValid(p, b)] adds or removes [p] and
    leaves the other pages as they were, whether or not [p] had an entry
    before; after [clear()] no page is listed. *)
Theorem getValidPages_lists_the_valid_pages pt :
  NoDup (PT.getValidPages pt)
  ∧ (∀ p, p ∈ PT.getValidPages pt ↔ PT.isPageValid pt p = true)
  ∧ (∀ p b q, q ∈ PT.getValidPages (PT.setPageValid p b pt)
              ↔ if decide (q = p) then b = true else q ∈ PT.getValidPages pt)
  ∧ PT.getValidPages (PT.clear pt) = [].
Proof.
  split; [apply NoDup_getValidPages |].
  split; [apply elem_of_getValidPages |].
  split.
  - intros p b q. rewrite !elem_of_getValidPages.
    unfold PT.setPageValid. rewrite isPageValid_store.
    destruct (decide (q = p)) as [-> | Hne].
    + by rewrite decide_True.
    + rewrite decide_False by congruence. by rewrite elem_of_getValidPages.
  - unfold PT.getValidPages, PT.clear. simpl.
    by rewrite map_filter_empty, map_to_list_empty.
Qed.

(** ** Policies *)

Section ClockOrder.
Import CLOCKReplacement.
Variables (fv : list bool) (F start : Z).
Hypothesis HF : vec_size fv = F.
Hypothesis HFrange : 0 < F < Int.int_half.
Hypothesis Hstart : 0 <= start < F.

Lemma to_go_distance i :
  0 <= i < F → to_go F start i = F - sweep_distance F start i.
Proof.
  intros Hi. unfold to_go, sweep_distance. case_decide as Hlt.
  - rewrite <- (Z.mod_add _ 1 F) by lia. rewrite Z.mod_small by lia. lia.
  - rewrite Z.mod_small by lia. lia.
Qed.

(** The first pass returns the first frame on its way that is occupied
    and unreferenced. *)
Lemma first_pass_first fuel : ∀ s j s',
  clock_ok F s →
  first_pass fuel fv start s = Some (Return j s') →
  ∀ i, ahead F start (clock_hand_ s) i →
       to_go F start j < to_go F start i →
       ¬ (occupied fv i ∧ unreferenced s i).
Proof.
  induction fuel as [| fuel IH]; intros s j s' Hok Hrun i Hi Hlt [Hocc_i Hbit_i];
    [done |].
  pose proof Hok as [Hbits Hhand].
  simpl in Hrun. set (h := clock_hand_ s) in *.
  destruct (vec_at fv h) as [occ |] eqn:Hocc; [| done]. simpl in Hrun.
  rewrite (advance_spec fv F HF HFrange) in Hrun by done. fold h in Hrun.
  assert (occ && negb (default false (if occ then vec_at (reference_bits_ s) h
                                      else Some false)) = false →
          i ≠ h) as Hnot_here.
  { intros Hcond ->. unfold occupied, unreferenced in *.
    rewrite Hocc in Hocc_i. injection Hocc_i as ->.
    rewrite Hbit_i in Hcond. done. }
  destruct (if occ then vec_at (reference_bits_ s) h else Some false)
    as [bit |] eqn:Hbit; [| done].
  simpl in Hrun, Hnot_here.
  destruct (occ && negb bit) eqn:Hcond; simpl in Hrun.
  - injection Hrun as <- _. destruct Hi as [_ Hi]. lia.
  - specialize (Hnot_here eq_refl).
    destruct (ahead_cases F start HFrange Hstart h i Hhand Hi) as [-> | [Hne Hi']]; [done |].
    rewrite decide_True in Hrun by done.
    assert (clock_ok F (mk (reference_bits_ s) (next_hand F h))) as Hok'.
    { split; [done |]. simpl. by apply next_hand_range. }
    apply (IH _ j s' Hok' Hrun i Hi' Hlt). done.
Qed.

End ClockOrder.

(** X11.  CLOCK victim selection, on a state of the right size.
    [CLOCKReplacement::selectVictimFrame] terminates and returns [-1]
    exactly when every occupied frame has its reference bit set;
    otherwise it returns the first frame at or after the clock hand, in
    circular order, that is occupied and unreferenced, leaves the
    reference bits alone and moves the hand just past the victim.  When
    it returns [-1] the hand is where it was, the bits of all occupied
    frames have been cleared and the other bits kept. *)
Theorem clock_selects_first_unreferenced_frame fv F pt s :
  vec_size fv = F → 0 < F < Int.int_half → clock_ok F s →
  ∃ f s', CLOCKReplacement.select fv pt s = Some (f, s')
    ∧ clock_ok F s'
    ∧ (f = -1 ↔ ∀ j, occupied fv j →
                     vec_at (CLOCKReplacement.reference_bits_ s) j = Some true)
    ∧ (f ≠ -1 →
       occupied fv f ∧ unreferenced s f
       ∧ (∀ i, 0 <= i < F →
               sweep_distance F (CLOCKReplacement.clock_hand_ s) i
               < sweep_distance F (CLOCKReplacement.clock_hand_ s) f →
               ¬ (occupied fv i ∧ unreferenced s i))
       ∧ CLOCKReplacement.reference_bits_ s' = CLOCKReplacement.reference_bits_ s
       ∧ CLOCKReplacement.clock_hand_ s' = next_hand F f)
    ∧ (f = -1 →
       CLOCKReplacement.clock_hand_ s' = CLOCKReplacement.clock_hand_ s
       ∧ (∀ j, occupied fv j → unreferenced s' j)
       ∧ (∀ j, ¬ occupied fv j →
               vec_at (CLOCKReplacement.reference_bits_ s') j
               = vec_at (CLOCKReplacement.reference_bits_ s) j)).
Proof.
  intros HF HFrange Hok. pose proof Hok as [Hbits Hhand].
  assert (Z.of_nat (length fv) = F) as Hlen by done.
  pose proof (to_go_range F _ Hhand _ Hhand) as Hgo.
  unfold CLOCKReplacement.select.
  destruct (first_pass_spec fv F (CLOCKReplacement.clock_hand_ s) HF HFrange Hhand
              (length fv) s Hok) as [(j & Hrun & Hj1 & Hj2 & Hj3) | [Hrun Hall]];
    [lia | |].
  - rewrite Hrun. simpl. eexists _, _. split; [done |].
    pose proof (vec_at_lt _ _ _ Hj1) as Hj.
    split; [split; simpl; [done | apply next_hand_range; lia] |].
    split.
    { split; [lia |]. intros Hset. specialize (Hset j Hj1).
      unfold unreferenced in Hj2. congruence. }
    split; [| lia]. intros _. split_and!; try done.
    intros i Hi Hdist.
    apply (first_pass_first fv F (CLOCKReplacement.clock_hand_ s) HF HFrange Hhand
             (length fv) s j _ Hok Hrun).
    + by apply ahead_start.
    + rewrite !(to_go_distance F (CLOCKReplacement.clock_hand_ s)) by lia. lia.
  - rewrite Hrun. simpl.
    assert (∀ j, occupied fv j → ahead F (CLOCKReplacement.clock_hand_ s)
                                   (CLOCKReplacement.clock_hand_ s) j) as Hahead.
    { intros j Hj. apply ahead_start; [done |]. apply vec_at_lt in Hj. lia. }
    destruct (second_pass_spec fv F (CLOCKReplacement.clock_hand_ s) HF HFrange Hhand
                (length fv)
                (CLOCKReplacement.mk (CLOCKReplacement.reference_bits_ s)
                   (CLOCKReplacement.clock_hand_ s)))
      as (bits & Hrun2 & Hsize & Hclear & Hkeep).
    { done. }
    { simpl. lia. }
    { simpl. intros j Hj Hoj. by apply Hall. }
    rewrite Hrun2. simpl in *. eexists _, _. split; [done |].
    split; [done |]. split.
    { split; [| done]. intros _ j Hj. apply Hall; [by apply Hahead | done]. }
    split; [done |]. intros _. simpl. split; [done |]. split.
    + intros j Hj. apply Hclear; [by apply Hahead | done].
    + intros j Hj. apply Hkeep. intros [_ Hcontra]. done.
Qed.

Lemma clock_selects_first_unreferenced_frame_witness :
  vec_size [true; true; false; true] = 4 ∧ 0 < 4 < Int.int_half
  ∧ clock_ok 4 (CLOCKReplacement.mk [true; true; false; false] 1)
  ∧ ∃ f s', CLOCKReplacement.select [true; true; false; true] (PT.new 4096 8)
              (CLOCKReplacement.mk [true; true; false; false] 1) = Some (f, s')
      ∧ f = 3
      ∧ CLOCKReplacement.clock_hand_ s' = 0.
Proof.
  assert (vec_size [true; true; false; true] = 4) as HF by reflexivity.
  assert (0 < 4 < Int.int_half) as HFrange by (vm_compute; done).
  assert (clock_ok 4 (CLOCKReplacement.mk [true; true; false; false] 1)) as Hok
    by (vm_compute; done).
  split; [exact HF |]. split; [exact HFrange |]. split; [exact Hok |].
  destruct (clock_selects_first_unreferenced_frame [true; true; false; true] 4
              (PT.new 4096 8) (CLOCKReplacement.mk [true; true; false; false] 1)
              HF HFrange Hok) as (f & s' & Hrun & _).
  exists f, s'. split; [exact Hrun |].
  vm_compute in Hrun. injection Hrun as <- <-. split; reflexivity.
Defined.

Lemma lru_scan_min fv times limit : ∀ rest n oldest victim,
  drop n fv = rest →
  vec_size fv <= vec_size times → vec_size fv < Int.int_half →
  lru_scanned fv times limit (Z.of_nat n) oldest victim →
  ∃ f oldest', LRUReplacement.scan rest (Z.of_nat n) times oldest victim = Some f
    ∧ lru_scanned fv times limit (vec_size fv) oldest' f.
Proof.
  induction rest as [| occ rest IH]; intros n oldest victim Hdrop Hsize Hsmall Hinv.
  - exists victim, oldest. split; [done |].
    assert (length fv <= n)%nat as Hlen.
    { apply (f_equal length) in Hdrop. rewrite length_drop in Hdrop.
      simpl in Hdrop. lia. }
    destruct Hinv as [Hvictim Hmin]. split.
    + destruct Hvictim as [? | (Hv & Hocc & ?)]; [by left | right].
      split; [| done]. apply vec_at_lt in Hocc. lia.
    + intros j t Hj Hocc Ht. apply Hmin; try done.
      apply vec_at_lt in Hocc. unfold vec_size in *. lia.
  - assert (fv !! n = Some occ) as Hn.
    { rewrite <- (Nat.add_0_r n), <- lookup_drop, Hdrop. done. }
    assert (drop (S n) fv = rest) as Hdrop'.
    { erewrite drop_S in Hdrop by done. by injection Hdrop. }
    assert (Z.of_nat n < vec_size fv) as Hrange.
    { apply lookup_lt_Some in Hn. unfold vec_size. lia. }
    assert (vec_at fv (Z.of_nat n) = Some occ) as Hat.
    { apply vec_at_Some. rewrite Nat2Z.id. split; [lia | done]. }
    replace (Z.of_nat n + 1) with (Z.of_nat (S n)) by lia.
    destruct Hinv as [Hvictim Hmin].
    simpl. replace (Z.of_nat n + 1) with (Z.of_nat (S n)) by lia.
    destruct occ.
    + destruct (vec_at_defined times (Z.of_nat n)) as [time Htime]; [lia |].
      rewrite Htime. simpl. case_decide as Hold.
      * rewrite to_int_small by (unfold Int.int_half in *; lia).
        apply IH; try done. split.
        -- right. split; [lia |]. split; [done |]. split; [done |].
           destruct Hvictim as [[_ ->] | (_ & _ & _ & ?)]; lia.
        -- intros j t Hj Hocc Ht.
           destruct (decide (j = Z.of_nat n)) as [-> | Hne].
           ++ assert (t = time) as -> by congruence. lia.
           ++ destruct (Hmin j t) as [Hle _]; try done; lia.
      * apply IH; try done. split.
        -- destruct Hvictim as [? | (? & ? & ? & ?)]; [by left | right].
           split; [lia | done].
        -- intros j t Hj Hocc Ht.
           destruct (decide (j = Z.of_nat n)) as [-> | Hne].
           ++ assert (t = time) as -> by congruence. split; [lia |].
              intros _. destruct Hvictim as [[-> _] | (? & _)]; lia.
           ++ apply Hmin; try done; lia.
    + apply IH; try done. split.
      * destruct Hvictim as [? | (? & ? & ? & ?)]; [by left | right].
        split; [lia | done].
      * intros j t Hj Hocc Ht.
        destruct (decide (j = Z.of_nat n)) as [-> | Hne].
        -- unfold occupied in Hocc. congruence.
        -- apply Hmin; try done; lia.
Qed.

Lemma lru_select_min fv pt s :
  vec_size fv <= vec_size (LRUReplacement.last_access_times_ s) →
  vec_size fv < Int.int_half →
  ∃ f, LRUReplacement.select fv pt s = Some (f, s)
    ∧ (f = -1 ↔ ∀ j t, occupied fv j →
                       vec_at (LRUReplacement.last_access_times_ s) j = Some t →
                       Int.ULLONG_MAX <= t)
    ∧ (f ≠ -1 →
       occupied fv f
       ∧ ∃ t, vec_at (LRUReplacement.last_access_times_ s) f = Some t
           ∧ t < Int.ULLONG_MAX
           ∧ ∀ j t', occupied fv j →
                     vec_at (LRUReplacement.last_access_times_ s) j = Some t' →
                     t <= t' ∧ (t' = t → f <= j)).
Proof.
  intros Hsize Hsmall. unfold LRUReplacement.select.
  destruct (lru_scan_min fv (LRUReplacement.last_access_times_ s) Int.ULLONG_MAX
              fv 0%nat Int.ULLONG_MAX (-1))
    as (f & oldest & Hrun & Hvictim & Hmin); try done.
  { split; [by left |]. intros j t Hj. lia. }
  change (Z.of_nat 0) with 0 in Hrun. rewrite Hrun. simpl.
  exists f. split; [done |].
  assert (∀ j t, occupied fv j →
                 vec_at (LRUReplacement.last_access_times_ s) j = Some t →
                 oldest <= t ∧ (t = oldest → f <= j)) as Hmin'.
  { intros j t Hocc Ht. apply Hmin; try done. by apply vec_at_lt in Hocc. }
  destruct Hvictim as [[-> ->] | (Hf & Hocc & Ht & Hlt)].
  - split; [| done]. split; [| done]. intros _ j t Hocc Ht.
    by apply (Hmin' j t).
  - split.
    + split; [lia |]. intros Hall. specialize (Hall f oldest Hocc Ht). lia.
    + intros _. split; [done |]. exists oldest. split_and!; try done.
Qed.

(** X12.  LRU victim selection.  When the policy holds a time for every
    frame, [LRUReplacement::selectVictimFrame] leaves the policy state
    unchanged and returns the occupied frame whose last access time is
    smallest, the one with the smallest index among equals; it returns
    [-1] exactly when no occupied frame has a time below [ULLONG_MAX],
    in particular when no frame is occupied. *)
Theorem lru_selects_least_recently_used fv pt s :
  vec_size fv <= vec_size (LRUReplacement.last_access_times_ s) →
  vec_size fv < Int.int_half →
  ∃ f, LRUReplacement.select fv pt s = Some (f, s)
    ∧ (f = -1 ↔ ∀ j t, occupied fv j →
                       vec_at (LRUReplacement.last_access_times_ s) j = Some t →
                       Int.ULLONG_MAX <= t)
    ∧ (f ≠ -1 →
       occupied fv f
       ∧ ∃ t, vec_at (LRUReplacement.last_access_times_ s) f = Some t
           ∧ t < Int.ULLONG_MAX
           ∧ ∀ j t', occupied fv j →
                     vec_at (LRUReplacement.last_access_times_ s) j = Some t' →
                     t <= t' ∧ (t' = t → f <= j)).
Proof. apply lru_select_min. Qed.

Lemma lru_selects_least_recently_used_witness :
  vec_size [true; false; true] <= vec_size (LRUReplacement.last_access_times_
                                              (LRUReplacement.mk [5; 0; 3] 6))
  ∧ vec_size [true; false; true] < Int.int_half
  ∧ ∃ f, LRUReplacement.select [true; false; true] (PT.new 4096 8)
           (LRUReplacement.mk [5; 0; 3] 6)
         = Some (f, LRUReplacement.mk [5; 0; 3] 6)
      ∧ f = 2.
Proof.
  assert (vec_size [true; false; true]
          <= vec_size (LRUReplacement.last_access_times_
                         (LRUReplacement.mk [5; 0; 3] 6))) as Hsize
    by (vm_compute; discriminate).
  assert (vec_size [true; false; true] < Int.int_half) as Hsmall
    by (vm_compute; done).
  split; [exact Hsize |]. split; [exact Hsmall |].
  destruct (lru_selects_least_recently_used [true; false; true] (PT.new 4096 8)
              (LRUReplacement.mk [5; 0; 3] 6) Hsize Hsmall) as (f & Hrun & _).
  exists f. split; [exact Hrun |].
  vm_compute in Hrun. by injection Hrun as <-.
Defined.

(** X13.  LRU spares the frame just used.  After
    [recordFrameAccess(f)] on a frame the policy knows, the next
    [selectVictimFrame] does not return [f], nor [-1], as long as some
    other occupied frame was last used before: it returns an occupied
    frame other than [f]. *)
Theorem lru_spares_the_frame_just_used fv pt s f j t :
  vec_size fv <= vec_size (LRUReplacement.last_access_times_ s) →
  vec_size (LRUReplacement.last_access_times_ s) < Int.int_half →
  0 <= f < vec_size (LRUReplacement.last_access_times_ s) →
  LRUReplacement.current_time_ s <= Int.ULLONG_MAX →
  occupied fv j → j ≠ f →
  vec_at (LRUReplacement.last_access_times_ s) j = Some t →
  t < LRUReplacement.current_time_ s →
  ∃ g, LRUReplacement.select fv pt (LRUReplacement.access f s)
       = Some (g, LRUReplacement.access f s)
    ∧ g ≠ -1 ∧ g ≠ f ∧ occupied fv g.
Proof.
  intros Hsize Hsmall Hf Hct Hocc Hjf Ht Hlt.
  assert (LRUReplacement.access f s
          = LRUReplacement.mk
              (<[Z.to_nat f := LRUReplacement.current_time_ s]>
                 (LRUReplacement.last_access_times_ s))
              (Int.incr (LRUReplacement.current_time_ s))) as Hacc.
  { unfold LRUReplacement.access. rewrite to_int_small by (unfold Int.int_half in *; lia).
    rewrite decide_True by lia. unfold vec_set. by rewrite decide_True by lia. }
  rewrite Hacc.
  destruct (lru_select_min fv pt
              (LRUReplacement.mk
                 (<[Z.to_nat f := LRUReplacement.current_time_ s]>
                    (LRUReplacement.last_access_times_ s))
                 (Int.incr (LRUReplacement.current_time_ s))))
    as (g & Hrun & Hnone & Hsome).
  { simpl. by rewrite vec_size_insert. }
  { lia. }
  simpl in *. exists g. split; [done |].
  assert (vec_at (<[Z.to_nat f := LRUReplacement.current_time_ s]>
                    (LRUReplacement.last_access_times_ s)) j = Some t) as Ht'.
  { rewrite vec_at_insert_ne by lia. done. }
  assert (g ≠ -1) as Hg.
  { intros Hcontra. destruct Hnone as [Hnone _].
    specialize (Hnone Hcontra j t Hocc Ht'). lia. }
  split; [done |].
  destruct (Hsome Hg) as (Hoccg & tg & Htg & _ & Hmin).
  split; [| done]. intros ->.
  rewrite vec_at_insert_eq in Htg by lia. injection Htg as <-.
  destruct (Hmin j t Hocc Ht') as [? _]. lia.
Qed.

Lemma lru_spares_the_frame_just_used_witness :
  ∃ g, LRUReplacement.select [true; true; true] (PT.new 4096 8)
         (LRUReplacement.access 2 (LRUReplacement.mk [5; 4; 3] 6))
       = Some (g, LRUReplacement.access 2 (LRUReplacement.mk [5; 4; 3] 6))
    ∧ g ≠ -1 ∧ g ≠ 2 ∧ occupied [true; true; true] g.
Proof.
  apply (lru_spares_the_frame_just_used [true; true; true] (PT.new 4096 8)
           (LRUReplacement.mk [5; 4; 3] 6) 2 1 4).
  - vm_compute. discriminate.
  - vm_compute. reflexivity.
  - vm_compute. split; [discriminate | reflexivity].
  - vm_compute. discriminate.
  - reflexivity.
  - lia.
  - reflexivity.
  - simpl. lia.
Defined.

Lemma fifo_select_loop_stale fv : ∀ queue members,
  Forall (λ f, 0 <= f < vec_size fv) queue →
  NoDup queue → (∀ f, f ∈ members ↔ f ∈ queue) →
  ∃ f s' stale, FIFOReplacement.select_loop fv queue members = Some (f, s')
    ∧ queue = stale ++ FIFOReplacement.fifo_queue_ s'
    ∧ Forall (λ g, vec_at fv g = Some false) stale
    ∧ ((f = -1 ∧ FIFOReplacement.fifo_queue_ s' = [])
       ∨ (occupied fv f ∧ head (FIFOReplacement.fifo_queue_ s') = Some f))
    ∧ fifo_ok s'.
Proof.
  induction queue as [| frame rest IH]; intros members Hrange Hnodup Hmembers.
  - simpl. eexists _, _, []. split; [done |]. simpl. split_and!; try done.
    by left.
  - apply Forall_cons in Hrange as [Hframe Hrange].
    apply NoDup_cons in Hnodup as [Hnotin Hnodup].
    destruct (vec_at_defined fv frame Hframe) as [occ Hocc].
    simpl. rewrite Hocc. simpl. destruct occ.
    + eexists _, _, []. split; [done |]. simpl. split_and!; try done.
      * by right.
      * split; simpl; [by apply NoDup_cons | done].
    + destruct (IH (members ∖ {[frame]}) Hrange Hnodup)
        as (f & s' & stale & Hrun & Hq & Hstale & Hf & Hok).
      { intros f. rewrite elem_of_difference, elem_of_singleton, Hmembers.
        rewrite elem_of_cons. split.
        - intros [[-> | ?] ?]; done.
        - intros Hin. split; [by right |]. intros ->. done. }
      exists f, s', (frame :: stale). split; [done |].
      split; [by rewrite Hq at 1 |].
      split; [by constructor |]. done.
Qed.

(** X14.  FIFO victim selection.  On a queue of existing frames without
    duplicates whose membership set mirrors it,
    [FIFOReplacement::selectVictimFrame] removes the leading entries of
    unoccupied frames from queue and set, and returns the first
    occupied frame of the queue, which stays at the head; it returns
    [-1], with the queue emptied, when no queued frame is occupied.  The
    queue still has no duplicates and the set still mirrors it. *)
Theorem fifo_selects_first_occupied_in_queue fv pt s :
  Forall (λ f, 0 <= f < vec_size fv) (FIFOReplacement.fifo_queue_ s) →
  fifo_ok s →
  ∃ f s' stale, FIFOReplacement.select fv pt s = Some (f, s')
    ∧ FIFOReplacement.fifo_queue_ s = stale ++ FIFOReplacement.fifo_queue_ s'
    ∧ Forall (λ g, vec_at fv g = Some false) stale
    ∧ ((f = -1 ∧ FIFOReplacement.fifo_queue_ s' = [])
       ∨ (occupied fv f ∧ head (FIFOReplacement.fifo_queue_ s') = Some f))
    ∧ fifo_ok s'.
Proof.
  intros Hrange [Hnodup Hmembers]. by apply fifo_select_loop_stale.
Qed.

Lemma fifo_selects_first_occupied_in_queue_witness :
  Forall (λ f, 0 <= f < vec_size [true; false; true])
    (FIFOReplacement.fifo_queue_ (FIFOReplacement.mk [1; 2; 0] {[0; 1; 2]}))
  ∧ fifo_ok (FIFOReplacement.mk [1; 2; 0] {[0; 1; 2]})
  ∧ ∃ f s' stale,
      FIFOReplacement.select [true; false; true] (PT.new 4096 8)
        (FIFOReplacement.mk [1; 2; 0] {[0; 1; 2]}) = Some (f, s')
      ∧ FIFOReplacement.fifo_queue_ (FIFOReplacement.mk [1; 2; 0] {[0; 1; 2]})
        = stale ++ FIFOReplacement.fifo_queue_ s'
      ∧ Forall (λ g, vec_at [true; false; true] g = Some false) stale
      ∧ ((f = -1 ∧ FIFOReplacement.fifo_queue_ s' = [])
         ∨ (occupied [true; false; true] f
            ∧ head (FIFOReplacement.fifo_queue_ s') = Some f))
      ∧ fifo_ok s'.
Proof.
  assert (Forall (λ f, 0 <= f < vec_size [true; false; true])
            (FIFOReplacement.fifo_queue_ (FIFOReplacement.mk [1; 2; 0] {[0; 1; 2]})))
    as Hrange by (repeat constructor; vm_compute; done).
  assert (fifo_ok (FIFOReplacement.mk [1; 2; 0] {[0; 1; 2]})) as Hok.
  { split; simpl.
    - apply (bool_decide_unpack _). by vm_compute.
    - intros f. rewrite !elem_of_union, !elem_of_singleton, !elem_of_cons, elem_of_nil.
      lia. }
  split; [exact Hrange |]. split; [exact Hok |].
  exact (fifo_selects_first_occupied_in_queue [true; false; true] (PT.new 4096 8)
           (FIFOReplacement.mk [1; 2; 0] {[0; 1; 2]}) Hrange Hok).
Defined.

(** X15.  FIFO bookkeeping.  [FIFOReplacement::recordFrameAccess(f)]
    appends [f] to the queue when [f] is not queued and changes nothing
    when it is: a frame is never queued twice, its position is that of
    its first access, and the membership set keeps mirroring the queue. *)
Theorem fifo_access_enqueues_once f s :
  fifo_ok s →
  fifo_ok (FIFOReplacement.access f s)
  ∧ f ∈ FIFOReplacement.fifo_queue_ (FIFOReplacement.access f s)
  ∧ (f ∈ FIFOReplacement.fifo_queue_ s → FIFOReplacement.access f s = s)
  ∧ (f ∉ FIFOReplacement.fifo_queue_ s →
     FIFOReplacement.fifo_queue_ (FIFOReplacement.access f s)
     = FIFOReplacement.fifo_queue_ s ++ [f]).
Proof.
  intros [Hnodup Hmembers]. unfold FIFOReplacement.access.
  destruct (decide (f ∈ FIFOReplacement.in_queue_ s)) as [Hin | Hout].
  - split; [done |]. split; [by apply Hmembers |]. split; [done |].
    intros Hnot. by apply Hmembers in Hin.
  - rewrite Hmembers in Hout. simpl. split_and!.
    + split; simpl.
      * apply NoDup_app. split; [done |]. split; [| apply NoDup_singleton].
        intros g Hg Hgf. apply list_elem_of_singleton in Hgf. by subst.
      * intros g. rewrite elem_of_union, elem_of_singleton, elem_of_app,
          list_elem_of_singleton, Hmembers. tauto.
    + rewrite elem_of_app, list_elem_of_singleton. by right.
    + done.
    + done.
Qed.

Lemma fifo_access_enqueues_once_witness :
  fifo_ok FIFOReplacement.new
  ∧ fifo_ok (FIFOReplacement.access 2 FIFOReplacement.new)
  ∧ 2 ∈ FIFOReplacement.fifo_queue_ (FIFOReplacement.access 2 FIFOReplacement.new).
Proof.
  assert (fifo_ok FIFOReplacement.new) as Hok.
  { split; simpl; [apply NoDup_nil_2 |]. intros f.
    rewrite elem_of_empty, elem_of_nil. done. }
  split; [exact Hok |].
  destruct (fifo_access_enqueues_once 2 FIFOReplacement.new Hok) as (H1 & H2 & _).
  split; [exact H1 | exact H2].
Defined.

(** ** FIFO and LRU always find a victim *)

Lemma fifo_access_ok f s :
  fifo_ok s →
  fifo_ok (FIFOReplacement.access f s)
  ∧ f ∈ FIFOReplacement.fifo_queue_ (FIFOReplacement.access f s)
  ∧ ∀ g, g ∈ FIFOReplacement.fifo_queue_ s →
         g ∈ FIFOReplacement.fifo_queue_ (FIFOReplacement.access f s).
Proof.
  intros [Hnodup Hmembers]. unfold FIFOReplacement.access.
  destruct (decide (f ∈ FIFOReplacement.in_queue_ s)) as [Hin | Hout].
  - split; [done |]. split; [by apply Hmembers | done].
  - rewrite Hmembers in Hout. simpl. split_and!.
    + split; simpl.
      * apply NoDup_app. split; [done |]. split; [| apply NoDup_singleton].
        intros g Hg Hgf. apply list_elem_of_singleton in Hgf. by subst.
      * intros g. rewrite elem_of_union, elem_of_singleton, elem_of_app,
          list_elem_of_singleton, Hmembers. tauto.
    + rewrite elem_of_app, list_elem_of_singleton. by right.
    + intros g Hg. rewrite elem_of_app. by left.
Qed.

Lemma finds_victims_access n fv fv' f rm :
  finds_victims n fv rm →
  (∀ g, occupied fv' g → g = f ∨ occupied fv g) →
  n + 1 < Int.size_t_modulus →
  finds_victims (n + 1) fv' (RM.access f rm).
Proof.
  unfold finds_victims. destruct rm as [[s | s | s] F]; simpl; [| | done].
  - intros [Hok Hqueue] Hocc _.
    destruct (fifo_access_ok f s Hok) as (Hok' & Hf & Hkeep).
    split; [done |]. intros g Hg.
    destruct (Hocc g Hg) as [-> | Hg']; [done |]. by apply Hkeep, Hqueue.
  - intros [Hct Htimes] _ Hn. unfold LRUReplacement.access.
    case_decide as Hf; simpl.
    + rewrite incr_small by lia. split; [lia |].
      unfold vec_set. rewrite decide_True by lia.
      apply Forall_insert; [| lia].
      eapply Forall_impl; [exact Htimes |]. simpl. intros t Ht. lia.
    + split; [lia | done].
Qed.

Lemma finds_victims_select n fv pt rm F f rm' :
  vec_size fv = F → 0 < F < Int.int_half → alg_wf F (algorithm_ rm) →
  Forall (λ b, b = true) fv →
  n < Int.ULLONG_MAX →
  finds_victims n fv rm →
  RM.select fv pt rm = Some (f, rm') →
  f ≠ -1 ∧ finds_victims n fv rm'.
Proof.
  intros HF HFrange Hwf Hfull Hn. unfold finds_victims, RM.select.
  assert (occupied fv 0) as Hzero.
  { destruct (vec_at_defined fv 0) as [b Hb]; [lia |].
    unfold occupied. by rewrite Hb, (vec_at_elem _ _ _ _ Hfull Hb). }
  destruct rm as [[s | s | s] k]; simpl in *; [| | done].
  - intros [[Hnodup Hmembers] Hqueue].
    destruct (fifo_select_loop_stale fv (FIFOReplacement.fifo_queue_ s)
                (FIFOReplacement.in_queue_ s))
      as (g & s' & stale & Hrun & Hq & Hstale & Hg & Hok'); try done.
    { by rewrite HF. }
    unfold FIFOReplacement.select. rewrite Hrun. simpl. intros [= <- <-]. simpl.
    assert (∀ h, occupied fv h → h ∈ FIFOReplacement.fifo_queue_ s') as Hqueue'.
    { intros h Hh. specialize (Hqueue h Hh). rewrite Hq in Hqueue.
      apply elem_of_app in Hqueue as [Hin | Hin]; [| done].
      rewrite Forall_forall in Hstale. specialize (Hstale h Hin).
      unfold occupied in Hh. congruence. }
    split; [| done].
    destruct Hg as [[-> Hempty] | [Hocc _]].
    + specialize (Hqueue' 0 Hzero). rewrite Hempty in Hqueue'.
      by apply elem_of_nil in Hqueue'.
    + apply vec_at_lt in Hocc. lia.
  - intros [Hct Htimes].
    destruct (lru_select_min fv pt s) as (g & Hrun & Hnone & _); [lia | lia |].
    rewrite Hrun. simpl. intros [= <- <-]. simpl. split; [| done].
    intros Hg. destruct Hnone as [Hnone _].
    destruct (vec_at_defined (LRUReplacement.last_access_times_ s) 0) as [t Ht];
      [lia |].
    specialize (Hnone Hg 0 t Hzero Ht).
    pose proof (vec_at_elem _ _ _ _ Htimes Ht) as Hle. simpl in Hle. lia.
Qed.

(** X16.  FIFO and LRU always load the page.  On a fresh, started
    manager with a valid configuration whose policy is FIFO or LRU, every
    access leaves the accessed page resident, whatever came before it: a
    fault with all frames occupied always finds a victim.  (The run is
    taken shorter than 2^64 accesses, so that the LRU clock does not
    wrap.) *)
Theorem fifo_and_lru_always_load_the_page callback config accesses page is_write :
  config_ok config →
  replacement_policy config ≠ CLOCK →
  Z.of_nat (length accesses) + 1 < Int.ULLONG_MAX →
  ∃ v, run (accesses ++ [(page, is_write)]) (fresh callback config) = Some v
    ∧ PT.isPageValid (page_table_ v) page = true.
Proof.
  intros Hok Hpolicy Hlen.
  destruct (run_invariant
    (λ done v,
       finds_victims (Z.of_nat (length done)) (frame_validity_ v)
         (replacement_manager_ v)
       ∧ ∀ p w, last done = Some (p, w) → PT.isPageValid (page_table_ v) p = true)
    (accesses ++ [(page, is_write)]))
    with (v := fresh callback config) as (v & Hrun & _ & _ & _ & HP).
  - intros done p w v v' Hwf _ (Hfinds & _) Hprefix _ _ _ _ Hstep _.
    apply prefix_snoc_length in Hprefix.
    rewrite !length_app in *. simpl length in *.
    replace (Z.of_nat (length done + 1)) with (Z.of_nat (length done) + 1) by lia.
    assert (Z.of_nat (length done) + 1 < Int.size_t_modulus) as Hn
      by (unfold Int.ULLONG_MAX in *; lia).
    assert (Z.of_nat (length done) < Int.ULLONG_MAX) as Hn' by lia.
    pose proof Hwf as [[HF _] Hfv _ _ _ Halg].
    assert (∀ f, resident v' p = Some f → ∀ p' w',
              last (done ++ [(p, w)]) = Some (p', w') →
              PT.isPageValid (page_table_ v') p' = true) as Hlast.
    { intros f Hres p' w'. rewrite last_snoc. intros [= <- <-].
      by apply resident_Some in Hres as [? _]. }
    destruct Hstep as [f H1 H2 H3 H4 H5 H6 H7 Hm | f H1 H2 H3 H4 H5 H6 H7 H8 Hm
                      | f u d manager H1 H2 H3 H4 H5 H6 H7 H8 H9 H10 Hsel Hf Hm
                      | H1 H2 H3 H4 H5 H6 H7 H8 Hsel].
    + split.
      * rewrite H2, Hm. apply (finds_victims_access _ (frame_validity_ v)); try done.
        intros g Hg. by right.
      * apply (Hlast f). by rewrite H5.
    + split.
      * rewrite H3, Hm. apply (finds_victims_access _ (frame_validity_ v)); try done.
        intros g Hg. destruct (decide (g = f)) as [| Hne]; [by left | right].
        unfold occupied in *. apply vec_at_lt in H2.
        by rewrite vec_at_insert_ne in Hg by lia.
      * apply (Hlast f). by rewrite H6, decide_True.
    + destruct (finds_victims_select _ _ _ _ _ _ _ Hfv HF Halg H2 Hn'
                  Hfinds Hsel) as [_ Hfinds'].
      split.
      * rewrite H5, Hm. apply (finds_victims_access _ (frame_validity_ v)); try done.
        intros g Hg. by right.
      * apply (Hlast f). by rewrite H8, decide_True.
    + destruct (finds_victims_select _ _ _ _ _ _ _ Hfv HF Halg H2 Hn'
                  Hfinds Hsel) as [Hcontra _]. done.
  - by apply wf_fresh.
  - apply fresh_running.
  - split; [| done]. unfold finds_victims, fresh, startSimulation, setEventCallback.
    rewrite emitEvent_eq. simpl.
    destruct (replacement_policy config); simpl; [| | done].
    + split.
      * split; simpl; [apply NoDup_nil_2 |]. intros f.
        rewrite elem_of_empty, elem_of_nil. done.
      * intros f Hf. unfold occupied in Hf. rewrite resize_nil in Hf.
        apply vec_at_Some in Hf as [_ Hf]. by apply lookup_replicate in Hf as [? _].
    + split; [lia |]. apply Forall_replicate. lia.
  - exists v. split; [done |]. apply (HP page is_write). by rewrite last_snoc.
Qed.

Lemma fifo_and_lru_always_load_the_page_witness :
  config_ok fifo_3_8
  ∧ replacement_policy fifo_3_8 ≠ CLOCK
  ∧ Z.of_nat (length belady) + 1 < Int.ULLONG_MAX
  ∧ ∃ v, run (belady ++ [(6, true)]) (fresh true fifo_3_8) = Some v
      ∧ PT.isPageValid (page_table_ v) 6 = true.
Proof.
  assert (config_ok fifo_3_8) as Hok by (vm_compute; done).
  assert (replacement_policy fifo_3_8 ≠ CLOCK) as Hpolicy by discriminate.
  assert (Z.of_nat (length belady) + 1 < Int.ULLONG_MAX) as Hlen
    by (vm_compute; done).
  split; [exact Hok |]. split; [exact Hpolicy |]. split; [exact Hlen |].
  exact (fifo_and_lru_always_load_the_page true fifo_3_8 belady 6 true
           Hok Hpolicy Hlen).
Defined.

(** ** URL coding *)

Section URL.
Import Stdlib.Strings.Ascii.

Lemma stoi_hex_byte c : Server.stoi (Server.hex_byte (Server.char_code c)) = Some (Server.char_code c).
Proof. destruct c as [[] [] [] [] [] [] [] []]; vm_compute; reflexivity. Qed.

Lemma char_of_int_code c : Server.char_of_int (Server.char_code c) = c.
Proof. destruct c as [[] [] [] [] [] [] [] []]; vm_compute; reflexivity. Qed.

Lemma hex_byte_safe c : Forall url_safe (chars (Server.hex_byte (Server.char_code c))).
Proof.
  destruct c as [[] [] [] [] [] [] [] []];
    repeat constructor; left; vm_compute; reflexivity.
Qed.

Lemma urlDecode_plain c s :
  c ≠ "%"%char →
  Server.urlDecode (String c s)
  = result ← Server.urlDecode s; Some (String (plus_to_space c) result).
Proof.
  intros Hc. destruct s as [| a [| b s]]; simpl;
    rewrite ?bool_decide_eq_false_2 by done; done.
Qed.

Lemma urlDecode_escape a b s :
  Server.urlDecode (String "%" (String a (String b s)))
  = hex ← Server.stoi (String a (String b EmptyString));
    result ← Server.urlDecode s;
    Some (String (Server.char_of_int hex) result).
Proof. done. Qed.

Lemma unreserved_plain c :
  (default false (Server.isalnum c) || bool_decide (c = "-"%char)
   || bool_decide (c = "_"%char) || bool_decide (c = "."%char)
   || bool_decide (c = "~"%char)) = true →
  c ≠ "%"%char ∧ plus_to_space c = c ∧ url_safe c.
Proof.
  destruct c as [[] [] [] [] [] [] [] []]; vm_compute; intros H;
    try discriminate H; (split; [discriminate |]); (split; [reflexivity |]);
    first [ left; reflexivity
          | right; repeat first [ apply list_elem_of_here | apply list_elem_of_further ] ].
Qed.


Lemma urlEncode_cons c rest :
  Server.urlEncode (String c rest)
  = alnum ← Server.isalnum c;
    escaped ← Server.urlEncode rest;
    if alnum || bool_decide (c = "-"%char) || bool_decide (c = "_"%char)
       || bool_decide (c = "."%char) || bool_decide (c = "~"%char)
    then Some (String c escaped)
    else Some (String "%"%char (Server.hex_byte (Server.char_code c) +:+ escaped)).
Proof. done. Qed.

(** X17.  URL coding round trip.  [urlEncode] is defined on exactly the
    strings whose characters [std::isalnum] accepts as arguments (codes
    below 128 and code 255, [char] being signed); its output consists
    of letters, digits and the characters [% - _ . ~] only, and
    [urlDecode] maps it back to the original string without throwing. *)
Theorem urlDecode_inverts_urlEncode s :
  (is_Some (Server.urlEncode s)
   ↔ Forall (λ c, is_Some (Server.isalnum c)) (chars s))
  ∧ ∀ escaped, Server.urlEncode s = Some escaped →
      Server.urlDecode escaped = Some s
      ∧ Forall url_safe (chars escaped).
Proof.
  induction s as [| c rest [IHdef IH]].
  - split; [split; [by constructor | by eexists] |].
    intros escaped [= <-]. split; [done | constructor].
  - rewrite urlEncode_cons. split.
    + simpl chars. rewrite Forall_cons. rewrite <- IHdef.
      destruct (Server.isalnum c) as [alnum |]; simpl.
      * destruct (Server.urlEncode rest) as [escaped |]; simpl.
        -- split; [intros _; split; by eexists |]. intros _.
           destruct (_ || _); by eexists.
        -- split; [by intros [? ?] | by intros [_ [? ?]]].
      * split; [by intros [? ?] | by intros [[? ?] _]].
    + intros escaped Hrun.
      destruct (Server.isalnum c) as [alnum |] eqn:Halnum; [| done].
      destruct (Server.urlEncode rest) as [escaped' |]; [| done].
      destruct (IH escaped' eq_refl) as [Hback Hsafe].
      simpl in Hrun.
      destruct (alnum || _ || _ || _ || _) eqn:Hplain; injection Hrun as <-.
      * destruct (unreserved_plain c) as (Hc & Hplus & Hurl);
          [by rewrite Halnum |].
        rewrite urlDecode_plain by done. rewrite Hback. simpl. rewrite Hplus.
        split; [done | by constructor].
      * pose proof (hex_byte_safe c) as Hhex.
        change (Server.hex_byte (Server.char_code c) +:+ escaped')
          with (String (Server.hex_digit (Server.char_code c `div` 16))
                  (String (Server.hex_digit (Server.char_code c `mod` 16)) escaped')).
        rewrite urlDecode_escape.
        change (String (Server.hex_digit (Server.char_code c `div` 16))
                  (String (Server.hex_digit (Server.char_code c `mod` 16)) ""))
          with (Server.hex_byte (Server.char_code c)).
        rewrite stoi_hex_byte. simpl. rewrite Hback. simpl.
        rewrite char_of_int_code. split; [done |].
        simpl chars. constructor; [right; apply list_elem_of_here |].
        unfold Server.hex_byte in Hhex. simpl chars in Hhex.
        apply Forall_cons in Hhex as [H1 Hhex].
        apply Forall_cons in Hhex as [H2 _].
        constructor; [done |]. by constructor.
Qed.

Lemma urlDecode_short tail :
  (String.length tail <= 2)%nat →
  Server.urlDecode tail = Some (map_chars plus_to_space tail).
Proof.
  destruct tail as [| a [| b [| c tail]]]; simpl; try done.
  intros. lia.
Qed.

(** X18.  Decoding without escapes.  [urlDecode] does not throw on a
    string in which no ['%'] has two characters after it: it returns the
    string with every ['+'] replaced by a space, a ['%'] among the last
    two characters being copied like any other character. *)
Theorem urlDecode_without_escapes body tail :
  Forall (λ c, c ≠ "%"%char) (chars body) →
  (String.length tail <= 2)%nat →
  Server.urlDecode (body +:+ tail)
  = Some (map_chars plus_to_space (body +:+ tail)).
Proof.
  intros Hbody Htail. induction body as [| c body IH].
  - by apply urlDecode_short.
  - simpl chars in Hbody. apply Forall_cons in Hbody as [Hc Hbody].
    change (String c body +:+ tail) with (String c (body +:+ tail)).
    rewrite urlDecode_plain by done. rewrite (IH Hbody). done.
Qed.

Lemma urlDecode_without_escapes_witness :
  Forall (λ c, c ≠ "%"%char) (chars "a+b=c d")
  ∧ (String.length "%4" <= 2)%nat
  ∧ Server.urlDecode ("a+b=c d" +:+ "%4")
    = Some (map_chars plus_to_space ("a+b=c d" +:+ "%4")).
Proof.
  assert (Forall (λ c, c ≠ "%"%char) (chars "a+b=c d")) as Hbody
    by (repeat constructor; discriminate).
  assert (String.length "%4" <= 2)%nat as Htail by (simpl; lia).
  split; [exact Hbody |]. split; [exact Htail |].
  exact (urlDecode_without_escapes "a+b=c d" "%4" Hbody Htail).
Defined.

End URL.

(** ** The workload generator *)

Section Workloads.
Import Workload.
Context {E : Type}.

Lemma generate_pattern random_page g :
  pattern_ok (config_ g) →
  0 <= current_position_ g < total_requests (config_ g) →
  generate random_page g = Some (pattern_page (config_ g) (current_position_ g))
  ∧ 0 <= pattern_page (config_ g) (current_position_ g).
Proof.
  intros (HR & Htotal & Htype) Hpos.
  unfold generate, pattern_page, generateSequentialAccess, generateStridedAccess.
  destruct (type (config_ g)); try done.
  - rewrite decide_False by lia.
    pose proof (Z.mod_pos_bound (current_position_ g) (page_range (config_ g))).
    rewrite to_int_small by (unfold Int.int_half in *; lia). split; [done | lia].
  - rewrite decide_False by lia. destruct Htype as [Hstride Hproduct].
    rewrite (to_size_t_small (stride _)) by (unfold Int.size_t_modulus, Int.int_half in *; nia).
    rewrite to_size_t_small by nia.
    pose proof (Z.mod_pos_bound (current_position_ g * stride (config_ g))
                  (page_range (config_ g))).
    rewrite to_int_small by (unfold Int.int_half in *; lia). split; [done | lia].
Qed.

Lemma generate_all_pattern callback completion draws : ∀ c n (env : E),
  pattern_ok c →
  0 <= n → n + Z.of_nat (length draws) < total_requests c →
  generate_all (Some callback) completion draws (mkWorkloadGenerator c true n) env
  = env ← deliver callback (pattern_accesses c n draws) env;
    Some (mkWorkloadGenerator c true (n + Z.of_nat (length draws)), env).
Proof.
  induction draws as [| draw draws IH]; intros c n env Hok Hn Hlen.
  - simpl. by rewrite Z.add_0_r.
  - simpl length in Hlen.
    destruct (generate_pattern (random_page draw) (mkWorkloadGenerator c true n))
      as [Hpage Hnonneg]; [done | simpl; lia |].
    simpl in Hpage, Hnonneg.
    cbn [generate_all isRunning running_ generateNextAccess negb].
    rewrite Hpage. cbn [mbind option_bind]. rewrite decide_True by lia.
    cbn [pattern_accesses deliver].
    destruct (callback _ _ env) as [env' |]; [| done].
    cbn [mbind option_bind config_ current_position_ running_].
    pose proof Hok as (_ & Htotal & _).
    rewrite incr_small by lia. rewrite decide_False by lia.
    cbn [mbind option_bind].
    rewrite IH by (done || lia).
    destruct (deliver _ _ _); [| done]. simpl. do 3 f_equal.
    simpl length. lia.
Qed.

End Workloads.

Section WorkloadRuns.
Import Workload.

Lemma mapM_constant {A B} (f : A → option B) (l : list A) y :
  (∀ x, f x = Some y) → mapM f l = Some (replicate (length l) y).
Proof.
  intros Hf. induction l as [| x l IH]; [done |].
  simpl. rewrite Hf, IH. done.
Qed.

End WorkloadRuns.

(** ** Generator and manager together *)

Lemma deliver_run accesses : ∀ v, deliver access_handler accesses v = run accesses v.
Proof.
  induction accesses as [| [page is_write] accesses IH]; intros v; [done |].
  simpl. unfold access_handler.
  destruct (accessPage page is_write v) as [[r v'] |]; simpl; [apply IH | done].
Qed.

Lemma pages_of_sequential c draws : ∀ n,
  Workload.type c = Workload.SEQUENTIAL →
  pages_of (pattern_accesses c n draws)
  = (λ i, i `mod` Workload.page_range c) <$> seqZ n (Z.of_nat (length draws)).
Proof.
  intros n Htype. revert n. induction draws as [| draw draws IH]; intros n; [done |].
  simpl length. rewrite Nat2Z.inj_succ, <- Z.add_1_l, seqZ_cons by lia.
  replace (Z.pred (1 + Z.of_nat (length draws))) with (Z.of_nat (length draws)) by lia.
  unfold pages_of in *. simpl. rewrite <- Z.add_1_r.
  rewrite IH. unfold pattern_page. by rewrite Htype.
Qed.

Lemma size_cycle (R k : Z) :
  0 < R → 0 <= k →
  Z.of_nat (size (list_to_set ((λ i, i `mod` R) <$> seqZ 0 k) : gset Z)) = Z.min k R.
Proof.
  intros HR Hk.
  assert (list_to_set ((λ i, i `mod` R) <$> seqZ 0 k)
          =@{gset Z} list_to_set (seqZ 0 (Z.min k R))) as ->.
  { apply set_eq. intros x.
    rewrite !elem_of_list_to_set, list_elem_of_fmap, elem_of_seqZ. split.
    - intros (i & -> & Hi). apply elem_of_seqZ in Hi.
      pose proof (Z.mod_pos_bound i R HR).
      destruct (decide (k <= R)).
      + rewrite Z.mod_small by lia. lia.
      + lia.
    - intros Hx. exists x. rewrite elem_of_seqZ.
      split; [by rewrite Z.mod_small by lia | lia]. }
  rewrite size_list_to_set by apply NoDup_seqZ.
  rewrite length_seqZ. lia.
Qed.

(** X22.  A sequential workload that fits.  When the application feeds
    a fresh, started manager from a started SEQUENTIAL generator whose
    [page_range] is at most [total_frames], the manager takes one fault
    for each page the first time round and none after: once [k] accesses
    have been generated (fewer than [total_requests]),
    [getPageFaults()] is [min(k, page_range)], as many frames are used,
    and nothing was swapped out. *)
Theorem sequential_workload_that_fits callback config g draws :
  config_ok config →
  Workload.type (Workload.config_ g) = Workload.SEQUENTIAL →
  0 < Workload.page_range (Workload.config_ g) <= total_frames config →
  Z.of_nat (length draws) < Workload.total_requests (Workload.config_ g) →
  Workload.total_requests (Workload.config_ g) < Int.size_t_modulus →
  ∃ v, Workload.generate_all (Some access_handler) (Some completion_handler) draws
         (Workload.start g) (fresh callback config)
       = Some (Workload.mkWorkloadGenerator (Workload.config_ g) true
                 (Z.of_nat (length draws)), v)
    ∧ getPageFaults v
      = Z.min (Z.of_nat (length draws)) (Workload.page_range (Workload.config_ g))
    ∧ getUsedFrameCount v = getPageFaults v
    ∧ getSwapOuts v = 0.
Proof.
  intros Hok Htype HR Hlen Htotal. pose proof Hok as [HF _].
  assert (pattern_ok (Workload.config_ g)) as Hpattern.
  { split; [lia |]. split; [lia |]. by rewrite Htype. }
  unfold Workload.start.
  rewrite generate_all_pattern by (done || lia).
  rewrite deliver_run.
  pose proof (size_cycle (Workload.page_range (Workload.config_ g))
                (Z.of_nat (length draws))) as Hsize.
  rewrite <- (pages_of_sequential (Workload.config_ g) draws 0 Htype) in Hsize.
  specialize (Hsize ltac:(lia) ltac:(lia)).
  destruct (run_working_set callback config
              (pattern_accesses (Workload.config_ g) 0 draws) Hok)
    as (v & Hrun & Hfaults & Hused & Hso & _); [lia |].
  exists v. rewrite Hrun. simpl. split; [done |].
  split; [by rewrite Hfaults, Hsize |]. done.
Qed.

Lemma sequential_workload_that_fits_witness :
  config_ok (config_of 256 1024 LRU true)
  ∧ Workload.type (Workload.config_ (Workload.new sequential_100))
    = Workload.SEQUENTIAL
  ∧ 0 < Workload.page_range (Workload.config_ (Workload.new sequential_100))
    <= total_frames (config_of 256 1024 LRU true)
  ∧ Z.of_nat (length three_draws)
    < Workload.total_requests (Workload.config_ (Workload.new sequential_100))
  ∧ Workload.total_requests (Workload.config_ (Workload.new sequential_100))
    < Int.size_t_modulus
  ∧ ∃ v, Workload.generate_all (Some access_handler) (Some completion_handler)
           three_draws (Workload.start (Workload.new sequential_100))
           (fresh true (config_of 256 1024 LRU true))
         = Some (Workload.mkWorkloadGenerator
                   (Workload.config_ (Workload.new sequential_100)) true
                   (Z.of_nat (length three_draws)), v)
      ∧ getPageFaults v
        = Z.min (Z.of_nat (length three_draws))
            (Workload.page_range (Workload.config_ (Workload.new sequential_100)))
      ∧ getUsedFrameCount v = getPageFaults v
      ∧ getSwapOuts v = 0.
Proof.
  assert (config_ok (config_of 256 1024 LRU true)) as Hok by (vm_compute; done).
  assert (Workload.type (Workload.config_ (Workload.new sequential_100))
          = Workload.SEQUENTIAL) as Htype by reflexivity.
  assert (0 < Workload.page_range (Workload.config_ (Workload.new sequential_100))
          <= total_frames (config_of 256 1024 LRU true)) as HR
    by (vm_compute; split; [done | discriminate]).
  assert (Z.of_nat (length three_draws)
          < Workload.total_requests (Workload.config_ (Workload.new sequential_100)))
    as Hlen by (vm_compute; done).
  assert (Workload.total_requests (Workload.config_ (Workload.new sequential_100))
          < Int.size_t_modulus) as Htotal by (vm_compute; done).
  split; [exact Hok |]. split; [exact Htype |]. split; [exact HR |].
  split; [exact Hlen |]. split; [exact Htotal |].
  exact (sequential_workload_that_fits true (config_of 256 1024 LRU true)
           (Workload.new sequential_100) three_draws Hok Htype HR Hlen Htotal).
Defined.

(** ** The predictor *)

Lemma mod_size_t_range x P :
  0 < P <= Int.int_half → 0 <= Int.mod_size_t x P < P.
Proof.
  intros HP. unfold Int.mod_size_t.
  pose proof (Z.mod_pos_bound (Int.to_size_t x) P).
  rewrite to_int_small by (unfold Int.int_half in *; lia). lia.
Qed.

(** ** Events and counters *)

Lemma count_events_app t l k :
  count_events t (l ++ k) = (count_events t l + count_events t k)%nat.
Proof. unfold count_events. by rewrite filter_app, length_app. Qed.

Lemma reports_refl v : event_callback_ v = true → reports 0 0 v v.
Proof.
  intros Hcb. split; [done |]. exists []. by rewrite app_nil_r.
Qed.

Lemma reports_trans h1 f1 h2 f2 v1 v2 v3 :
  reports h1 f1 v1 v2 → reports h2 f2 v2 v3 → reports (h1 + h2) (f1 + f2) v1 v3.
Proof.
  intros (_ & e1 & Hl1 & Hh1 & Hf1 & Hpf1 & Hsi1 & Hso1)
         (Hcb & e2 & Hl2 & Hh2 & Hf2 & Hpf2 & Hsi2 & Hso2).
  split; [done |]. exists (e1 ++ e2).
  rewrite !count_events_app, Hl2, Hl1, <- app_assoc.
  rewrite Hpf2, Hsi2, Hso2, Hpf1, Hsi1, Hso1.
  rewrite !(Nat.add_comm (count_events _ e1)), !Nat.iter_add.
  split_and!; try done; lia.
Qed.

(** A step that changes neither the log nor the counters. *)
Lemma reports_silent v v' :
  event_callback_ v = true →
  event_callback_ v' = event_callback_ v →
  event_log v' = event_log v →
  page_faults (metrics_ v') = page_faults (metrics_ v) →
  swap_ins (metrics_ v') = swap_ins (metrics_ v) →
  swap_outs (metrics_ v') = swap_outs (metrics_ v) →
  reports 0 0 v v'.
Proof.
  intros Hcb Hcb' Hlog Hpf Hsi Hso. split; [congruence |]. exists [].
  rewrite Hlog, Hpf, Hsi, Hso, app_nil_r. done.
Qed.

Ltac reporting Hcb :=
  rewrite ?emitEvent_eq; simpl; rewrite ?Hcb; simpl;
  (split; [done |]); eexists;
  (split; [rewrite <- ?app_assoc; reflexivity |]);
  split_and!; reflexivity.

Lemma swapIn_reports page frame v :
  event_callback_ v = true → reports 0 0 v (swapIn page frame v).
Proof. intros Hcb. unfold swapIn. reporting Hcb. Qed.

Lemma swapOut_reports page frame v :
  event_callback_ v = true → reports 0 0 v (swapOut page frame v).
Proof. intros Hcb. unfold swapOut. reporting Hcb. Qed.

Lemma prefetch_reports page predictions : ∀ v,
  event_callback_ v = true → reports 0 0 v (prefetch page predictions v).
Proof.
  unfold prefetch. induction predictions as [| q rest IH]; intros v Hcb.
  - by apply reports_refl.
  - simpl. apply (reports_trans 0 0 0 0 v (prefetch_one page v q)).
    + unfold prefetch_one. destruct (_ && _); [| by apply reports_refl].
      case_decide; [| by apply reports_refl]. unfold swapIn. reporting Hcb.
    + apply IH.
      destruct (prefetch_one_effect page v q) as (k & _ & (_ & _ & Hcb') & _).
      by rewrite Hcb'.
Qed.

Lemma requestAIPredictions_reports v predictions v' :
  event_callback_ v = true →
  requestAIPredictions v = Some (predictions, v') → reports 0 0 v v'.
Proof.
  intros Hcb. unfold requestAIPredictions.
  destruct (negb _ || _); [intros [= _ <-]; by apply reports_refl |].
  unfold simulate_prediction. case_decide.
  2: { simpl. intros [= _ Heq]. subst v'. by apply reports_refl. }
  destruct (vec_at (recent_accesses_ v) (vec_size (recent_accesses_ v) - 1))
    as [x |]; simpl; [| done].
  destruct (vec_at (recent_accesses_ v) (vec_size (recent_accesses_ v) - 2))
    as [y |]; simpl; [| done].
  destruct (vec_at (recent_accesses_ v) (vec_size (recent_accesses_ v) - 3))
    as [z |]; simpl; [| done].
  destruct (pattern_predictions v x y z) as [[ps conf] |]; simpl; [| done].
  case_decide.
  - destruct (mod_total_pages _ _) as [c |]; simpl; [| done].
    destruct (bool_decide _); intros [= _ <-].
    + unfold record_predictions. reporting Hcb.
    + by apply reports_silent.
  - simpl. destruct (bool_decide _); intros [= _ <-].
    + unfold record_predictions. reporting Hcb.
    + by apply reports_silent.
Qed.

Lemma load_page_reports page is_write f v v' :
  event_callback_ v = true →
  load_page page is_write f v = Some v' → reports 0 0 v v'.
Proof.
  intros Hcb. unfold load_page, swapIn. rewrite emitEvent_eq. simpl.
  unfold vec_store. destruct is_write; simpl; intros Hrun;
    repeat match type of Hrun with
           | context [decide ?P] => destruct (decide P); simpl in Hrun; [| done]
           end;
    injection Hrun as <-; reporting Hcb.
Qed.

Lemma evict_victim_reports f v v' :
  event_callback_ v = true →
  evict_victim f v = Some v' → reports 0 0 v v'.
Proof.
  intros Hcb. unfold evict_victim.
  destruct (vec_at (frame_to_page_ v) f) as [u |]; [| done]. simpl.
  case_decide; [| intros [= <-]; by apply reports_refl].
  destruct (vec_at (frame_modified_ v) f) as [[] |]; [| | done]; simpl;
    intros [= <-]; unfold swapOut; reporting Hcb.
Qed.

Lemma handlePageFault_reports page is_write v v' :
  event_callback_ v = true →
  handlePageFault page is_write v = Some v' → reports 0 1 v v'.
Proof.
  intros Hcb. unfold handlePageFault.
  set (v1 := emitEvent _ _ _).
  assert (reports 0 1 v v1) as H1 by (unfold v1; reporting Hcb).
  assert (event_callback_ v1 = true) as Hcb1 by apply H1.
  unfold allocateFrame. case_decide.
  - destruct (vec_store _ true _) as [validity |]; [| done]. simpl.
    destruct (vec_store _ false _) as [dirty |]; [| done]. simpl.
    rewrite decide_False by done. intros Hload.
    apply load_page_reports in Hload; [| done].
    apply (reports_trans 0 1 0 0 v v1 v'); [done |].
    eapply (reports_trans 0 0 0 0 v1); [| exact Hload].
    by apply reports_silent.
  - simpl. rewrite ?decide_True by done.
    destruct (RM.select _ _ _) as [[f rm] |]; simpl; [| done].
    case_decide.
    + intros [= <-].
      eapply (reports_trans 0 1 0 0 v v1); [done |].
      reporting Hcb1.
    + destruct (evict_victim f _) as [v3 |] eqn:Hev; [| done]. simpl.
      intros Hload.
      apply evict_victim_reports in Hev; [| done].
      apply load_page_reports in Hload; [| apply Hev].
      apply (reports_trans 0 1 0 0 v v1 v'); [done |].
      apply (reports_trans 0 0 0 0 v1 v3 v'); [| done].
      eapply (reports_trans 0 0 0 0 v1); [| exact Hev].
      by apply reports_silent.
Qed.

Lemma serve_hit_reports page is_write v v' :
  event_callback_ v = true →
  serve_hit page is_write v = Some v' → reports 1 0 v v'.
Proof.
  intros Hcb. unfold serve_hit.
  set (v1 := with_replacement_manager _ _).
  assert (reports 0 0 v (attribute_hit page v1)) as H1.
  { unfold attribute_hit. destruct (_ && _); [| by apply reports_silent].
    case_decide; [| by apply reports_silent]. unfold v1. reporting Hcb. }
  assert (event_callback_ (attribute_hit page v1) = true) as Hcb1 by apply H1.
  set (v2 := attribute_hit page v1) in *.
  destruct is_write; simpl.
  - unfold vec_store. case_decide; [| done]. simpl. intros [= <-].
    eapply (reports_trans 0 0 1 0 v v2); [done |]. reporting Hcb1.
  - intros [= <-].
    eapply (reports_trans 0 0 1 0 v v2); [done |]. reporting Hcb1.
Qed.

Lemma accessPage_reports page is_write v v' :
  event_callback_ v = true → simulation_running_ v = true →
  accessPage page is_write v = Some (true, v') →
  ∃ hits faults, (hits + faults = 1)%nat ∧ reports hits faults v v'.
Proof.
  intros Hcb Hrunning. unfold accessPage. rewrite Hrunning. cbn [negb].
  set (v0 := updateRecentAccesses page _).
  assert (reports 0 0 v v0) as H0 by (by apply reports_silent).
  assert (event_callback_ v0 = true) as Hcb0 by apply H0.
  destruct (enable_ai_predictions (config_ v0) && _).
  - destruct (requestAIPredictions v0) as [[ps va] |] eqn:Hreq; [| done]. simpl.
    apply requestAIPredictions_reports in Hreq; [| done].
    pose proof (prefetch_reports page ps va ltac:(apply Hreq)) as Hpre.
    set (v1 := prefetch page ps va) in *.
    assert (reports 0 0 v v1) as H1.
    { apply (reports_trans 0 0 0 0 v v0 v1); [done |].
      by apply (reports_trans 0 0 0 0 v0 va v1). }
    destruct (PT.isPageValid _ _).
    + destruct (serve_hit page is_write v1) as [v2 |] eqn:Hhit; [| done].
      intros [= <-]. apply serve_hit_reports in Hhit; [| apply H1].
      exists 1%nat, 0%nat. split; [done |].
      by apply (reports_trans 0 0 1 0 v v1 v2).
    + destruct (handlePageFault page is_write v1) as [v2 |] eqn:Hfault; [| done].
      intros [= <-]. apply handlePageFault_reports in Hfault; [| apply H1].
      exists 0%nat, 1%nat. split; [done |].
      by apply (reports_trans 0 0 0 1 v v1 v2).
  - simpl. destruct (PT.isPageValid _ _).
    + destruct (serve_hit page is_write v0) as [v2 |] eqn:Hhit; [| done].
      intros [= <-]. apply serve_hit_reports in Hhit; [| done].
      exists 1%nat, 0%nat. split; [done |].
      by apply (reports_trans 0 0 1 0 v v0 v2).
    + destruct (handlePageFault page is_write v0) as [v2 |] eqn:Hfault; [| done].
      intros [= <-]. apply handlePageFault_reports in Hfault; [| done].
      exists 0%nat, 1%nat. split; [done |].
      by apply (reports_trans 0 0 0 1 v v0 v2).
Qed.

Lemma iter_incr_to_size_t n k :
  Nat.iter n Int.incr (Int.to_size_t k) = Int.to_size_t (k + Z.of_nat n).
Proof.
  induction n as [| n IH]; [by rewrite Z.add_0_r |].
  simpl. rewrite IH. unfold Int.incr, Int.to_size_t.
  rewrite Zplus_mod_idemp_l. f_equal. lia.
Qed.

(** X24.  Events agree with the counters.  When the event callback is
    installed before a fresh manager is started, then after every
    sequence of accesses the callback has received one FAULT event per
    counted page fault, one SWAP_IN event per counted swap-in, one
    SWAP_OUT event per counted swap-out, and one ACCESS or FAULT event
    per access: the counters are these numbers of events (modulo 2^64,
    where a counter wraps). *)
Theorem events_agree_with_counters config accesses :
  config_ok config →
  ∃ v, run accesses (fresh true config) = Some v
    ∧ getPageFaults v = Int.to_size_t (Z.of_nat (count_events "FAULT" (event_log v)))
    ∧ getSwapIns v = Int.to_size_t (Z.of_nat (count_events "SWAP_IN" (event_log v)))
    ∧ getSwapOuts v = Int.to_size_t (Z.of_nat (count_events "SWAP_OUT" (event_log v)))
    ∧ (count_events "ACCESS" (event_log v) + count_events "FAULT" (event_log v))%nat
      = length accesses.
Proof.
  intros Hok.
  destruct (run_invariant
    (λ done v,
       event_callback_ v = true
       ∧ page_faults (metrics_ v)
         = Int.to_size_t (Z.of_nat (count_events "FAULT" (event_log v)))
       ∧ swap_ins (metrics_ v)
         = Int.to_size_t (Z.of_nat (count_events "SWAP_IN" (event_log v)))
       ∧ swap_outs (metrics_ v)
         = Int.to_size_t (Z.of_nat (count_events "SWAP_OUT" (event_log v)))
       ∧ (count_events "ACCESS" (event_log v)
          + count_events "FAULT" (event_log v))%nat = length done)
    accesses) with (v := fresh true config) as (v & Hrun & _ & _ & _ & HP).
  - intros done page is_write v v' _ Hrunning (Hcb & Hpf & Hsi & Hso & Hn)
      _ _ _ _ _ _ Hacc.
    destruct (accessPage_reports page is_write v v' Hcb Hrunning Hacc)
      as (hits & faults & Hone
          & Hcb' & events & Hlog & Hhits & Hfaults & Hpf' & Hsi' & Hso').
    split; [done |].
    rewrite Hlog, !count_events_app, Hpf', Hsi', Hso', Hpf, Hsi, Hso.
    rewrite !iter_incr_to_size_t, !Nat2Z.inj_add, length_app. simpl length.
    split_and!; try done. lia.
  - by apply wf_fresh.
  - apply fresh_running.
  - unfold fresh, startSimulation, setEventCallback. rewrite emitEvent_eq. simpl.
    split_and!; reflexivity.
  - exists v. split; [done |].
    unfold getPageFaults, getSwapIns, getSwapOuts. by destruct HP as (? & ? & ? & ?).
Qed.

Lemma events_agree_with_counters_witness :
  config_ok fifo_3_8
  ∧ ∃ v, run belady (fresh true fifo_3_8) = Some v
      ∧ getPageFaults v
        = Int.to_size_t (Z.of_nat (count_events "FAULT" (event_log v)))
      ∧ getSwapIns v
        = Int.to_size_t (Z.of_nat (count_events "SWAP_IN" (event_log v)))
      ∧ getSwapOuts v
        = Int.to_size_t (Z.of_nat (count_events "SWAP_OUT" (event_log v)))
      ∧ (count_events "ACCESS" (event_log v)
         + count_events "FAULT" (event_log v))%nat = length belady.
Proof.
  assert (config_ok fifo_3_8) as Hok by (vm_compute; done).
  split; [exact Hok |].
  exact (events_agree_with_counters fifo_3_8 belady Hok).
Defined.

(** ** Single accesses *)

Lemma find_free_from_first rest : ∀ i,
  0 <= i → i + vec_size rest <= Int.int_half →
  ∀ j, i <= j < find_free_from rest i → rest !! Z.to_nat (j - i) = Some true.
Proof.
  induction rest as [| occ rest IH]; intros i Hi Hsize j Hj; simpl in *; [lia |].
  unfold vec_size in *. simpl length in Hsize.
  destruct occ; simpl in *.
  - destruct (decide (j = i)) as [-> | Hne].
    + by rewrite Z.sub_diag.
    + replace (Z.to_nat (j - i)) with (S (Z.to_nat (j - (i + 1)))) by lia.
      simpl. apply IH; lia.
  - rewrite to_int_small in Hj by (unfold Int.int_half in *; lia). lia.
Qed.

Lemma getFrameNumber_of_resident v v' q :
  resident v' q = resident v q →
  PT.getFrameNumber (page_table_ v') q = PT.getFrameNumber (page_table_ v) q.
Proof.
  unfold resident. rewrite !isPageValid_entry, !getFrameNumber_entry.
  destruct (valid (PT.entry (page_table_ v') q)),
    (valid (PT.entry (page_table_ v) q)); congruence.
Qed.

Lemma full_resident_frames v :
  wf v → Forall (λ b, b = true) (frame_validity_ v) → findFreeFrame v = -1.
Proof.
  intros Hwf Hfull. apply full_no_free_frame; [done |].
  rewrite count_bool_full by done. apply (wf_validity v Hwf).
Qed.

(** X25.  A hit moves nothing.  An access to a resident page, on a
    running manager in a well-formed state, counts one access and no
    fault, and leaves every page where it is: validity and frame of all
    pages, [frame_validity_] and [frame_to_page_] are unchanged, and
    nothing is swapped out. *)
Theorem hit_keeps_every_page_in_place page is_write v :
  wf v → simulation_running_ v = true →
  PT.isPageValid (page_table_ v) page = true →
  ∃ v', accessPage page is_write v = Some (true, v')
    ∧ (∀ q, PT.isPageValid (page_table_ v') q = PT.isPageValid (page_table_ v) q
            ∧ PT.getFrameNumber (page_table_ v') q
              = PT.getFrameNumber (page_table_ v) q)
    ∧ frame_validity_ v' = frame_validity_ v
    ∧ frame_to_page_ v' = frame_to_page_ v
    ∧ getPageFaults v' = getPageFaults v
    ∧ getSwapOuts v' = getSwapOuts v
    ∧ getTotalAccesses v' = Int.incr (getTotalAccesses v).
Proof.
  intros Hwf Hrunning Hvalid.
  destruct (accessPage_step page is_write v Hwf Hrunning)
    as (v' & Hacc & _ & _ & Htotal & _ & Hstep).
  exists v'. split; [done |].
  destruct Hstep as [f H1 H2 H3 H4 H5 H6 H7 Hm | f H1 H2 H3 H4 H5 H6 H7 H8 Hm Hfirst
                    | f u d manager H1 H2 H3 H4 H5 H6 H7 H8 H9 H10 Hsel Hf Hm
                    | H1 H2 H3 H4 H5 H6 H7 H8 Hsel];
    try (apply resident_None in H1; congruence).
  split_and!; try done. intros q.
  split; [by apply isPageValid_of_resident | by apply getFrameNumber_of_resident].
Qed.

Lemma hit_keeps_every_page_in_place_witness :
  ∃ v v', accessPage 1 false (started fifo_3_8) = Some (true, v)
    ∧ wf v ∧ simulation_running_ v = true
    ∧ PT.isPageValid (page_table_ v) 1 = true
    ∧ accessPage 1 true v = Some (true, v')
    ∧ frame_to_page_ v' = frame_to_page_ v
    ∧ getPageFaults v' = getPageFaults v.
Proof.
  destruct (accessPage_effect 1 false (started fifo_3_8))
    as (v & k & Hacc & Hwf & (_ & Hrunning & _) & _).
  { apply wf_fresh. vm_compute. done. }
  { reflexivity. }
  assert (simulation_running_ v = true) as Hrunning' by (by rewrite Hrunning).
  assert (PT.isPageValid (page_table_ v) 1 = true) as Hvalid.
  { pose proof Hacc as Hacc'. vm_compute in Hacc'. by injection Hacc' as <-. }
  destruct (hit_keeps_every_page_in_place 1 true v Hwf Hrunning' Hvalid)
    as (v' & Hhit & _ & _ & Hfp & Hpf & _).
  exists v, v'. split; [exact Hacc |]. split; [exact Hwf |].
  split; [exact Hrunning' |]. split; [exact Hvalid |]. split; [exact Hhit |].
  split; [exact Hfp | exact Hpf].
Defined.

(** X26.  First fit.  A fault taken while a frame is free, on a running
    manager in a well-formed state, loads the page into the free frame
    with the lowest number: the page becomes valid and bound to that
    frame, one more frame is used, no other page changes validity or
    frame, and nothing is swapped out. *)
Theorem fault_takes_the_lowest_free_frame page is_write v :
  wf v → simulation_running_ v = true →
  PT.isPageValid (page_table_ v) page = false →
  findFreeFrame v ≠ -1 →
  ∃ v', accessPage page is_write v = Some (true, v')
    ∧ vec_at (frame_validity_ v) (findFreeFrame v) = Some false
    ∧ (∀ j, 0 <= j < findFreeFrame v → vec_at (frame_validity_ v) j = Some true)
    ∧ PT.isPageValid (page_table_ v') page = true
    ∧ PT.getFrameNumber (page_table_ v') page = findFreeFrame v
    ∧ vec_at (frame_to_page_ v') (findFreeFrame v) = Some page
    ∧ getUsedFrameCount v' = getUsedFrameCount v + 1
    ∧ getPageFaults v' = Int.incr (getPageFaults v)
    ∧ getSwapOuts v' = getSwapOuts v
    ∧ ∀ q, q ≠ page →
           PT.isPageValid (page_table_ v') q = PT.isPageValid (page_table_ v) q
           ∧ PT.getFrameNumber (page_table_ v') q
             = PT.getFrameNumber (page_table_ v) q.
Proof.
  intros Hwf Hrunning Hinvalid Hfree.
  destruct (accessPage_step page is_write v Hwf Hrunning)
    as (v' & Hacc & _ & _ & _ & _ & Hstep).
  exists v'. split; [done |].
  pose proof Hwf as [[HF _] Hfv Hfp _ _ _].
  destruct Hstep as [f H1 H2 H3 H4 H5 H6 H7 Hm | f H1 H2 H3 H4 H5 H6 H7 H8 Hm Hfirst
                    | f u d manager H1 H2 H3 H4 H5 H6 H7 H8 H9 H10 Hsel Hf Hm
                    | H1 H2 H3 H4 H5 H6 H7 H8 Hsel].
  - apply resident_Some in H1 as [H1 _]. congruence.
  - rewrite Hfirst. pose proof (vec_at_lt _ _ _ H2) as Hrange.
    pose proof (H6 page) as Hpage. rewrite decide_True in Hpage by done.
    apply resident_Some in Hpage as [Hvalid' Hframe'].
    split_and!; try done.
    + intros j Hj. apply vec_at_Some. split; [lia |].
      rewrite <- (Z.sub_0_r j). rewrite <- Hfirst in Hj.
      apply (find_free_from_first (frame_validity_ v) 0); [lia | lia |].
      exact Hj.
    + rewrite H4. apply vec_at_insert_eq. lia.
    + unfold getUsedFrameCount. rewrite H3. apply count_bool_occupy.
      by apply vec_at_Some in H2 as [_ H2].
    + intros q Hq. specialize (H6 q). rewrite decide_False in H6 by done.
      split; [by apply isPageValid_of_resident
             | by apply getFrameNumber_of_resident].
  - by rewrite full_resident_frames in Hfree.
  - by rewrite full_resident_frames in Hfree.
Qed.

Lemma fault_takes_the_lowest_free_frame_witness :
  wf (started fifo_3_8) ∧ simulation_running_ (started fifo_3_8) = true
  ∧ PT.isPageValid (page_table_ (started fifo_3_8)) 5 = false
  ∧ findFreeFrame (started fifo_3_8) ≠ -1
  ∧ ∃ v', accessPage 5 true (started fifo_3_8) = Some (true, v')
      ∧ PT.getFrameNumber (page_table_ v') 5 = findFreeFrame (started fifo_3_8).
Proof.
  assert (wf (started fifo_3_8)) as Hwf by (apply wf_fresh; vm_compute; done).
  assert (simulation_running_ (started fifo_3_8) = true) as Hrunning by reflexivity.
  assert (PT.isPageValid (page_table_ (started fifo_3_8)) 5 = false) as Hinvalid
    by reflexivity.
  assert (findFreeFrame (started fifo_3_8) ≠ -1) as Hfree by (vm_compute; discriminate).
  split; [exact Hwf |]. split; [exact Hrunning |]. split; [exact Hinvalid |].
  split; [exact Hfree |].
  destruct (fault_takes_the_lowest_free_frame 5 true (started fifo_3_8)
              Hwf Hrunning Hinvalid Hfree) as (v' & Hacc & _ & _ & _ & Hframe & _).
  exists v'. split; [exact Hacc | exact Hframe].
Defined.

(** X27.  Writes are recorded.  After a write access that leaves the
    page resident, on a running manager in a well-formed state, the
    page's modified bit and the dirty bit of its frame are set. *)
Theorem write_marks_page_and_frame_modified page v :
  wf v → simulation_running_ v = true →
  ∃ v', accessPage page true v = Some (true, v')
    ∧ ∀ f, resident v' page = Some f →
           PT.isPageModified (page_table_ v') page = true
           ∧ vec_at (frame_modified_ v') f = Some true.
Proof.
  intros Hwf Hrunning.
  destruct (accessPage_step page true v Hwf Hrunning)
    as (v' & Hacc & _ & _ & _ & _ & Hstep).
  exists v'. split; [done |]. intros f Hres.
  pose proof Hwf as [_ Hfv Hfp Hfm Hresident _].
  destruct Hstep as [g H1 H2 H3 H4 H5 H6 H7 Hm Hw | g H1 H2 H3 H4 H5 H6 H7 H8 Hm Hfirst Hw
                    | g u d manager H1 H2 H3 H4 H5 H6 H7 H8 H9 H10 Hsel Hf Hm Hw
                    | H1 H2 H3 H4 H5 H6 H7 H8 Hsel];
    try (split; [by apply Hw |]).
  - rewrite H5, H1 in Hres. injection Hres as <-.
    apply resident_Some in H1 as [Hvalid Hframe].
    pose proof (isPageValid_resident _ _ _ Hresident Hvalid) as Hrange.
    rewrite Hframe in Hrange.
    rewrite H4. unfold dirtied. apply vec_at_insert_eq. lia.
  - rewrite H6, decide_True in Hres by done. injection Hres as <-.
    apply vec_at_lt in H2. rewrite H5. apply vec_at_insert_eq. lia.
  - rewrite H8, decide_True in Hres by done. injection Hres as <-.
    apply vec_at_lt in H3. rewrite H7. unfold dirtied. apply vec_at_insert_eq. lia.
  - rewrite H6, H1 in Hres. done.
Qed.

Lemma write_marks_page_and_frame_modified_witness :
  wf (started fifo_3_8) ∧ simulation_running_ (started fifo_3_8) = true
  ∧ ∃ v', accessPage 5 true (started fifo_3_8) = Some (true, v')
      ∧ ∀ f, resident v' 5 = Some f →
             PT.isPageModified (page_table_ v') 5 = true
             ∧ vec_at (frame_modified_ v') f = Some true.
Proof.
  assert (wf (started fifo_3_8)) as Hwf by (apply wf_fresh; vm_compute; done).
  assert (simulation_running_ (started fifo_3_8) = true) as Hrunning by reflexivity.
  split; [exact Hwf |]. split; [exact Hrunning |].
  exact (write_marks_page_and_frame_modified 5 (started fifo_3_8) Hwf Hrunning).
Defined.

(** ** The application *)

Lemma generateNextAccess_stopped draw g v :
  simulation_running_ v = false →
  Workload.page_range (Workload.config_ g) ≠ 0 →
  ∃ g', Workload.generateNextAccess (Some access_handler) (Some completion_handler)
          draw g v = Some (g', v)
    ∧ Workload.config_ g' = Workload.config_ g.
Proof.
  intros Hstopped Hrange. unfold Workload.generateNextAccess.
  destruct (Workload.running_ g); simpl; [| by eexists].
  assert (∃ page, Workload.generate (Workload.random_page draw) g = Some page)
    as [page ->].
  { unfold Workload.generate, Workload.generateSequentialAccess,
      Workload.generateStridedAccess.
    destruct (Workload.type _); rewrite ?decide_False by done; by eexists. }
  simpl. unfold access_handler.
  rewrite accessPage_not_running by done. simpl.
  destruct (decide (page >= 0)); simpl;
    (case_decide; simpl; [unfold completion_handler |]; by eexists).
Qed.

Lemma thread_stopped draws : ∀ a,
  simulation_running_ (Simulator.vmm_ a) = false →
  Workload.page_range (Workload.config_ (Simulator.workload_gen_ a)) ≠ 0 →
  ∃ a', Simulator.thread draws a = Some a'
    ∧ Simulator.vmm_ a' = Simulator.vmm_ a.
Proof.
  induction draws as [| draw draws IH]; intros a Hstopped Hrange; [by eexists |].
  simpl. unfold Simulator.thread_iteration.
  destruct (_ && _).
  - destruct (generateNextAccess_stopped draw (Simulator.workload_gen_ a)
                (Simulator.vmm_ a) Hstopped Hrange) as (g' & -> & Hcfg).
    simpl.
    destruct (IH (Simulator.mkVMMSimulator (Simulator.vmm_ a) g'
                    (Simulator.simulation_running_ a) (Simulator.vmm_config_ a)
                    (Simulator.workload_config_ a))) as (a' & Hrun & Hvmm).
    + done.
    + simpl. by rewrite Hcfg.
    + exists a'. done.
  - simpl. by apply IH.
Qed.

(** X28.  A restart does not reach the manager.  When a running
    simulation is stopped and started again through the request
    handlers of [main.cpp], the generator runs again but the manager
    stays stopped, since only [VMMSimulator::start] calls
    [vmm_->startSimulation()]: whatever the simulation thread generates
    afterwards, the state of the manager, its counters included, does
    not change. *)
Theorem restart_does_not_reach_the_manager mode workload draws a :
  Simulator.simulation_running_ a = true →
  Workload.page_range (Simulator.workload_config_ a) ≠ 0 →
  Simulator.simulation_running_ (restarted mode workload a) = true
  ∧ Workload.isRunning (Simulator.workload_gen_ (restarted mode workload a)) = true
  ∧ simulation_running_ (Simulator.vmm_ (restarted mode workload a)) = false
  ∧ ∃ a', Simulator.thread draws (restarted mode workload a) = Some a'
      ∧ Simulator.vmm_ a' = Simulator.vmm_ (restarted mode workload a).
Proof.
  intros Hrunning Hrange.
  unfold restarted, Simulator.handleStartSimulation, Simulator.handleStopSimulation,
    Simulator.stopSimulation, Simulator.startSimulation.
  rewrite Hrunning. simpl.
  assert (simulation_running_
            (setConfig
               {| total_frames := total_frames (Simulator.vmm_config_ a);
                  page_size := page_size (Simulator.vmm_config_ a);
                  total_pages := total_pages (Simulator.vmm_config_ a);
                  replacement_policy := replacement_policy (Simulator.vmm_config_ a);
                  enable_ai_predictions := negb (bool_decide (mode = "ai_off"));
                  ai_predictor_url := ai_predictor_url (Simulator.vmm_config_ a) |}
               (stopSimulation (Simulator.vmm_ a))) = false) as Hstopped.
  { unfold stopSimulation. rewrite emitEvent_eq. done. }
  split; [done |]. split; [done |]. split; [exact Hstopped |].
  apply thread_stopped; [exact Hstopped |]. done.
Qed.

Lemma restart_does_not_reach_the_manager_witness :
  Simulator.simulation_running_
    (Simulator.handleStartSimulation "prefetch_only" "sequential"
       (Simulator.start Simulator.new)) = true
  ∧ Workload.page_range
      (Simulator.workload_config_
         (Simulator.handleStartSimulation "prefetch_only" "sequential"
            (Simulator.start Simulator.new))) ≠ 0
  ∧ ∃ a', Simulator.thread three_draws
            (restarted "ai_off" "strided"
               (Simulator.handleStartSimulation "prefetch_only" "sequential"
                  (Simulator.start Simulator.new))) = Some a'
      ∧ getTotalAccesses (Simulator.vmm_ a') = 0.
Proof.
  assert (Simulator.simulation_running_
            (Simulator.handleStartSimulation "prefetch_only" "sequential"
               (Simulator.start Simulator.new)) = true) as Hrunning by reflexivity.
  assert (Workload.page_range
            (Simulator.workload_config_
               (Simulator.handleStartSimulation "prefetch_only" "sequential"
                  (Simulator.start Simulator.new))) ≠ 0) as Hrange
    by (vm_compute; discriminate).
  split; [exact Hrunning |]. split; [exact Hrange |].
  destruct (restart_does_not_reach_the_manager "ai_off" "strided" three_draws
              (Simulator.handleStartSimulation "prefetch_only" "sequential"
                 (Simulator.start Simulator.new)) Hrunning Hrange)
    as (_ & _ & _ & a' & Hthread & Hvmm).
  exists a'. split; [exact Hthread |]. rewrite Hvmm. reflexivity.
Defined.

(** ** The swap balance, exactly *)







(** ** Runs of writes *)






(** ** Signed arithmetic of the predictor *)

Lemma add_exact a b : representable (a + b) → Int.add a b = a + b.
Proof. intros H. by apply to_int_small. Qed.

Lemma sub_exact a b : representable (a - b) → Int.sub a b = a - b.
Proof. intros H. by apply to_int_small. Qed.

Lemma mul_exact a b : representable (a * b) → Int.mul a b = a * b.
Proof. intros H. by apply to_int_small. Qed.

Lemma bounded_window_defined last_page second_last third_last :
  bounded_page last_page → bounded_page second_last → bounded_page third_last →
  prediction_arithmetic_defined last_page second_last third_last.
Proof.
  unfold bounded_page, prediction_arithmetic_defined, representable, Int.int_half.
  intros Hl Hs Ht.
  pose proof (Z.quot_rem' last_page 10) as Hqr.
  pose proof (Z.rem_bound_abs last_page 10) as Hr.
  pose proof (Z.rem_bound_abs (Z.rem last_page 10 + 1) 10) as Hr1.
  pose proof (Z.rem_bound_abs (Z.rem last_page 10 + 2) 10) as Hr2.
  repeat case_decide; lia.
Qed.

Lemma last_n_vec_at {A} (l : list A) k i x :
  vec_size l - Z.of_nat k <= i → vec_at l i = Some x → x ∈ last_n k l.
Proof.
  intros Hi Hx. pose proof (vec_at_lt l i x Hx) as Hrange.
  apply vec_at_Some in Hx as [_ Hx]. unfold last_n, vec_size in *.
  apply list_elem_of_lookup. exists (Z.to_nat i - (length l - k))%nat.
  rewrite lookup_drop. rewrite <- Hx. f_equal. lia.
Qed.

Lemma bounded_prediction_defined v :
  Forall bounded_page (last_n 3 (recent_accesses_ v)) → prediction_defined v.
Proof.
  intros Hall l s t Hl Hs Ht. rewrite Forall_forall in Hall.
  apply bounded_window_defined; apply Hall;
    eapply (last_n_vec_at _ 3); try eassumption; lia.
Qed.

(** X23.  Predictions are page numbers.  With predictions enabled,
    [0 < total_pages <= 2^31] and a window whose last three pages lie
    between -2^29 and 2^29, no [int] expression of
    [requestAIPredictions] overflows, and the function returns exactly
    three candidates, each in [[0, total_pages)] (negative strides and
    page numbers beyond [total_pages] included), sets the confidence to
    0.85, 0.70 or 0.60, and counts one prediction. *)
Theorem predictions_are_page_numbers v :
  enable_ai_predictions (config_ v) = true →
  0 < total_pages (config_ v) <= Int.int_half →
  3 <= vec_size (recent_accesses_ v) →
  Forall bounded_page (last_n 3 (recent_accesses_ v)) →
  prediction_defined v
  ∧ ∃ predictions v', requestAIPredictions v = Some (predictions, v')
      ∧ length predictions = 3%nat
      ∧ Forall (λ q, 0 <= q < total_pages (config_ v)) predictions
      ∧ getAIPredictionConfidence v' ∈ [0.85%float; 0.70%float; 0.60%float]
      ∧ getAIPredictions v' = Int.incr (getAIPredictions v).
Proof.
  intros Hai HP Hsize Hbounded.
  split; [by apply bounded_prediction_defined |].
  unfold requestAIPredictions. rewrite Hai.
  rewrite bool_decide_false by (intros Hnil; rewrite Hnil in Hsize; done).
  cbn [negb orb]. unfold simulate_prediction. rewrite decide_True by done.
  destruct (vec_at_defined (recent_accesses_ v) (vec_size (recent_accesses_ v) - 1))
    as [x ->]; [lia |].
  destruct (vec_at_defined (recent_accesses_ v) (vec_size (recent_accesses_ v) - 2))
    as [y ->]; [lia |].
  destruct (vec_at_defined (recent_accesses_ v) (vec_size (recent_accesses_ v) - 3))
    as [z ->]; [lia |].
  cbn [mbind option_bind]. unfold pattern_predictions.
  assert (total_pages (config_ v) ≠ 0) as Hne by lia.
  repeat case_decide; rewrite !mod_total_pages_defined by done;
    cbn [mbind option_bind]; rewrite decide_True by done;
    rewrite mod_total_pages_defined by done; cbn [mbind option_bind];
    rewrite bool_decide_true by done;
    (eexists _, _; split; [reflexivity |]);
    (split; [reflexivity |]);
    (split; [repeat constructor; simpl; apply mod_size_t_range; lia |]);
    unfold record_predictions, getAIPredictionConfidence, getAIPredictions;
    rewrite !emitEvent_eq; simpl; (split; [| done]).
  - apply list_elem_of_here.
  - apply list_elem_of_further, list_elem_of_here.
  - do 2 apply list_elem_of_further. apply list_elem_of_here.
Qed.

Lemma predictions_are_page_numbers_witness :
  enable_ai_predictions (config_ window_456) = true
  ∧ 0 < total_pages (config_ window_456) <= Int.int_half
  ∧ 3 <= vec_size (recent_accesses_ window_456)
  ∧ Forall bounded_page (last_n 3 (recent_accesses_ window_456))
  ∧ prediction_defined window_456
  ∧ ∃ predictions v', requestAIPredictions window_456 = Some (predictions, v')
      ∧ length predictions = 3%nat
      ∧ Forall (λ q, 0 <= q < total_pages (config_ window_456)) predictions
      ∧ getAIPredictionConfidence v' ∈ [0.85%float; 0.70%float; 0.60%float]
      ∧ getAIPredictions v' = Int.incr (getAIPredictions window_456).
Proof.
  assert (enable_ai_predictions (config_ window_456) = true) as Hai by reflexivity.
  assert (0 < total_pages (config_ window_456) <= Int.int_half) as HP
    by (vm_compute; split; [done | discriminate]).
  assert (3 <= vec_size (recent_accesses_ window_456)) as Hsize
    by (vm_compute; discriminate).
  assert (Forall bounded_page (last_n 3 (recent_accesses_ window_456))) as Hbounded
    by (repeat constructor; vm_compute; done).
  split; [exact Hai |]. split; [exact HP |]. split; [exact Hsize |].
  split; [exact Hbounded |].
  exact (predictions_are_page_numbers window_456 Hai HP Hsize Hbounded).
Defined.

(** ** Access counts and the window along a session *)

Lemma getAccessCount_entry pt q :
  PT.getAccessCount pt q = access_count (PT.entry pt q).
Proof. unfold PT.getAccessCount, PT.entry. by destruct (pages_ pt !! q). Qed.

Lemma load_page_counts page is_write f v v' :
  load_page page is_write f v = Some v' →
  ∀ q, PT.getAccessCount (page_table_ v') q
       = if decide (q = page)
         then Int.add (PT.getAccessCount (page_table_ v) q) 1
         else PT.getAccessCount (page_table_ v) q.
Proof.
  unfold load_page, swapIn. rewrite emitEvent_eq. simpl.
  unfold vec_store. destruct is_write; simpl; intros Hrun;
    repeat match type of Hrun with
           | context [decide ?P] => destruct (decide P); simpl in Hrun; [| done]
           end;
    injection Hrun as <-; simpl; intros q; rewrite !getAccessCount_entry;
    entries; by subst.
Qed.

Lemma evict_victim_counts f v v' :
  evict_victim f v = Some v' →
  ∀ q, PT.getAccessCount (page_table_ v') q = PT.getAccessCount (page_table_ v) q.
Proof.
  unfold evict_victim. intros Hrun q.
  destruct (vec_at (frame_to_page_ v) f) as [u |]; [| done].
  simpl in Hrun. case_decide.
  - destruct (vec_at (frame_modified_ v) f) as [d |]; [| done].
    simpl in Hrun. injection Hrun as <-. rewrite emitEvent_eq.
    destruct d; unfold swapOut; rewrite ?emitEvent_eq; simpl;
      rewrite !getAccessCount_entry; entries; by subst.
  - by injection Hrun as <-.
Qed.

Lemma serve_hit_counts page is_write v v' :
  serve_hit page is_write v = Some v' →
  ∀ q, PT.getAccessCount (page_table_ v') q
       = if decide (q = page)
         then Int.add (PT.getAccessCount (page_table_ v) q) 1
         else PT.getAccessCount (page_table_ v) q.
Proof.
  unfold serve_hit.
  set (v1 := with_replacement_manager _ _).
  destruct (attribute_hit_effect page v1) as (_ & (Hpt & _) & _).
  set (v2 := attribute_hit page v1) in *.
  intros Hrun q. destruct is_write; simpl in Hrun.
  - unfold vec_store in Hrun. case_decide; [| done]. simpl in Hrun.
    injection Hrun as <-. rewrite emitEvent_eq. simpl. rewrite Hpt. simpl.
    rewrite !getAccessCount_entry. entries; by subst.
  - injection Hrun as <-. rewrite emitEvent_eq. simpl. rewrite Hpt. simpl.
    rewrite !getAccessCount_entry. entries; by subst.
Qed.

Lemma allocateFrame_page_table v f v' :
  allocateFrame v = Some (f, v') → page_table_ v' = page_table_ v.
Proof.
  unfold allocateFrame, vec_store. intros Hrun.
  repeat match type of Hrun with
         | context [decide ?P] => destruct (decide P); simpl in Hrun; try done
         end;
    by injection Hrun as _ <-.
Qed.

Lemma handlePageFault_counts page is_write v v' :
  handlePageFault page is_write v = Some v' →
  ∀ q, PT.getAccessCount (page_table_ v') q = PT.getAccessCount (page_table_ v) q
       ∨ (q = page
          ∧ PT.getAccessCount (page_table_ v') q
            = Int.add (PT.getAccessCount (page_table_ v) q) 1).
Proof.
  unfold handlePageFault. rewrite emitEvent_eq.
  set (v1 := with_event_log _ _).
  destruct (allocateFrame v1) as [[f v2] |] eqn:Halloc; [| done]. simpl.
  apply allocateFrame_page_table in Halloc.
  change (page_table_ v1) with (page_table_ v) in Halloc.
  assert (∀ v3 v4 q,
            page_table_ v3 = page_table_ v →
            load_page page is_write f v3 = Some v4 →
            PT.getAccessCount (page_table_ v4) q = PT.getAccessCount (page_table_ v) q
            ∨ (q = page
               ∧ PT.getAccessCount (page_table_ v4) q
                 = Int.add (PT.getAccessCount (page_table_ v) q) 1)) as Hload.
  { intros v3 v4 q Hpt Hrun. rewrite (load_page_counts _ _ _ _ _ Hrun q), Hpt.
    case_decide; [by right | by left]. }
  case_decide as Hf.
  - destruct (RM.select _ _ _) as [[g manager] |]; [| done]. simpl.
    case_decide as Hg.
    + intros [= <-] q. rewrite emitEvent_eq. simpl. left. by rewrite Halloc.
    + destruct (evict_victim g _) as [v3 |] eqn:Hev; [| done]. simpl.
      intros Hrun q.
      pose proof (evict_victim_counts _ _ _ Hev) as Hcounts. simpl in Hcounts.
      rewrite (load_page_counts _ _ _ _ _ Hrun q), Hcounts, Halloc.
      case_decide; [by right | by left].
  - intros Hrun q. by apply (Hload v2 v').
Qed.

Lemma accessPage_counts page is_write v r v' :
  total_pages (config_ v) ≠ 0 →
  accessPage page is_write v = Some (r, v') →
  ∀ q, PT.getAccessCount (page_table_ v') q = PT.getAccessCount (page_table_ v) q
       ∨ (q = page
          ∧ PT.getAccessCount (page_table_ v') q
            = Int.add (PT.getAccessCount (page_table_ v) q) 1).
Proof.
  intros Hpages. unfold accessPage.
  destruct (simulation_running_ v); cbn [negb]; [| intros [= _ <-] q; by left].
  set (v0 := updateRecentAccesses page _).
  destruct (prediction_step_effect page v0 Hpages)
    as (v1 & -> & _ & (Hpt & _) & _).
  change (page_table_ v0) with (page_table_ v) in Hpt.
  simpl. rewrite <- Hpt.
  destruct (PT.isPageValid (page_table_ v1) page).
  - destruct (serve_hit page is_write v1) as [v2 |] eqn:Hhit; [| done].
    intros [= _ <-] q. rewrite (serve_hit_counts _ _ _ _ Hhit q).
    case_decide; [by right | by left].
  - destruct (handlePageFault page is_write v1) as [v2 |] eqn:Hfault; [| done].
    intros [= _ <-] q. by apply (handlePageFault_counts _ _ _ _ Hfault).
Qed.

Lemma setAIPredictions_window predicted_pages v :
  recent_accesses_ (setAIPredictions predicted_pages v) = recent_accesses_ v.
Proof.
  unfold setAIPredictions. rewrite emitEvent_eq.
  set (v0 := with_event_log _ _).
  assert (recent_accesses_ v0 = recent_accesses_ v) as Hstart by done.
  clearbody v0. revert v0 Hstart.
  induction predicted_pages as [| q rest IH]; intros v0 Hstart; [done |].
  simpl. apply IH. unfold install_prediction.
  destruct (negb _); [| done]. case_decide; [| done].
  unfold swapIn. rewrite !emitEvent_eq. done.
Qed.

Lemma updateRecentAccesses_bounded page v :
  bounded_page page → Forall bounded_page (recent_accesses_ v) →
  Forall bounded_page (recent_accesses_ (updateRecentAccesses page v)).
Proof.
  intros Hpage Hall. unfold updateRecentAccesses. simpl.
  assert (Forall bounded_page (recent_accesses_ v ++ [page])) as Happ
    by (apply Forall_app; split; [done | by constructor]).
  case_decide; [by apply Forall_drop | done].
Qed.

Lemma int_safe_defined n op v :
  wf v → access_bounded op → n + 1 < Int.int_half →
  int_safe n v → signed_arithmetic_defined op v.
Proof.
  intros Hwf Hop Hn [Hcounts Hwindow].
  destruct op as [page is_write | | | config | | installed | pages]; try done.
  simpl in *. intros _. split_and!.
  - unfold count_defined, representable. specialize (Hcounts page).
    unfold Int.int_half in *. lia.
  - destruct Hwf as [[HF _] Hfv _ _ _ Halg]. unfold hand_defined.
    destruct (algorithm_ (replacement_manager_ v)) as [| | s]; try done.
    destruct Halg as [_ Hhand]. unfold representable.
    intros h [-> | Hh]; unfold Int.int_half in *; lia.
  - intros _ l s t Hl Hs Ht.
    pose proof (updateRecentAccesses_bounded page v Hop Hwindow) as Hall.
    apply bounded_window_defined; by eapply vec_at_elem.
Qed.

Lemma exec_int_safe n op v v' :
  wf v → access_bounded op → 0 <= n → n + 1 < Int.int_half →
  exec op v = Some v' → int_safe n v → int_safe (n + 1) v'.
Proof.
  intros Hwf Hop Hn Hbound Hexec [Hcounts Hwindow].
  destruct op as [page is_write | | | config | | installed | pages]; simpl in *.
  - apply fmap_Some in Hexec as ([r v1] & Hacc & ->). simpl. split.
    + intros q. specialize (Hcounts q).
      destruct (accessPage_counts page is_write v r v1) with (q := q)
        as [-> | [_ ->]]; [destruct Hwf as [[_ ?] _ _ _ _ _]; lia | done | lia |].
      rewrite add_exact by (unfold representable; lia). lia.
    + destruct (simulation_running_ v) eqn:Hrun.
      * destruct (accessPage_step page is_write v Hwf Hrun)
          as (v2 & Hacc2 & _ & _ & _ & Hrecent & _).
        rewrite Hacc2 in Hacc. injection Hacc as _ <-. rewrite Hrecent.
        by apply updateRecentAccesses_bounded.
      * rewrite accessPage_not_running in Hacc by done. by injection Hacc as _ <-.
  - injection Hexec as <-. unfold startSimulation. rewrite emitEvent_eq.
    split; simpl; [intros q; specialize (Hcounts q); lia | done].
  - injection Hexec as <-. unfold stopSimulation. rewrite emitEvent_eq.
    split; simpl; [intros q; specialize (Hcounts q); lia | done].
  - injection Hexec as <-. split; simpl; [| done].
    intros q. unfold PT.getAccessCount, PT.new. simpl. rewrite lookup_empty. lia.
  - injection Hexec as <-. split; simpl; [intros q; specialize (Hcounts q); lia | done].
  - injection Hexec as <-. split; simpl; [intros q; specialize (Hcounts q); lia | done].
  - injection Hexec as <-.
    destruct (setAIPredictions_effect pages v) as [_ (Hpt & _)].
    split; [| by rewrite setAIPredictions_window].
    intros q. rewrite Hpt. specialize (Hcounts q). lia.
Qed.

Lemma int_safe_VMM_new config : int_safe 0 (VMM_new config).
Proof.
  split; simpl; [| done].
  intros p. unfold PT.getAccessCount, PT.new. simpl. rewrite lookup_empty. lia.
Qed.

Lemma exec_all_defined ops : ∀ n v,
  Forall op_ok ops → Forall access_bounded ops →
  0 <= n → n + Z.of_nat (length ops) < Int.int_half →
  wf v → int_safe n v →
  ∃ v', exec_all ops v = Some v' ∧ wf v' ∧ always_defined ops v.
Proof.
  induction ops as [| op rest IH]; intros n v Hops Hsmall Hn Hlen Hwf Hsafe.
  - by exists v.
  - apply Forall_cons in Hops as [Hop Hops].
    apply Forall_cons in Hsmall as [Hpage Hsmall].
    simpl length in Hlen.
    destruct (exec_wf op v Hop Hwf) as (v1 & Hexec & Hwf1).
    assert (int_safe (n + 1) v1) as Hsafe1
      by (apply (exec_int_safe n op v v1); try done; lia).
    destruct (IH (n + 1) v1) as (v' & Hrest & Hwf' & Hdefined);
      [done | done | lia | lia | done | done |].
    exists v'. cbn [exec_all always_defined]. rewrite Hexec. simpl.
    split; [done |]. split; [done |]. split; [| done].
    eapply int_safe_defined; [done | done | | done]. lia.
Qed.

(** X1.  Memory safety of the manager.  Take fewer than 2^31 public
    operations ([accessPage], [startSimulation], [stopSimulation],
    [setConfig] with a valid configuration, [resetMetrics],
    [setEventCallback], [setAIPredictions]) in any order, the accessed
    page numbers lying between -2^29 and 2^29, and apply them to a manager
    constructed from a valid configuration.  Then every operation has
    defined behaviour: no vector is indexed outside its bounds, no
    remainder by zero is taken, the CLOCK loops terminate, and no [int]
    overflows, neither an access count nor an expression of the
    predictor.  Afterwards the three frame vectors have [total_frames]
    elements, every valid page names an existing frame and the policy
    holds frames that exist. *)
Theorem operations_are_memory_safe config ops :
  config_ok config →
  Forall op_ok ops → Forall access_bounded ops →
  Z.of_nat (length ops) < Int.int_half →
  ∃ v, exec_all ops (VMM_new config) = Some v
    ∧ wf v
    ∧ always_defined ops (VMM_new config).
Proof.
  intros Hok Hops Hsmall Hlen.
  apply (exec_all_defined ops 0);
    [done | done | lia | lia | by apply wf_VMM_new | apply int_safe_VMM_new].
Qed.

Lemma operations_are_memory_safe_witness :
  config_ok clock_4_16_ai ∧ Forall op_ok session ∧ Forall access_bounded session
  ∧ Z.of_nat (length session) < Int.int_half
  ∧ ∃ v, exec_all session (VMM_new clock_4_16_ai) = Some v
      ∧ wf v
      ∧ always_defined session (VMM_new clock_4_16_ai).
Proof.
  assert (config_ok clock_4_16_ai) as Hok by (vm_compute; done).
  assert (Forall op_ok session) as Hops by (repeat constructor; vm_compute; done).
  assert (Forall access_bounded session) as Hsmall
    by (repeat constructor; vm_compute; done).
  assert (Z.of_nat (length session) < Int.int_half) as Hlen by (vm_compute; done).
  split; [exact Hok |]. split; [exact Hops |]. split; [exact Hsmall |].
  split; [exact Hlen |].
  exact (operations_are_memory_safe clock_4_16_ai session Hok Hops Hsmall Hlen).
Defined.

(** ** The workload generator, as it computes *)

Section WorkloadsAsComputed.
Import Workload.
Context {E : Type}.

Lemma generate_workload random_page g :
  deterministic (config_ g) → page_range (config_ g) ≠ 0 →
  generate random_page g = Some (workload_page (config_ g) (current_position_ g)).
Proof.
  intros [Htype | Htype] Hrange;
    unfold generate, workload_page, generateSequentialAccess, generateStridedAccess;
    rewrite Htype; by rewrite decide_False.
Qed.

Lemma generate_all_workload callback completion draws : ∀ c n (env : E),
  deterministic c → page_range c ≠ 0 → 0 <= n →
  n + Z.of_nat (length draws) < total_requests c →
  total_requests c < Int.size_t_modulus →
  generate_all (Some callback) completion draws (mkWorkloadGenerator c true n) env
  = env ← deliver callback (workload_accesses c n draws) env;
    Some (mkWorkloadGenerator c true (n + Z.of_nat (length draws)), env).
Proof.
  induction draws as [| draw draws IH]; intros c n env Hdet Hrange Hn Hlen Htotal.
  - simpl. by rewrite Z.add_0_r.
  - simpl length in Hlen.
    pose proof (generate_workload (random_page draw) (mkWorkloadGenerator c true n)
                  Hdet Hrange) as Hpage.
    simpl in Hpage.
    cbn [generate_all isRunning running_ generateNextAccess negb].
    rewrite Hpage. cbn [mbind option_bind workload_accesses].
    assert (∀ env' : E,
      (let g := {| config_ := c; running_ := true;
                   current_position_ := Int.incr n |} in
       if decide (current_position_ g >= total_requests (config_ g))
       then let g0 := stop g in
            match completion with
            | Some callback0 => callback0 g0 env'
            | None => Some (g0, env')
            end
       else Some (g, env')) ≫= (λ '(g, env), generate_all (Some callback) completion draws g env)
      = env ← deliver callback (workload_accesses c (n + 1) draws) env';
        Some (mkWorkloadGenerator c true (n + Z.of_nat (S (length draws))), env))
      as Hrest.
    { intros env'. cbn [config_ current_position_].
      rewrite incr_small by lia. rewrite decide_False by lia.
      cbn [mbind option_bind]. rewrite IH by (done || lia).
      destruct (deliver _ _ _); simpl; [| done]. do 3 f_equal.
      rewrite Nat2Z.inj_succ. lia. }
    destruct (decide (workload_page c n >= 0)).
    + cbn [deliver]. destruct (callback _ _ env) as [env' |]; [| reflexivity].
      cbn [mbind option_bind config_ current_position_ running_]. apply Hrest.
    + cbn [mbind option_bind config_ current_position_ running_]. apply Hrest.
Qed.

Lemma generate_all_workload_end callback draws : ∀ c n (env : E),
  deterministic c → page_range c ≠ 0 → 0 <= n → draws ≠ [] →
  n + Z.of_nat (length draws) = total_requests c →
  total_requests c < Int.size_t_modulus →
  generate_all (Some callback) (Some completion_handler) draws
    (mkWorkloadGenerator c true n) env
  = env ← deliver callback (workload_accesses c n draws) env;
    Some (mkWorkloadGenerator c true 0, env).
Proof.
  induction draws as [| draw draws IH];
    intros c n env Hdet Hrange Hn Hne Hlen Htotal; [done |].
  simpl length in Hlen.
  pose proof (generate_workload (random_page draw) (mkWorkloadGenerator c true n)
                Hdet Hrange) as Hpage.
  simpl in Hpage.
  cbn [generate_all isRunning running_ generateNextAccess negb].
  rewrite Hpage. cbn [mbind option_bind workload_accesses].
  assert (∀ env' : E,
    (let g := {| config_ := c; running_ := true;
                 current_position_ := Int.incr n |} in
     if decide (current_position_ g >= total_requests (config_ g))
     then let g0 := stop g in
          match Some completion_handler with
          | Some callback0 => callback0 g0 env'
          | None => Some (g0, env')
          end
     else Some (g, env'))
    ≫= (λ '(g, env), generate_all (Some callback) (Some completion_handler) draws g env)
    = env ← deliver callback (workload_accesses c (n + 1) draws) env';
      Some (mkWorkloadGenerator c true 0, env))
    as Hrest.
  { intros env'. cbn [config_ current_position_].
    rewrite incr_small by lia.
    destruct draws as [| draw' draws].
    - rewrite decide_True by (simpl in Hlen; lia). done.
    - rewrite decide_False by (simpl length in Hlen; lia).
      cbn [mbind option_bind].
      rewrite IH; [done | done | done | lia | done | lia | done]. }
  destruct (decide (workload_page c n >= 0)).
  - cbn [deliver]. destruct (callback _ _ env) as [env' |]; [| reflexivity].
    cbn [mbind option_bind config_ current_position_ running_]. apply Hrest.
  - cbn [mbind option_bind config_ current_position_ running_]. apply Hrest.
Qed.

End WorkloadsAsComputed.

Section WorkloadsInClosedForm.
Import Workload.

Lemma workload_page_pattern c n :
  pattern_ok c → 0 <= n < total_requests c →
  workload_page c n = pattern_page c n ∧ 0 <= pattern_page c n.
Proof.
  intros Hok Hn.
  pose proof (generate_pattern 0 (mkWorkloadGenerator c true n) Hok Hn)
    as [Hpattern Hnonneg].
  rewrite generate_workload in Hpattern.
  - simpl in *. split; [congruence | done].
  - destruct Hok as (_ & _ & Htype). unfold deterministic. simpl.
    destruct (type c); tauto.
  - destruct Hok as (? & _). simpl. lia.
Qed.

Lemma workload_accesses_pattern c draws : ∀ n,
  pattern_ok c → 0 <= n → n + Z.of_nat (length draws) <= total_requests c →
  workload_accesses c n draws = pattern_accesses c n draws.
Proof.
  induction draws as [| draw draws IH]; intros n Hok Hn Hlen; [done |].
  simpl length in Hlen. cbn [workload_accesses pattern_accesses].
  destruct (workload_page_pattern c n Hok) as [-> Hnonneg]; [lia |].
  rewrite decide_True by lia. rewrite IH by (done || lia). done.
Qed.

(** X19.  Deterministic workloads.  While fewer than [total_requests]
    accesses have been generated, a started SEQUENTIAL or STRIDED
    generator with a non-zero [page_range] hands to the access callback,
    one per call of [generateNextAccess] and in the order of the
    positions 0, 1, 2, ..., the page it computes at each position:
    [position % page_range], respectively
    [(position * stride) % page_range] with the [int] stride converted
    to [size_t] and the product taken modulo 2^64, converted to [int];
    a page that comes out negative is skipped.  Each access is a write
    exactly when the sample drawn for it is below 0.3.  The generator is
    still running afterwards and the completion callback has not been
    called.  When [page_range <= 2^31], [0 <= stride] and
    [total_requests * stride < 2^64], these pages are [0, 1, 2, ...]
    modulo [page_range], respectively [0, s, 2s, ...] modulo
    [page_range] for the stride [s]. *)
Theorem pattern_workload_visits_pages_in_order {E}
    (callback : Z → bool → E → option E) completion draws g (env : E) :
  deterministic (config_ g) →
  page_range (config_ g) ≠ 0 →
  Z.of_nat (length draws) < total_requests (config_ g) →
  total_requests (config_ g) < Int.size_t_modulus →
  generate_all (Some callback) completion draws (start g) env
  = (env ← deliver callback (workload_accesses (config_ g) 0 draws) env;
     Some (mkWorkloadGenerator (config_ g) true (Z.of_nat (length draws)), env))
  ∧ (pattern_ok (config_ g) →
     workload_accesses (config_ g) 0 draws = pattern_accesses (config_ g) 0 draws).
Proof.
  intros Hdet Hrange Hlen Htotal. split.
  - unfold start. by rewrite generate_all_workload by (done || lia).
  - intros Hok. apply workload_accesses_pattern; done || lia.
Qed.

Lemma pattern_workload_visits_pages_in_order_witness :
  deterministic (config_ (new strided_back))
  ∧ page_range (config_ (new strided_back)) ≠ 0
  ∧ Z.of_nat (length three_draws) < total_requests (config_ (new strided_back))
  ∧ total_requests (config_ (new strided_back)) < Int.size_t_modulus
  ∧ generate_all (Some (λ page is_write log, Some (log ++ [(page, is_write)])))
      None three_draws (start (new strided_back)) []
    = Some (mkWorkloadGenerator strided_back true 3,
            [(0, true); (615, false); (614, false)]).
Proof.
  assert (deterministic (config_ (new strided_back))) as Hdet by (by right).
  assert (page_range (config_ (new strided_back)) ≠ 0) as Hrange by done.
  assert (Z.of_nat (length three_draws) < total_requests (config_ (new strided_back)))
    as Hlen by (vm_compute; done).
  assert (total_requests (config_ (new strided_back)) < Int.size_t_modulus)
    as Htotal by (vm_compute; done).
  split; [exact Hdet |]. split; [exact Hrange |]. split; [exact Hlen |].
  split; [exact Htotal |].
  rewrite (proj1 (pattern_workload_visits_pages_in_order
                    (λ page is_write log, Some (log ++ [(page, is_write)]))
                    None three_draws (new strided_back) []
                    Hdet Hrange Hlen Htotal)).
  reflexivity.
Defined.

(** X20.  The workload restarts.  With the completion callback that
    [main.cpp] installs ([reset(); start()]), a SEQUENTIAL or STRIDED
    generator with a non-zero [page_range] that has made its
    [total_requests] accesses (at least one) is running again at
    position 0 with its configuration: the same sequence of pages
    starts over, and the generator never stops by itself. *)
Theorem completed_workload_starts_over {E}
    (callback : Z → bool → E → option E) draws g (env : E) :
  deterministic (config_ g) →
  page_range (config_ g) ≠ 0 →
  0 < total_requests (config_ g) < Int.size_t_modulus →
  Z.of_nat (length draws) = total_requests (config_ g) →
  generate_all (Some callback) (Some completion_handler) draws (start g) env
  = env ← deliver callback (workload_accesses (config_ g) 0 draws) env;
    Some (start g, env).
Proof.
  intros Hdet Hrange Htotal Hlen. unfold start.
  apply generate_all_workload_end; try done; try lia.
  intros ->. simpl in Hlen. lia.
Qed.

Lemma completed_workload_starts_over_witness :
  deterministic (config_ (new strided_back))
  ∧ page_range (config_ (new strided_back)) ≠ 0
  ∧ 0 < total_requests (config_ (new strided_back)) < Int.size_t_modulus
  ∧ Z.of_nat (length (Workload.mkDraw 0.2%float 0 :: three_draws))
    = total_requests (config_ (new strided_back))
  ∧ generate_all (Some (λ page is_write log, Some (log ++ [(page, is_write)])))
      (Some completion_handler) (Workload.mkDraw 0.2%float 0 :: three_draws)
      (start (new strided_back)) []
    = Some (start (new strided_back),
            [(0, true); (615, true); (614, false); (613, false)]).
Proof.
  assert (deterministic (config_ (new strided_back))) as Hdet by (by right).
  assert (page_range (config_ (new strided_back)) ≠ 0) as Hrange by done.
  assert (0 < total_requests (config_ (new strided_back)) < Int.size_t_modulus)
    as Htotal by (vm_compute; done).
  assert (Z.of_nat (length (Workload.mkDraw 0.2%float 0 :: three_draws))
          = total_requests (config_ (new strided_back))) as Hlen by reflexivity.
  split; [exact Hdet |]. split; [exact Hrange |]. split; [exact Htotal |].
  split; [exact Hlen |].
  rewrite (completed_workload_starts_over
             (λ page is_write log, Some (log ++ [(page, is_write)]))
             (Workload.mkDraw 0.2%float 0 :: three_draws) (new strided_back) []
             Hdet Hrange Htotal Hlen).
  reflexivity.
Defined.

(** X21.  Batches do not advance.  [generateBatch] never changes
    [current_position_], so a batch of a SEQUENTIAL or STRIDED generator
    with a non-zero [page_range] is [batch_size] copies of the page it
    computes at its current position, or empty when that page comes out
    negative. *)
Theorem pattern_batch_repeats_one_page random_page batch_size g :
  deterministic (config_ g) →
  page_range (config_ g) ≠ 0 →
  generateBatch random_page batch_size g
  = Some (if decide (workload_page (config_ g) (current_position_ g) >= 0)
          then replicate (Z.to_nat batch_size)
                 (workload_page (config_ g) (current_position_ g))
          else []).
Proof.
  intros Hdet Hrange. unfold generateBatch.
  rewrite (mapM_constant _ _ (workload_page (config_ g) (current_position_ g)))
    by (intros i; by apply generate_workload).
  simpl. rewrite length_seqZ. f_equal.
  induction (Z.to_nat batch_size) as [| n IH]; [by case_decide |].
  simpl. rewrite filter_cons, IH. by repeat case_decide.
Qed.

Lemma pattern_batch_repeats_one_page_witness :
  deterministic (config_ (mkWorkloadGenerator strided_back true 2))
  ∧ page_range (config_ (mkWorkloadGenerator strided_back true 2)) ≠ 0
  ∧ generateBatch (λ _, 0) 4 (mkWorkloadGenerator strided_back true 2)
    = Some [614; 614; 614; 614].
Proof.
  assert (deterministic (config_ (mkWorkloadGenerator strided_back true 2)))
    as Hdet by (by right).
  assert (page_range (config_ (mkWorkloadGenerator strided_back true 2)) ≠ 0)
    as Hrange by done.
  split; [exact Hdet |]. split; [exact Hrange |].
  rewrite (pattern_batch_repeats_one_page (λ _, 0) 4
             (mkWorkloadGenerator strided_back true 2) Hdet Hrange).
  reflexivity.
Defined.

End WorkloadsInClosedForm.
